(** * The Kotlin tree-sitter grammar (grammar.js) as data, and its properties

    grammar.js is a program of the tree-sitter grammar DSL: evaluating it
    builds a table of rule objects out of [seq], [choice], [repeat],
    [optional], [token], [prec], [field], [alias] and [blank], plus the
    repository's own helpers [sep1] and [optional_with_placeholder] and the
    precedence table [PREC].  This file embeds those objects, gives the DSL
    its reading as a grammar (terminals match text, [seq] concatenates,
    [choice] alternates, the [extras] may sit between any two tokens, a
    terminal consumes its longest match) and proves properties of the
    resulting language and trees. *)

From Stdlib Require Import List String Ascii Bool Arith ZArith Lia.
Import ListNotations.
Open Scope string_scope.
Open Scope list_scope.

Set Warnings "-register-all".


(* ================================================================== *)
(** * Regular expressions: the JS regex literals of the grammar        *)
(* ================================================================== *)

Module Regex.

(** A character class is a list of inclusive ranges, possibly negated:
  [[a-zA-Z_]] is [Cls false [("a","z");("A","Z");("_","_")]]. *)
Inductive re : Type :=
| Void
| Eps
| Cls (neg : bool) (ranges : list (ascii * ascii))
| Cat (a b : re)
| Alt (a b : re)
| Star (a : re).

Definition in_range (c : ascii) (r : ascii * ascii) : bool :=
((nat_of_ascii (fst r) <=? nat_of_ascii c)%nat
 && (nat_of_ascii c <=? nat_of_ascii (snd r))%nat)%bool.

Definition in_class (neg : bool) (ranges : list (ascii * ascii)) (c : ascii) : bool :=
xorb neg (existsb (in_range c) ranges).

(** [a+], [a?], [a{n}] and a literal string. *)
Definition Plus (a : re) : re := Cat a (Star a).
Definition Opt (a : re) : re := Alt a Eps.
Fixpoint Times (n : nat) (a : re) : re :=
match n with
| 0 => Eps
| S k => Cat a (Times k a)
end.
Definition Chr (c : ascii) : re := Cls false [(c, c)].
Fixpoint Lit (s : string) : re :=
match s with
| EmptyString => Eps
| String c rest => Cat (Chr c) (Lit rest)
end.

(** The denotation of a regular expression. *)
Inductive matches : re -> string -> Prop :=
| m_eps : matches Eps ""
| m_cls neg rs c : in_class neg rs c = true -> matches (Cls neg rs) (String c "")
| m_cat a b u v : matches a u -> matches b v -> matches (Cat a b) (u ++ v)
| m_alt_l a b u : matches a u -> matches (Alt a b) u
| m_alt_r a b u : matches b u -> matches (Alt a b) u
| m_star_nil a : matches (Star a) ""
| m_star_cons a u v : matches a u -> matches (Star a) v -> matches (Star a) (u ++ v).

(** Brzozowski derivatives give the executable matcher. *)
Fixpoint nullable (r : re) : bool :=
match r with
| Void => false
| Eps => true
| Cls _ _ => false
| Cat a b => nullable a && nullable b
| Alt a b => nullable a || nullable b
| Star _ => true
end.

Fixpoint deriv (c : ascii) (r : re) : re :=
match r with
| Void => Void
| Eps => Void
| Cls neg rs => if in_class neg rs c then Eps else Void
| Cat a b =>
    if nullable a then Alt (Cat (deriv c a) b) (deriv c b)
    else Cat (deriv c a) b
| Alt a b => Alt (deriv c a) (deriv c b)
| Star a => Cat (deriv c a) (Star a)
end.

(** Derivatives are kept small: dead branches are dropped as they arise. *)
Definition mk_cat (a b : re) : re :=
match a, b with
| Void, _ => Void
| _, Void => Void
| Eps, _ => b
| _, _ => Cat a b
end.

Definition mk_alt (a b : re) : re :=
match a, b with
| Void, _ => b
| _, Void => a
| _, _ => Alt a b
end.

Fixpoint simp (r : re) : re :=
match r with
| Cat a b => mk_cat (simp a) (simp b)
| Alt a b => mk_alt (simp a) (simp b)
| _ => r
end.

Fixpoint re_match (r : re) (s : string) : bool :=
match s with
| EmptyString => nullable r
| String c rest => re_match (simp (deriv c r)) rest
end.

(** Length of the longest prefix of [s] that [r] matches, if any. *)
Fixpoint longest_from (r : re) (s : string) (pos : nat) (best : option nat) : option nat :=
let best' := if nullable r then Some pos else best in
match s with
| EmptyString => best'
| String c rest => longest_from (simp (deriv c r)) rest (S pos) best'
end.

Definition longest (r : re) (s : string) : option nat := longest_from r s 0 None.

(** Characters that cannot be written inside a Rocq string literal. *)
Definition LF : ascii := "010"%char.
Definition CR : ascii := "013"%char.
Definition TAB : ascii := "009"%char.
Definition VT : ascii := "011"%char.
Definition FF : ascii := "012"%char.
Definition DQ : ascii := "034"%char.
Definition BSL : ascii := "\"%char.

Definition cls (ranges : list (ascii * ascii)) : re := Cls false ranges.
Definition ncls (ranges : list (ascii * ascii)) : re := Cls true ranges.

(** [\s] and [.] of a JS regex, over bytes. *)
Definition whitespace_class : re :=
cls [(" "%char, " "%char); (TAB, TAB); (LF, LF); (VT, VT); (FF, FF); (CR, CR)].
Definition any_char : re := ncls [(LF, LF)].

(** Whether every character of a string satisfies a test, and whether a
  character occurs in a string. *)
Fixpoint all_chars (f : ascii -> bool) (s : string) : bool :=
match s with
| EmptyString => true
| String c rest => f c && all_chars f rest
end.

Definition has_char (c : ascii) (s : string) : bool :=
negb (all_chars (fun x => negb (Ascii.eqb x c)) s).

Definition is_digit (c : ascii) : bool := in_class false [("0"%char, "9"%char)] c.

Definition first_char (s : string) : option ascii :=
match s with
| EmptyString => None
| String c _ => Some c
end.

End Regex.
Export Regex.

Arguments Chr c%_char.

(* ================================================================== *)
(** * The grammar DSL                                                  *)
(* ================================================================== *)

(** The rule objects that the DSL functions build. *)
Inductive rule : Type :=
| Blank
| Str (value : string)
| Pat (value : re)
| Sym (name : string)
| Seq (members : list rule)
| Choice (members : list rule)
| Repeat (content : rule)
| Repeat1 (content : rule)
| Prec (value : Z) (content : rule)
| PrecLeft (value : Z) (content : rule)
| PrecRight (value : Z) (content : rule)
| PrecDynamic (value : Z) (content : rule)
| Token (content : rule)
| Field (name : string) (content : rule)
| Alias (content : rule) (value : string).

(** The DSL functions.  [optional(r)] is [choice(r, blank())]; the
    one-argument forms of [prec.left] and [prec.right] take level 0. *)
Abbreviation blank := Blank (only parsing).
Abbreviation seq := Seq (only parsing).
Abbreviation choice := Choice (only parsing).
Abbreviation repeat := Repeat (only parsing).
Abbreviation repeat1 := Repeat1 (only parsing).
Abbreviation token := Token (only parsing).
Abbreviation field := Field (only parsing).
Abbreviation alias := Alias (only parsing).
Abbreviation prec := Prec (only parsing).
Abbreviation prec_left := PrecLeft (only parsing).
Abbreviation prec_right := PrecRight (only parsing).
Abbreviation prec_dynamic := PrecDynamic (only parsing).
Abbreviation prec_left0 := (PrecLeft 0%Z) (only parsing).
Abbreviation prec_right0 := (PrecRight 0%Z) (only parsing).
Definition optional (r : rule) : rule := Choice [r; Blank].

(** grammar.js, [sep1]. *)
Definition sep1 (r separator : rule) : rule :=
  seq [r; repeat (seq [separator; r])].

(** grammar.js, [optional_with_placeholder]. *)
Definition optional_with_placeholder (field_name : string) (r : rule) : rule :=
  choice [field field_name r; field field_name blank].

(** grammar.js, [PREC]. *)
Module PREC.
Definition POSTFIX : Z := 16.
Definition PREFIX : Z := 15.
Definition TYPE_RHS : Z := 14.
Definition AS : Z := 13.
Definition MULTIPLICATIVE : Z := 12.
Definition ADDITIVE : Z := 11.
Definition RANGE : Z := 10.
Definition INFIX : Z := 9.
Definition ELVIS : Z := 8.
Definition CHECK : Z := 7.
Definition COMPARISON : Z := 6.
Definition EQUALITY : Z := 5.
Definition CONJUNCTION : Z := 4.
Definition DISJUNCTION : Z := 3.
Definition SPREAD : Z := 2.
Definition SIMPLE_USER_TYPE : Z := 2.
Definition VAR_DECL : Z := 1.
Definition ASSIGNMENT : Z := 1.
Definition BLOCK : Z := 1.
Definition LAMBDA_LITERAL : Z := 0.
Definition RETURN_OR_THROW : Z := 0.
Definition COMMENT : Z := 0.

(** The table as the object it is: keys in source order. *)
Definition entries : list (string * Z) :=
  [ ("POSTFIX", POSTFIX); ("PREFIX", PREFIX); ("TYPE_RHS", TYPE_RHS);
    ("AS", AS); ("MULTIPLICATIVE", MULTIPLICATIVE); ("ADDITIVE", ADDITIVE);
    ("RANGE", RANGE); ("INFIX", INFIX); ("ELVIS", ELVIS); ("CHECK", CHECK);
    ("COMPARISON", COMPARISON); ("EQUALITY", EQUALITY);
    ("CONJUNCTION", CONJUNCTION); ("DISJUNCTION", DISJUNCTION);
    ("SPREAD", SPREAD); ("SIMPLE_USER_TYPE", SIMPLE_USER_TYPE);
    ("VAR_DECL", VAR_DECL); ("ASSIGNMENT", ASSIGNMENT); ("BLOCK", BLOCK);
    ("LAMBDA_LITERAL", LAMBDA_LITERAL); ("RETURN_OR_THROW", RETURN_OR_THROW);
    ("COMMENT", COMMENT) ].
End PREC.

(* ================================================================== *)
(** * grammar.js                                                       *)
(* ================================================================== *)

Definition DEC_DIGITS : rule :=
  token (sep1 (Pat (Plus (cls [("0","9")]%char))) (Pat (Plus (Chr "_")))).

Definition HEX_DIGITS : rule :=
  token
    (sep1
      (Pat (Plus (cls [("0","9"); ("a","f"); ("A","F")]%char)))
      (Pat (Plus (Chr "_")))).

Definition BIN_DIGITS : rule :=
  token (sep1 (Pat (cls [("0","0"); ("1","1")]%char)) (Pat (Plus (Chr "_")))).

Definition REAL_EXPONENT : rule :=
  token
    (seq
      [ Pat (cls [("e","e"); ("E","E")]%char);
        optional (Pat (cls [("+","+"); ("-","-")]%char));
        DEC_DIGITS ]).

Definition conflicts : list (list string) :=
  [ ["anonymous_function"];
    ["primary_expression_"; "callable_reference"];
    ["constructor_invocation"; "_unescaped_annotation"];
    ["platform_modifier"; "simple_identifier"];
    ["class_modifier"; "simple_identifier"];
    ["_postfix_unary_expression"; "expression_"];
    ["call"; "prefix_expression"; "comparison_expression"];
    ["call"; "range_expression"; "comparison_expression"];
    ["call"; "elvis_expression"; "comparison_expression"];
    ["call"; "check_expression"; "comparison_expression"];
    ["call"; "additive_expression"; "comparison_expression"];
    ["call"; "infix_expression"; "comparison_expression"];
    ["call"; "multiplicative_expression"; "comparison_expression"];
    ["type_arguments"; "_comparison_operator"];
    ["statement_"; "prefix_expression"];
    ["statement_"; "prefix_expression"; "modifiers"];
    ["prefix_expression"; "when_subject"];
    ["prefix_expression"; "value_argument"];
    ["user_type"];
    ["user_type"; "anonymous_function"];
    ["user_type"; "function_type"];
    ["annotated_lambda"; "modifiers"];
    ["setter"; "simple_identifier"];
    ["getter"; "simple_identifier"];
    ["if"];
    ["if_clause"; "else_if_clause"];
    ["return"];
    ["variable_declaration"];
    ["property_assignment"] ].

Definition rules : list (string * rule) :=
  [ ("program",
      seq
        [ optional (Sym "shebang_line");
          repeat (Sym "file_annotation");
          optional (Sym "package_header");
          optional_with_placeholder "import_list" (repeat (Sym "import"));
          optional_with_placeholder "statement_list" (repeat (Sym "statement")) ]);

    ("statement",
      seq [Sym "statement_"; Sym "_semi"]);

    ("shebang_line",
      seq [Str "#!"; Pat (Star (ncls [(CR,CR); (LF,LF)]%char))]);

    ("file_annotation",
      seq
        [ Str "@";
          Str "file";
          Str ":";
          choice
           [ seq [Str "["; repeat1 (Sym "_unescaped_annotation"); Str "]"];
             Sym "_unescaped_annotation" ];
          Sym "_semi" ]);

    ("package_header",
      seq [Str "package"; Sym "identifier"; Sym "_semi"]);

    ("import",
      seq
        [ Str "import";
          Sym "identifier";
          optional (choice [seq [Str ".*"]; Sym "import_alias"]);
          Sym "_semi" ]);

    ("import_alias",
      seq [Str "as"; alias (Sym "simple_identifier") "type_identifier"]);

    ("top_level_object",
      seq [Sym "declaration_"; optional (Sym "_semis")]);

    ("type_alias",
      seq
        [ optional (Sym "modifiers");
          Str "typealias";
          alias (Sym "simple_identifier") "type_identifier";
          Str "=";
          Sym "_type" ]);

    ("declaration_",
      choice
        [ Sym "class_declaration";
          Sym "object_declaration";
          Sym "function";
          Sym "property";
          Sym "getter";
          Sym "setter";
          Sym "type_alias" ]);

    ("class_declaration",
      prec_right0
        (choice
          [ seq
             [ optional (Sym "modifiers");
               choice [Str "class"; Str "interface"];
               alias (Sym "simple_identifier") "identifier";
               optional (Sym "type_parameters");
               optional (Sym "primary_constructor");
               optional_with_placeholder "implements_list_optional"
                (seq
                  [ Str ":";
                    alias (Sym "delegation_specifiers_") "implements_list" ]);
               optional (Sym "type_constraints");
               optional (Sym "class_body") ];
            seq
             [ optional (Sym "modifiers");
               Str "enum";
               Str "class";
               alias (Sym "simple_identifier") "identifier";
               optional (Sym "type_parameters");
               optional (Sym "primary_constructor");
               optional_with_placeholder "implements_list_optional"
                (seq
                  [ Str ":";
                    alias (Sym "delegation_specifiers_") "implements_list" ]);
               optional (Sym "type_constraints");
               optional (Sym "enum_class_body") ] ]));

    ("primary_constructor",
      seq
        [ optional (seq [optional (Sym "modifiers"); Str "constructor"]);
          Sym "_class_parameters" ]);

    ("class_body",
      seq
        [ Str "{";
          optional_with_placeholder "class_member_list"
           (Sym "class_member_declarations_");
          Str "}" ]);

    ("_class_parameters",
      seq
        [ Str "(";
          optional (sep1 (Sym "class_parameter") (Str ","));
          optional (Str ",");
          Str ")" ]);

    ("class_parameter",
      seq
        [ optional (Sym "modifiers");
          optional (choice [Str "val"; Str "var"]);
          Sym "simple_identifier";
          Str ":";
          Sym "_type";
          optional (seq [Str "="; Sym "expression_"]) ]);

    ("delegation_specifiers_",
      prec_left0
        (sep1 (alias (Sym "delegation_specifier") "implements_type") (Str ",")));

    ("delegation_specifier",
      prec_left0
        (choice
          [ Sym "constructor_invocation";
            Sym "explicit_delegation";
            Sym "user_type";
            Sym "function_type" ]));

    ("constructor_invocation",
      seq [Sym "user_type"; Sym "value_arguments"]);

    ("_annotated_delegation_specifier",
      seq [repeat (Sym "annotation"); Sym "delegation_specifier"]);

    ("explicit_delegation",
      seq
        [ choice [Sym "user_type"; Sym "function_type"];
          Str "by";
          Sym "expression_" ]);

    ("type_parameters",
      seq [Str "<"; sep1 (Sym "type_parameter") (Str ","); Str ">"]);

    ("type_parameter",
      seq
        [ optional (Sym "type_parameter_modifiers");
          alias (Sym "simple_identifier") "type_identifier";
          optional (seq [Str ":"; Sym "_type"]) ]);

    ("type_constraints",
      prec_right0 (seq [Str "where"; sep1 (Sym "type_constraint") (Str ",")]));

    ("type_constraint",
      seq
        [ repeat (Sym "annotation");
          alias (Sym "simple_identifier") "type_identifier";
          Str ":";
          Sym "_type" ]);

    ("class_member_declarations_",
      repeat1
        (seq [alias (Sym "_class_member_declaration") "member"; Sym "_semis"]));

    ("_class_member_declaration",
      choice
        [ Sym "declaration_";
          Sym "companion_object";
          Sym "anonymous_initializer";
          Sym "secondary_constructor" ]);

    ("anonymous_initializer",
      seq [Str "init"; Sym "enclosed_body"]);

    ("companion_object",
      seq
        [ optional (Sym "modifiers");
          Str "companion";
          Str "object";
          optional (alias (Sym "simple_identifier") "type_identifier");
          optional (seq [Str ":"; Sym "delegation_specifiers_"]);
          optional (Sym "class_body") ]);

    ("function_value_parameters_",
      seq
        [ Str "(";
          optional_with_placeholder "parameter_list"
           (seq
             [ optional
                (sep1
                  (alias (Sym "function_value_parameter_") "parameter")
                  (Str ","));
               optional (Str ",") ]);
          Str ")" ]);

    ("function_value_parameter_",
      seq
        [ optional (Sym "parameter_modifiers");
          Sym "parameter_";
          optional (seq [Str "="; Sym "expression_"]) ]);

    ("receiver_type_",
      seq
        [ optional (Sym "type_modifiers");
          choice
           [ Sym "type_reference_";
             Sym "parenthesized_type";
             Sym "nullable_type" ] ]);

    ("function",
      prec_right0
        (seq
          [ optional (Sym "modifiers");
            Str "fun";
            optional (Sym "type_parameters");
            optional (seq [Sym "receiver_type_"; optional (Str ".")]);
            field "identifier" (Sym "simple_identifier");
            Sym "function_value_parameters_";
            optional_with_placeholder "type_optional"
             (seq [Str ":"; alias (Sym "_type") "type"]);
            optional (Sym "type_constraints");
            optional (Sym "function_body") ]));

    ("function_body",
      choice [Sym "enclosed_body"; seq [Str "="; Sym "expression_"]]);

    ("single_variable_declaration",
      prec_left PREC.VAR_DECL
        (seq
          [ field "identifier" (Sym "simple_identifier");
            optional_with_placeholder "type_optional"
             (seq [Str ":"; alias (Sym "_type") "type"]) ]));

    ("variable_declaration",
      alias (Sym "property_assignment") "assignment");

    ("property_assignment",
      seq
        [ choice
           [ alias (Sym "single_variable_declaration") "assignment_variable";
             Sym "multi_variable_declaration" ];
          optional (Sym "type_constraints");
          optional_with_placeholder "assignment_value_list_optional"
           (alias (Sym "property_assignment_value") "assignment_value") ]);

    ("property_assignment_value",
      choice [seq [Str "="; Sym "expression_"]; Sym "property_delegate"]);

    ("property",
      prec_right0
        (seq
          [ optional (Sym "modifiers");
            choice [Str "val"; Str "var"];
            optional (Sym "type_parameters");
            optional (seq [Sym "receiver_type_"; optional (Str ".")]);
            Sym "variable_declaration";
            optional (Str ";");
            choice [optional (Sym "getter"); optional (Sym "setter")] ]));

    ("property_delegate",
      seq [Str "by"; Sym "expression_"]);

    ("getter",
      prec_right0
        (seq
          [ optional (Sym "modifiers");
            Str "get";
            optional
             (seq
               [ Str "(";
                 Str ")";
                 optional (seq [Str ":"; Sym "_type"]);
                 Sym "function_body" ]) ]));

    ("setter",
      prec_right0
        (seq
          [ optional (Sym "modifiers");
            Str "set";
            optional
             (seq
               [ Str "(";
                 Sym "parameter_with_optional_type";
                 Str ")";
                 optional (seq [Str ":"; Sym "_type"]);
                 Sym "function_body" ]) ]));

    ("parameters_with_optional_type",
      seq
        [ Str "(";
          sep1 (Sym "parameter_with_optional_type") (Str ",");
          Str ")" ]);

    ("parameter_with_optional_type",
      seq
        [ optional (Sym "parameter_modifiers");
          Sym "simple_identifier";
          optional (seq [Str ":"; Sym "_type"]) ]);

    ("parameter_",
      seq
        [ field "identifier" (Sym "simple_identifier");
          field "type_optional" (seq [Str ":"; alias (Sym "_type") "type"]) ]);

    ("object_declaration",
      prec_right0
        (seq
          [ optional (Sym "modifiers");
            Str "object";
            alias (Sym "simple_identifier") "type_identifier";
            optional (seq [Str ":"; Sym "delegation_specifiers_"]);
            optional (Sym "class_body") ]));

    ("secondary_constructor",
      seq
        [ optional (Sym "modifiers");
          Str "constructor";
          Sym "function_value_parameters_";
          optional (seq [Str ":"; Sym "constructor_delegation_call"]);
          optional (Sym "enclosed_body") ]);

    ("constructor_delegation_call",
      seq [choice [Str "this"; Str "super"]; Sym "value_arguments"]);

    ("enum_class_body",
      seq
        [ Str "{";
          optional_with_placeholder "enum_member_list"
           (seq
             [ optional (Sym "_enum_entries");
               optional
                (seq [Str ";"; optional (Sym "class_member_declarations_")]) ]);
          Str "}" ]);

    ("_enum_entries",
      seq [sep1 (Sym "enum_entry") (Str ","); optional (Str ",")]);

    ("enum_entry",
      seq
        [ optional (Sym "modifiers");
          Sym "simple_identifier";
          optional (Sym "value_arguments");
          optional (Sym "class_body") ]);

    ("_type",
      seq
        [ optional (Sym "type_modifiers");
          choice
           [ Sym "parenthesized_type";
             Sym "nullable_type";
             Sym "type_reference_";
             Sym "function_type" ] ]);

    ("type_reference_",
      choice [Sym "user_type"; Str "dynamic"]);

    ("nullable_type",
      seq
        [ choice [Sym "type_reference_"; Sym "parenthesized_type"];
          repeat1 (Sym "_quest") ]);

    ("_quest",
      Str "?");

    ("user_type",
      sep1 (Sym "_simple_user_type") (Str "."));

    ("_simple_user_type",
      prec_right PREC.SIMPLE_USER_TYPE
        (seq
          [ alias (Sym "simple_identifier") "type_identifier";
            optional (Sym "type_arguments") ]));

    ("type_projection",
      choice
        [ seq [optional (Sym "type_projection_modifiers"); Sym "_type"];
          Str "*" ]);

    ("type_projection_modifiers",
      repeat1 (Sym "_type_projection_modifier"));

    ("_type_projection_modifier",
      Sym "variance_modifier");

    ("function_type",
      seq
        [ optional (seq [Sym "_simple_user_type"; Str "."]);
          Sym "function_type_parameters";
          Str "->";
          Sym "_type" ]);

    ("function_type_parameters",
      prec_left 1%Z
        (seq
          [ Str "(";
            optional (sep1 (choice [Sym "parameter_"; Sym "_type"]) (Str ","));
            Str ")" ]));

    ("parenthesized_type",
      seq [Str "("; Sym "_type"; Str ")"]);

    ("parenthesized_user_type",
      seq
        [ Str "(";
          choice [Sym "user_type"; Sym "parenthesized_user_type"];
          Str ")" ]);

    ("statements",
      seq
        [ Sym "statement_";
          repeat (seq [Sym "_semis"; Sym "statement_"]);
          optional (Sym "_semis") ]);

    ("statement_",
      field "statement"
        (choice
          [ Sym "declaration_";
            seq
             [ repeat (choice [Sym "label"; Sym "annotation"]);
               choice
                [ Sym "assignment";
                  Sym "loop_statement_";
                  Sym "expression_" ] ] ]));

    ("label",
      token
        (seq
          [ Pat (Cat (cls [("a","z"); ("A","Z"); ("_","_")]%char) (Star (cls [("a","z"); ("A","Z"); ("_","_"); ("0","9")]%char)));
            Str "@" ]));

    ("control_structure_body",
      choice [Sym "enclosed_body"; alias (Sym "statement_") "statement"]);

    ("enclosed_body",
      prec PREC.BLOCK
        (seq
          [ Str "{";
            optional_with_placeholder "statement_list" (Sym "statements");
            Str "}" ]));

    ("loop_statement_",
      choice [Sym "for"; Sym "while"; Sym "do_while_statement"]);

    ("for",
      Sym "for_each_clause");

    ("for_each_clause",
      prec_right0
        (seq
          [ Str "for";
            Str "(";
            field "block_iterator"
             (seq
               [ repeat (Sym "annotation");
                 choice
                  [ Sym "single_variable_declaration";
                    Sym "multi_variable_declaration" ] ]);
            field "for_each_separator" (Str "in");
            field "block_collection" (Sym "expression_");
            Str ")";
            optional (Sym "control_structure_body") ]));

    ("while",
      Sym "while_clause");

    ("while_clause",
      seq
        [ Str "while";
          Str "(";
          alias (Sym "expression_") "condition";
          Str ")";
          choice [Str ";"; Sym "control_structure_body"] ]);

    ("do_while_statement",
      prec_right0
        (seq
          [ Str "do";
            optional (Sym "control_structure_body");
            Str "while";
            Str "(";
            Sym "expression_";
            Str ")" ]));

    ("_semi",
      choice [Sym "_automatic_semicolon"; Str ";"]);

    ("_semis",
      choice [Sym "_automatic_semicolon"; Str ";"]);

    ("assignment",
      choice
        [ prec_left PREC.ASSIGNMENT
           (seq
             [ Sym "directly_assignable_expression";
               Sym "_assignment_and_operator";
               Sym "assignment_value" ]);
          prec_left PREC.ASSIGNMENT
           (seq
             [ Sym "directly_assignable_expression";
               Str "=";
               Sym "assignment_value" ]) ]);

    ("assignment_value",
      Sym "expression_");

    ("expression_",
      choice
        [ Sym "primary_expression_";
          Sym "_unary_expression";
          Sym "_binary_expression" ]);

    ("_unary_expression",
      choice
        [ Sym "postfix_expression";
          Sym "call";
          Sym "indexing_expression";
          Sym "navigation_expression";
          Sym "prefix_expression";
          Sym "as_expression";
          Sym "spread_expression" ]);

    ("postfix_expression",
      prec_left PREC.POSTFIX
        (seq [Sym "expression_"; Sym "_postfix_unary_operator"]));

    ("call",
      prec_left PREC.POSTFIX (seq [Sym "expression_"; Sym "call_suffix"]));

    ("indexing_expression",
      prec_left PREC.POSTFIX (seq [Sym "expression_"; Sym "indexing_suffix"]));

    ("navigation_expression",
      prec_left PREC.POSTFIX
        (seq [Sym "expression_"; Sym "navigation_suffix"]));

    ("prefix_expression",
      prec_right0
        (seq
          [ choice
             [ Sym "annotation";
               Sym "label";
               Sym "_prefix_unary_operator" ];
            Sym "expression_" ]));

    ("as_expression",
      prec_left PREC.AS
        (seq [Sym "expression_"; Sym "_as_operator"; Sym "_type"]));

    ("spread_expression",
      prec_left PREC.SPREAD (seq [Str "*"; Sym "expression_"]));

    ("_binary_expression",
      choice
        [ Sym "multiplicative_expression";
          Sym "additive_expression";
          Sym "range_expression";
          Sym "infix_expression";
          Sym "elvis_expression";
          Sym "check_expression";
          Sym "comparison_expression";
          Sym "equality_expression";
          Sym "comparison_expression";
          Sym "equality_expression";
          Sym "conjunction_expression";
          Sym "disjunction_expression" ]);

    ("multiplicative_expression",
      prec_left PREC.MULTIPLICATIVE
        (seq
          [ Sym "expression_";
            Sym "_multiplicative_operator";
            Sym "expression_" ]));

    ("additive_expression",
      prec_left PREC.ADDITIVE
        (seq [Sym "expression_"; Sym "_additive_operator"; Sym "expression_"]));

    ("range_expression",
      prec_left PREC.RANGE
        (seq [Sym "expression_"; Str ".."; Sym "expression_"]));

    ("infix_expression",
      prec_left PREC.INFIX
        (seq [Sym "expression_"; Sym "simple_identifier"; Sym "expression_"]));

    ("elvis_expression",
      prec_left PREC.ELVIS
        (seq [Sym "expression_"; Str "?:"; Sym "expression_"]));

    ("check_expression",
      prec_left PREC.CHECK
        (seq
          [ Sym "expression_";
            choice
             [ seq [Sym "_in_operator"; Sym "expression_"];
               seq [Sym "_is_operator"; Sym "_type"] ] ]));

    ("comparison_expression",
      prec_left PREC.COMPARISON
        (seq [Sym "expression_"; Sym "_comparison_operator"; Sym "expression_"]));

    ("equality_expression",
      prec_left PREC.EQUALITY
        (seq [Sym "expression_"; Sym "_equality_operator"; Sym "expression_"]));

    ("conjunction_expression",
      prec_left PREC.CONJUNCTION
        (seq [Sym "expression_"; Str "&&"; Sym "expression_"]));

    ("disjunction_expression",
      prec_left PREC.DISJUNCTION
        (seq [Sym "expression_"; Str "||"; Sym "expression_"]));

    ("indexing_suffix",
      seq [Str "["; sep1 (Sym "expression_") (Str ","); Str "]"]);

    ("navigation_suffix",
      seq
        [ Sym "_member_access_operator";
          choice
           [ Sym "simple_identifier";
             Sym "parenthesized_expression";
             Str "class" ] ]);

    ("call_suffix",
      prec_left0
        (seq
          [ optional (Sym "type_arguments");
            choice
             [ seq [optional (Sym "value_arguments"); Sym "annotated_lambda"];
               Sym "value_arguments" ] ]));

    ("annotated_lambda",
      seq
        [ repeat (Sym "annotation");
          optional (Sym "label");
          Sym "lambda_literal" ]);

    ("type_arguments",
      seq [Str "<"; sep1 (Sym "type_projection") (Str ","); Str ">"]);

    ("value_arguments",
      seq
        [ Str "(";
          optional_with_placeholder "argument_list"
           (sep1 (alias (Sym "value_argument") "argument") (Str ","));
          Str ")" ]);

    ("value_argument",
      seq
        [ optional (Sym "annotation");
          optional
           (seq [field "identifier" (Sym "simple_identifier"); Str "="]);
          optional (Str "*");
          Sym "expression_" ]);

    ("primary_expression_",
      choice
        [ Sym "parenthesized_expression";
          Sym "simple_identifier";
          Sym "_literal_constant";
          Sym "string_literal";
          Sym "callable_reference";
          Sym "_function_literal";
          Sym "object_literal";
          Sym "collection_literal";
          Sym "this_expression";
          Sym "super_expression";
          Sym "if";
          Sym "when_expression";
          Sym "try";
          Sym "jump_expression" ]);

    ("parenthesized_expression",
      seq [Str "("; Sym "expression_"; Str ")"]);

    ("collection_literal",
      seq
        [ Str "[";
          Sym "expression_";
          repeat (seq [Str ","; Sym "expression_"]);
          Str "]" ]);

    ("_literal_constant",
      choice
        [ Sym "boolean_literal";
          Sym "integer_literal";
          Sym "hex_literal";
          Sym "bin_literal";
          Sym "character_literal";
          Sym "real_literal";
          Str "null";
          Sym "long_literal";
          Sym "unsigned_literal" ]);

    ("string_literal",
      choice [Sym "line_string_literal"; Sym "multi_line_string_literal"]);

    ("line_string_literal",
      seq
        [ Str (String DQ "");
          repeat (choice [Sym "line_string_content_"; Sym "interpolation_"]);
          Str (String DQ "") ]);

    ("multi_line_string_literal",
      seq
        [ Str (String DQ "" ++ String DQ "" ++ String DQ "");
          repeat
           (choice [Sym "_multi_line_string_content"; Sym "interpolation_"]);
          Str (String DQ "" ++ String DQ "" ++ String DQ "") ]);

    ("line_string_content_",
      choice [Sym "_line_str_text"; Sym "_line_str_escaped_char"]);

    ("line_string_expression",
      seq [Str "${"; Sym "expression_"; Str "}"]);

    ("_multi_line_string_content",
      choice [Sym "_multi_line_str_text"; Str (String DQ "")]);

    ("interpolation_",
      choice
        [ seq
           [ Str "${";
             alias (Sym "expression_") "interpolated_expression";
             Str "}" ];
          seq
           [ Str "$";
             alias (Sym "simple_identifier") "interpolated_identifier" ] ]);

    ("lambda_literal",
      prec PREC.LAMBDA_LITERAL
        (seq
          [ Str "{";
            optional (seq [optional (Sym "lambda_parameters"); Str "->"]);
            optional (Sym "statements");
            Str "}" ]));

    ("multi_variable_declaration",
      seq
        [ Str "(";
          field "assignment_variable_list"
           (sep1
             (alias (Sym "single_variable_declaration") "assignment_variable")
             (Str ","));
          Str ")" ]);

    ("lambda_parameters",
      sep1 (Sym "_lambda_parameter") (Str ","));

    ("_lambda_parameter",
      choice
        [ Sym "single_variable_declaration";
          Sym "multi_variable_declaration" ]);

    ("anonymous_function",
      seq
        [ Str "fun";
          optional (seq [sep1 (Sym "_simple_user_type") (Str "."); Str "."]);
          Str "(";
          Str ")";
          optional (Sym "function_body") ]);

    ("_function_literal",
      choice [Sym "lambda_literal"; Sym "anonymous_function"]);

    ("object_literal",
      seq
        [ Str "object";
          optional (seq [Str ":"; Sym "delegation_specifiers_"]);
          Sym "class_body" ]);

    ("this_expression",
      Str "this");

    ("super_expression",
      seq [Str "super"]);

    ("if",
      seq
        [ Sym "if_clause";
          optional_with_placeholder "else_if_clause_list"
           (repeat (Sym "else_if_clause"));
          optional_with_placeholder "else_clause_optional" (Sym "else_clause") ]);

    ("if_clause",
      seq
        [ Str "if";
          Str "(";
          field "condition" (Sym "expression_");
          Str ")";
          choice [Sym "control_structure_body"; Str ";"] ]);

    ("else_if_clause",
      prec_dynamic 1%Z
        (seq
          [ Str "else";
            Str "if";
            Str "(";
            field "condition" (Sym "expression_");
            Str ")";
            choice [Sym "control_structure_body"; Str ";"] ]));

    ("else_clause",
      seq [Str "else"; choice [Sym "control_structure_body"; Str ";"]]);

    ("when_subject",
      seq
        [ Str "(";
          optional
           (seq
             [ repeat (Sym "annotation");
               Str "val";
               Sym "single_variable_declaration";
               Str "=" ]);
          Sym "expression_";
          Str ")" ]);

    ("when_expression",
      seq
        [ Str "when";
          optional (Sym "when_subject");
          Str "{";
          repeat (Sym "when_entry");
          Str "}" ]);

    ("when_entry",
      seq
        [ choice
           [ seq
              [ Sym "when_condition";
                repeat (seq [Str ","; Sym "when_condition"]) ];
             Str "else" ];
          Str "->";
          Sym "control_structure_body";
          optional (Sym "_semi") ]);

    ("when_condition",
      choice [Sym "expression_"; Sym "range_test"; Sym "type_test"]);

    ("range_test",
      seq [Sym "_in_operator"; Sym "expression_"]);

    ("type_test",
      seq [Sym "_is_operator"; Sym "_type"]);

    ("try",
      seq
        [ Sym "try_clause";
          optional_with_placeholder "catch_list" (repeat1 (Sym "catch"));
          optional_with_placeholder "finally_clause_optional"
           (Sym "finally_clause") ]);

    ("try_clause",
      seq [Str "try"; Sym "enclosed_body"]);

    ("catch",
      seq
        [ Str "catch";
          Str "(";
          repeat (Sym "annotation");
          Sym "simple_identifier";
          Str ":";
          Sym "_type";
          Str ")";
          Sym "enclosed_body" ]);

    ("finally_clause",
      seq [Str "finally"; Sym "enclosed_body"]);

    ("jump_expression",
      choice
        [ prec_right PREC.RETURN_OR_THROW (Sym "throw");
          prec_right PREC.RETURN_OR_THROW (Sym "return");
          Str "continue";
          Sym "_continue_at";
          Str "break";
          Sym "_break_at" ]);

    ("throw",
      seq [Str "throw"; Sym "expression_"]);

    ("return",
      seq
        [ choice [Str "return"; Sym "_return_at"];
          optional_with_placeholder "return_value_optional"
           (alias (Sym "expression_") "return_value") ]);

    ("callable_reference",
      seq
        [ optional (alias (Sym "simple_identifier") "type_identifier");
          Str "::";
          choice [Sym "simple_identifier"; Str "class"] ]);

    ("_assignment_and_operator",
      choice [Str "+="; Str "-="; Str "*="; Str "/="; Str "%="]);

    ("_equality_operator",
      choice [Str "!="; Str "!=="; Str "=="; Str "==="]);

    ("_comparison_operator",
      choice [Str "<"; Str ">"; Str "<="; Str ">="]);

    ("_in_operator",
      choice [Str "in"; Str "!in"]);

    ("_is_operator",
      choice [Str "is"; Sym "_not_is"]);

    ("_additive_operator",
      choice [Str "+"; Str "-"]);

    ("_multiplicative_operator",
      choice [Str "*"; Str "/"; Str "%"]);

    ("_as_operator",
      choice [Str "as"; Str "as?"]);

    ("_prefix_unary_operator",
      choice [Str "++"; Str "--"; Str "-"; Str "+"; Str "!"]);

    ("_postfix_unary_operator",
      choice [Str "++"; Str "--"; Str "!!"]);

    ("_member_access_operator",
      choice [Str "."; Sym "_safe_nav"; Str "::"]);

    ("_safe_nav",
      Str "?.");

    ("_indexing_suffix",
      seq
        [ Str "[";
          Sym "expression_";
          repeat (seq [Str ","; Sym "expression_"]);
          optional (Str ",");
          Str "]" ]);

    ("postfix_unary_suffix_",
      choice
        [ Sym "_postfix_unary_operator";
          Sym "navigation_suffix";
          Sym "indexing_suffix" ]);

    ("_postfix_unary_expression",
      seq [Sym "primary_expression_"; repeat (Sym "postfix_unary_suffix_")]);

    ("directly_assignable_expression",
      prec PREC.ASSIGNMENT
        (field "assignment_variable"
          (choice [Sym "_postfix_unary_expression"; Sym "simple_identifier"])));

    ("modifiers",
      prec_left0 (repeat1 (choice [Sym "annotation"; Sym "_modifier"])));

    ("parameter_modifiers",
      repeat1 (choice [Sym "annotation"; Sym "parameter_modifier"]));

    ("_modifier",
      choice
        [ Sym "class_modifier";
          Sym "member_modifier";
          Sym "visibility_modifier";
          Sym "function_modifier";
          Sym "property_modifier";
          Sym "inheritance_modifier";
          Sym "parameter_modifier";
          Sym "platform_modifier" ]);

    ("type_modifiers",
      repeat1 (Sym "_type_modifier"));

    ("_type_modifier",
      choice [Sym "annotation"; Str "suspend"]);

    ("class_modifier",
      choice [Str "sealed"; Str "annotation"; Str "data"; Str "inner"]);

    ("member_modifier",
      choice [Str "override"; Str "lateinit"]);

    ("visibility_modifier",
      choice [Str "public"; Str "private"; Str "internal"; Str "protected"]);

    ("variance_modifier",
      choice [Str "in"; Str "out"]);

    ("type_parameter_modifiers",
      repeat1 (Sym "_type_parameter_modifier"));

    ("_type_parameter_modifier",
      choice
        [ Sym "reification_modifier";
          Sym "variance_modifier";
          Sym "annotation" ]);

    ("function_modifier",
      choice
        [ Str "tailrec";
          Str "operator";
          Str "infix";
          Str "inline";
          Str "external";
          Str "suspend" ]);

    ("property_modifier",
      Str "const");

    ("inheritance_modifier",
      choice [Str "abstract"; Str "final"; Str "open"]);

    ("parameter_modifier",
      choice [Str "vararg"; Str "noinline"; Str "crossinline"]);

    ("reification_modifier",
      Str "reified");

    ("platform_modifier",
      choice [Str "expect"; Str "actual"]);

    ("annotation",
      choice [Sym "_single_annotation"; Sym "_multi_annotation"]);

    ("_single_annotation",
      seq
        [ Str "@";
          optional (Sym "use_site_target");
          Sym "_unescaped_annotation" ]);

    ("_multi_annotation",
      seq
        [ Str "@";
          optional (Sym "use_site_target");
          Str "[";
          repeat1 (Sym "_unescaped_annotation");
          Str "]" ]);

    ("use_site_target",
      seq
        [ choice
           [ Str "field";
             Str "property";
             Str "get";
             Str "set";
             Str "receiver";
             Str "param";
             Str "setparam";
             Str "delegate" ];
          Str ":" ]);

    ("_unescaped_annotation",
      choice [Sym "constructor_invocation"; Sym "user_type"]);

    ("simple_identifier",
      choice
        [ Sym "lexical_identifier_";
          Str "expect";
          Str "data";
          Str "inner";
          Str "actual";
          Str "set";
          Str "get" ]);

    ("identifier",
      sep1 (Sym "simple_identifier") (Str "."));

    ("comment",
      token
        (prec PREC.COMMENT
          (choice
            [ seq [Str "//"; Pat (Star any_char)];
              seq
               [ Str "/*";
                 Pat (Cat (Star (ncls [("*","*")]%char)) (Cat (Plus (Chr "*")) (Star (Cat (ncls [("/","/"); ("*","*")]%char) (Cat (Star (ncls [("*","*")]%char)) (Plus (Chr "*")))))));
                 Str "/" ] ])));

    ("_return_at",
      seq [Str "return@"; Sym "lexical_identifier_"]);

    ("_continue_at",
      seq [Str "continue@"; Sym "lexical_identifier_"]);

    ("_break_at",
      seq [Str "break@"; Sym "lexical_identifier_"]);

    ("_this_at",
      seq [Str "this@"; Sym "lexical_identifier_"]);

    ("_super_at",
      seq [Str "super@"; Sym "lexical_identifier_"]);

    ("_not_is",
      Str "!is");

    ("_not_in",
      Str "!in");

    ("real_literal",
      token
        (choice
          [ seq
             [ choice
                [ seq [DEC_DIGITS; REAL_EXPONENT];
                  seq
                   [ optional DEC_DIGITS;
                     Str ".";
                     DEC_DIGITS;
                     optional REAL_EXPONENT ] ];
               optional (Pat (cls [("f","f"); ("F","F")]%char)) ];
            seq [DEC_DIGITS; Pat (cls [("f","f"); ("F","F")]%char)] ]));

    ("integer_literal",
      token (seq [optional (Pat (cls [("1","9")]%char)); DEC_DIGITS]));

    ("hex_literal",
      token (seq [Str "0"; Pat (cls [("x","x"); ("X","X")]%char); HEX_DIGITS]));

    ("bin_literal",
      token (seq [Str "0"; Pat (cls [("b","b"); ("B","B")]%char); BIN_DIGITS]));

    ("unsigned_literal",
      seq
        [ choice [Sym "integer_literal"; Sym "hex_literal"; Sym "bin_literal"];
          Pat (cls [("u","u"); ("U","U")]%char);
          optional (Str "L") ]);

    ("long_literal",
      seq
        [ choice [Sym "integer_literal"; Sym "hex_literal"; Sym "bin_literal"];
          Str "L" ]);

    ("boolean_literal",
      choice [Str "true"; Str "false"]);

    ("character_literal",
      seq
        [ Str "'";
          choice
           [ Sym "escape_seq_";
             Pat (ncls [(LF,LF); (CR,CR); ("'","'"); (BSL,BSL)]%char) ];
          Str "'" ]);

    ("lexical_identifier_",
      choice [Sym "_alpha_identifier"; Sym "_backtick_identifier"]);

    ("_alpha_identifier",
      Pat (Cat (cls [("a","z"); ("A","Z"); ("_","_")]%char) (Star (cls [("a","z"); ("A","Z"); ("_","_"); ("0","9")]%char))));

    ("_backtick_identifier",
      Pat (Cat (Chr "`") (Cat (Plus (ncls [(CR,CR); (LF,LF); ("`","`")]%char)) (Chr "`"))));

    ("_uni_character_literal",
      seq
        [ Str "\u";
          Pat (Times 4 (cls [("0","9"); ("a","f"); ("A","F")]%char)) ]);

    ("_escaped_identifier",
      Pat (Cat (Chr BSL) (cls [("t","t"); ("b","b"); ("r","r"); ("n","n"); ("'","'"); (DQ,DQ); (BSL,BSL); ("$","$")]%char)));

    ("escape_seq_",
      choice [Sym "_uni_character_literal"; Sym "_escaped_identifier"]);

    ("_line_str_text",
      Pat (Plus (ncls [(BSL,BSL); (DQ,DQ); ("$","$")]%char)));

    ("_line_str_escaped_char",
      choice [Sym "_escaped_identifier"; Sym "_uni_character_literal"]);

    ("_multi_line_str_text",
      Pat (Plus (ncls [(DQ,DQ); ("$","$")]%char))) ].

(** [externals], [extras] and [word] of the grammar. *)
Definition externals : list string := ["_automatic_semicolon"].

Definition extras : list rule :=
  [ Sym "comment";
    Pat (Plus whitespace_class) ].

Definition word : rule := Sym "_alpha_identifier".

(* ================================================================== *)
(** * Reading the grammar: trees and derivations                       *)
(* ================================================================== *)

Fixpoint assoc_find (n : string) (l : list (string * rule)) : option rule :=
  match l with
  | [] => None
  | (k, r) :: rest => if String.eqb n k then Some r else assoc_find n rest
  end.

(** [$.name]: the rule stored under [name]. *)
Definition rule_of (n : string) : option rule := assoc_find n rules.

Definition is_external (n : string) : bool := existsb (String.eqb n) externals.

(** The regular language of a terminal: what stands under [token(...)],
    a string or a pattern.  Symbols cannot occur inside a token. *)
Fixpoint term_re (r : rule) : re :=
  match r with
  | Blank => Eps
  | Str s => Lit s
  | Pat p => p
  | Sym _ => Void
  | Seq rs => fold_right (fun x acc => Cat (term_re x) acc) Eps rs
  | Choice rs => fold_right (fun x acc => Alt (term_re x) acc) Void rs
  | Repeat x => Star (term_re x)
  | Repeat1 x => Plus (term_re x)
  | Prec _ x | PrecLeft _ x | PrecRight _ x | PrecDynamic _ x => term_re x
  | Token x => term_re x
  | Field _ x => term_re x
  | Alias x _ => term_re x
  end.

(** Concrete syntax trees.  A leaf records the terminal that matched and
    the text it covers; a symbol yields a node of its name; [field] and
    [alias] wrap what their content yields. *)
Inductive tree : Type :=
| Leaf (term : rule) (text : string)
| Node (kind : string) (children : list tree)
| FieldT (name : string) (children : list tree)
| AliasT (name : string) (children : list tree).

Fixpoint leaves (t : tree) : list (rule * string) :=
  match t with
  | Leaf term text => [(term, text)]
  | Node _ ts | FieldT _ ts | AliasT _ ts => flat_map leaves ts
  end.

Definition forest_leaves (ts : list tree) : list (rule * string) :=
  flat_map leaves ts.

Definition leaf_texts (ts : list tree) : list string :=
  map snd (forest_leaves ts).

(** [derive r ts]: the rule [r] yields the sequence of trees [ts].  The
    external token is produced by the scanner, which is not part of the
    grammar: its leaf may cover any text. *)
Inductive derive : rule -> list tree -> Prop :=
| d_blank : derive Blank []
| d_str s : derive (Str s) [Leaf (Str s) s]
| d_pat p w : re_match p w = true -> derive (Pat p) [Leaf (Pat p) w]
| d_token r w : re_match (term_re r) w = true -> derive (Token r) [Leaf (Token r) w]
| d_sym n r ts : rule_of n = Some r -> derive r ts -> derive (Sym n) [Node n ts]
| d_ext n w : is_external n = true -> derive (Sym n) [Leaf (Sym n) w]
| d_seq rs ts : derive_seq rs ts -> derive (Seq rs) ts
| d_choice rs ts : derive_alt rs ts -> derive (Choice rs) ts
| d_repeat r ts : derive_rep r ts -> derive (Repeat r) ts
| d_repeat1 r ts us : derive r ts -> derive_rep r us -> derive (Repeat1 r) (ts ++ us)
| d_prec p r ts : derive r ts -> derive (Prec p r) ts
| d_prec_left p r ts : derive r ts -> derive (PrecLeft p r) ts
| d_prec_right p r ts : derive r ts -> derive (PrecRight p r) ts
| d_prec_dynamic p r ts : derive r ts -> derive (PrecDynamic p r) ts
| d_field f r ts : derive r ts -> derive (Field f r) [FieldT f ts]
| d_alias r n ts : derive r ts -> derive (Alias r n) [AliasT n ts]
with derive_seq : list rule -> list tree -> Prop :=
| ds_nil : derive_seq [] []
| ds_cons r rs ts us : derive r ts -> derive_seq rs us -> derive_seq (r :: rs) (ts ++ us)
with derive_alt : list rule -> list tree -> Prop :=
| da_here r rs ts : derive r ts -> derive_alt (r :: rs) ts
| da_next r rs ts : derive_alt rs ts -> derive_alt (r :: rs) ts
with derive_rep : rule -> list tree -> Prop :=
| dr_nil r : derive_rep r []
| dr_cons r ts us : derive r ts -> derive_rep r us -> derive_rep r (ts ++ us).

Scheme derive_ind' := Minimality for derive Sort Prop
  with derive_seq_ind' := Minimality for derive_seq Sort Prop
  with derive_alt_ind' := Minimality for derive_alt Sort Prop
  with derive_rep_ind' := Minimality for derive_rep Sort Prop.
Combined Scheme derive_mutind from derive_ind', derive_seq_ind', derive_alt_ind', derive_rep_ind'.

(* ================================================================== *)
(** * From source text to tokens: extras and longest match             *)
(* ================================================================== *)

(** A lexed source is a sequence of items: the tokens the grammar
    consumes, and the extras skipped between them. *)
Inductive item : Type :=
| ITok (term : rule) (text : string)
| IExtra (extra : rule) (text : string).

Definition item_text (i : item) : string :=
  match i with ITok _ w | IExtra _ w => w end.

Fixpoint source_of (items : list item) : string :=
  match items with
  | [] => ""
  | i :: rest => item_text i ++ source_of rest
  end.

Fixpoint tokens_of (items : list item) : list (rule * string) :=
  match items with
  | [] => []
  | ITok term w :: rest => (term, w) :: tokens_of rest
  | IExtra _ _ :: rest => tokens_of rest
  end.

(** The regular expression a terminal is lexed with.  [word] makes every
    keyword that looks like an identifier lex as a whole word; the
    external token has no pattern in the grammar. *)
Definition lex_re (term : rule) : option re :=
  match term with
  | Str s =>
      match word with
      | Sym wn =>
          match rule_of wn with
          | Some wr => if re_match (term_re wr) s then Some (term_re wr) else Some (Lit s)
          | None => Some (Lit s)
          end
      | _ => Some (Lit s)
      end
  | Pat p => Some p
  | Token r => Some (term_re r)
  | Sym n => if is_external n then None else option_map term_re (rule_of n)
  | _ => None
  end.

Definition option_nat_eqb (a : option nat) (b : nat) : bool :=
  match a with
  | Some x => Nat.eqb x b
  | None => false
  end.

(** Longest match: the item's text is the longest prefix of the remaining
    source that its terminal matches. *)
Definition munch_ok (term : rule) (w rest : string) : bool :=
  match lex_re term with
  | Some p => option_nat_eqb (longest p (w ++ rest)) (String.length w)
  | None => true
  end.

(** An extra is one of the entries of [extras]; it must itself be lexed
    by longest match, which makes its text match its pattern.  [tail] is
    the source that follows the items. *)
Fixpoint items_ok_in (tail : string) (items : list item) : Prop :=
  match items with
  | [] => True
  | ITok term w :: rest =>
      munch_ok term w (source_of rest ++ tail) = true /\ items_ok_in tail rest
  | IExtra e w :: rest =>
      In e extras /\ munch_ok e w (source_of rest ++ tail) = true /\ items_ok_in tail rest
  end.

Definition items_ok (items : list item) : Prop := items_ok_in "" items.

(** [parses start src ts items]: the source [src] lexes into [items], whose
    tokens are, in order, the leaves of the trees [ts] that [start] yields. *)
Definition parses (start : rule) (src : string) (ts : list tree) (items : list item) : Prop :=
  derive start ts /\
  tokens_of items = forest_leaves ts /\
  source_of items = src /\
  items_ok items.


Definition concat_texts (l : list string) : string :=
  fold_right String.append "" l.


(* ================================================================== *)
(** * Which rules can yield which tokens                               *)
(* ================================================================== *)

Definition mem (x : string) (l : list string) : bool := existsb (String.eqb x) l.

Definition is_nil {X : Type} (l : list X) : bool :=
  match l with [] => true | _ => false end.

(** [can T A r]: [r] may yield a sequence of trees all of whose leaf texts
    are in [A], when the symbols that may do so are those of [T].  With
    [A] empty this is nullability. *)
Fixpoint can (T A : list string) (r : rule) : bool :=
  match r with
  | Blank => true
  | Str s => mem s A
  | Pat p => existsb (re_match p) A
  | Token x => existsb (re_match (term_re x)) A
  | Sym n => (is_external n && negb (is_nil A)) || mem n T
  | Seq rs => forallb (can T A) rs
  | Choice rs => existsb (can T A) rs
  | Repeat _ => true
  | Repeat1 x => can T A x
  | Prec _ x | PrecLeft _ x | PrecRight _ x | PrecDynamic _ x => can T A x
  | Field _ x => can T A x
  | Alias x _ => can T A x
  end.

(** In a sequence the first leaf comes from the first member that yields
    one, the last leaf from the last such member: [f] tests a member for
    the leaf, [g] tests whether it may yield none. *)
Section Edges.
Variables f g : rule -> bool.

Fixpoint first_seq (l : list rule) : bool :=
  match l with
  | [] => false
  | y :: l' => f y || (g y && first_seq l')
  end.

Fixpoint last_seq (l : list rule) : bool :=
  match l with
  | [] => false
  | y :: l' => last_seq l' || (forallb g l' && f y)
  end.
End Edges.

(** [can_first nul T x r]: [r] may yield trees whose first leaf has text
    [x]; [nul] lists the symbols that may yield no leaf at all. *)
Fixpoint can_first (nul T : list string) (x : string) (r : rule) : bool :=
  match r with
  | Blank => false
  | Str s => String.eqb x s
  | Pat p => re_match p x
  | Token y => re_match (term_re y) x
  | Sym n => is_external n || mem n T
  | Seq rs => first_seq (can_first nul T x) (can nul []) rs
  | Choice rs => existsb (can_first nul T x) rs
  | Repeat y | Repeat1 y => can_first nul T x y
  | Prec _ y | PrecLeft _ y | PrecRight _ y | PrecDynamic _ y => can_first nul T x y
  | Field _ y => can_first nul T x y
  | Alias y _ => can_first nul T x y
  end.

(** The same for the last leaf. *)
Fixpoint can_last (nul T : list string) (x : string) (r : rule) : bool :=
  match r with
  | Blank => false
  | Str s => String.eqb x s
  | Pat p => re_match p x
  | Token y => re_match (term_re y) x
  | Sym n => is_external n || mem n T
  | Seq rs => last_seq (can_last nul T x) (can nul []) rs
  | Choice rs => existsb (can_last nul T x) rs
  | Repeat y | Repeat1 y => can_last nul T x y
  | Prec _ y | PrecLeft _ y | PrecRight _ y | PrecDynamic _ y => can_last nul T x y
  | Field _ y => can_last nul T x y
  | Alias y _ => can_last nul T x y
  end.

(** A set of symbols is closed for an analysis when it contains every
    symbol whose rule passes it. *)
Definition closed_for (f : list string -> rule -> bool) (T : list string) : bool :=
  forallb (fun nr => implb (f T (snd nr)) (mem (fst nr) T)) rules.

(** The least closed set, by iteration from the empty set. *)
Definition grow (f : list string -> rule -> bool) (T : list string) : list string :=
  map fst (filter (fun nr => f T (snd nr)) rules).

Fixpoint iterate (n : nat) (f : list string -> rule -> bool) (T : list string) : list string :=
  match n with
  | 0 => T
  | S k => iterate k f (grow f T)
  end.

(** The tables the search below prunes with, for an alphabet [alpha]. *)
Record tables : Type := {
  t_alpha : list string;
  t_nul : list string;
  t_prod : list string;
  t_first : list (string * list string);
  t_last : list (string * list string)
}.

Fixpoint table_find (x : string) (l : list (string * list string)) : list string :=
  match l with
  | [] => []
  | (k, v) :: rest => if String.eqb x k then v else table_find x rest
  end.

Definition build_tables (rounds : nat) (alpha : list string) : tables :=
  let nul := iterate rounds (fun T => can T []) [] in
  {| t_alpha := alpha;
     t_nul := nul;
     t_prod := iterate rounds (fun T => can T alpha) [];
     t_first := map (fun x => (x, iterate rounds (fun T => can_first nul T x) [])) alpha;
     t_last := map (fun x => (x, iterate rounds (fun T => can_last nul T x) [])) alpha |}.

Definition tables_ok (tb : tables) : bool :=
  closed_for (fun T => can T []) (t_nul tb)
  && closed_for (fun T => can T (t_alpha tb)) (t_prod tb)
  && forallb (fun x => closed_for (fun T => can_first (t_nul tb) T x) (table_find x (t_first tb)))
       (t_alpha tb)
  && forallb (fun x => closed_for (fun T => can_last (t_nul tb) T x) (table_find x (t_last tb)))
       (t_alpha tb).

(* ================================================================== *)
(** * Enumerating the derivations of a token sequence                  *)
(* ================================================================== *)

Definition forest : Type := list tree.

Fixpoint splits (w : list string) : list (list string * list string) :=
  match w with
  | [] => [([], [])]
  | x :: rest => ([], w) :: map (fun p => (x :: fst p, snd p)) (splits rest)
  end.

Definition product (hs ts : list forest) : list forest :=
  flat_map (fun h => map (fun t => h ++ t) ts) hs.

(** Results are optional: [None] means the search gave up (fuel, or a
    repetition of something that can be empty). *)
Definition opt_app (a b : option (list forest)) : option (list forest) :=
  match a, b with
  | Some x, Some y => Some (x ++ y)
  | _, _ => None
  end.

Section Enum.
Variable tb : tables.

(** A cheap necessary condition for [r] to yield exactly the tokens [w]. *)
Definition quick (r : rule) (w : list string) : bool :=
  match w with
  | [] => can (t_nul tb) [] r
  | x :: _ =>
      can (t_prod tb) (t_alpha tb) r
      && can_first (t_nul tb) (table_find x (t_first tb)) x r
      && can_last (t_nul tb) (table_find (last w x) (t_last tb)) (last w x) r
  end.

Definition one_leaf (r : rule) (ok : string -> bool) (w : list string) : list forest :=
  match w with
  | [x] => if ok x then [[Leaf r x]] else []
  | _ => []
  end.

Section WithRec.
Variable self : rule -> list string -> option (list forest).

Definition try_split (r : rule) (tail : list string -> option (list forest))
    (p : list string * list string) : option (list forest) :=
  if negb (quick r (fst p)) then Some [] else
  match tail (snd p) with
  | None => None
  | Some [] => Some []
  | Some tl =>
      match self r (fst p) with
      | None => None
      | Some hd => Some (product hd tl)
      end
  end.

Fixpoint enum_seq (rs : list rule) (w : list string) : option (list forest) :=
  match rs with
  | [] => Some (match w with [] => [[]] | _ => [] end)
  | r :: rs' =>
      fold_right (fun p acc => opt_app (try_split r (enum_seq rs') p) acc)
        (Some []) (splits w)
  end.

Fixpoint enum_alt (rs : list rule) (w : list string) : option (list forest) :=
  match rs with
  | [] => Some []
  | r :: rs' => opt_app (self r w) (enum_alt rs' w)
  end.

(** Repetition of a rule that cannot be empty: every round takes at
    least one token, so [n] rounds suffice for [n] tokens. *)
Fixpoint enum_rep (n : nat) (r : rule) (w : list string) : option (list forest) :=
  match w with
  | [] => Some [[]]
  | _ :: _ =>
      match n with
      | 0 => None
      | S k =>
          fold_right (fun p acc => opt_app (try_split r (enum_rep k r) p) acc)
            (Some []) (filter (fun p => negb (is_nil (fst p))) (splits w))
      end
  end.
End WithRec.

(** One step of the search, given the search for the parts. *)
Definition enum_body (self : rule -> list string -> option (list forest))
    (r : rule) (w : list string) : option (list forest) :=
  match r with
  | Blank => Some (match w with [] => [[]] | _ => [] end)
  | Str s => Some (one_leaf r (String.eqb s) w)
  | Pat p => Some (one_leaf r (re_match p) w)
  | Token x => Some (one_leaf r (re_match (term_re x)) w)
  | Sym n =>
      opt_app
        (Some (if is_external n then one_leaf r (fun _ => true) w else []))
        (match rule_of n with
         | None => Some []
         | Some body => option_map (map (fun ts => [Node n ts])) (self body w)
         end)
  | Seq rs => enum_seq self rs w
  | Choice rs => enum_alt self rs w
  | Repeat x =>
      if can (t_nul tb) [] x then None
      else enum_rep self (List.length w) x w
  | Repeat1 x =>
      if can (t_nul tb) [] x then None
      else match w with
           | [] => Some []
           | _ :: _ => enum_rep self (List.length w) x w
           end
  | Prec _ x | PrecLeft _ x | PrecRight _ x | PrecDynamic _ x => self x w
  | Field f x => option_map (map (fun ts => [FieldT f ts])) (self x w)
  | Alias x n => option_map (map (fun ts => [AliasT n ts])) (self x w)
  end.

Fixpoint enum (fuel : nat) (r : rule) (w : list string) : option (list forest) :=
  match fuel with
  | 0 => None
  | S k => if negb (quick r w) then Some [] else enum_body (enum k) r w
  end.
End Enum.

(* ================================================================== *)
(** * Precedence and associativity                                     *)
(* ================================================================== *)

Inductive assoc : Type := AssocNone | AssocLeft | AssocRight.

(** The precedence a rule declares for itself: its outermost [prec]. *)
Definition rule_prec (r : rule) : option (assoc * Z) :=
  match r with
  | Prec p _ => Some (AssocNone, p)
  | PrecLeft p _ => Some (AssocLeft, p)
  | PrecRight p _ => Some (AssocRight, p)
  | _ => None
  end.

Definition node_prec (n : string) : option (assoc * Z) :=
  match rule_of n with
  | Some r => rule_prec r
  | None => None
  end.

(** The production an operand stands for: the first node with a declared
    precedence below a chain of single-child nodes. *)
Fixpoint production (t : tree) : option (assoc * Z * list tree) :=
  match t with
  | Node n ts =>
      match node_prec n with
      | Some ap => Some (ap, ts)
      | None =>
          match ts with
          | [c] => production c
          | _ => None
          end
      end
  | _ => None
  end.

Definition is_operand (t : tree) : bool :=
  match t with
  | Node n _ => String.eqb n "expression_"
  | _ => false
  end.

(** The operand at the left and at the right edge of a production with at
    least two children. *)
Definition first_operand (ts : list tree) : option tree :=
  match ts with
  | t :: _ :: _ => if is_operand t then Some t else None
  | _ => None
  end.

Definition last_operand (ts : list tree) : option tree :=
  first_operand (rev ts).

Definition is_some {X : Type} (o : option X) : bool :=
  match o with Some _ => true | None => false end.

(** How the parser generator settles a shift/reduce conflict between two
    productions: the higher level wins; at equal levels a left-associative
    production is reduced first and a right-associative one is extended.
    A tree nested against that choice is never built.

    [left_ok]: the operand at the left edge was reduced before the
    operator of the enclosing production (level [p]) was read.
    [right_ok]: the operand at the right edge was started while the
    enclosing production (associativity [a], level [p]) could have been
    reduced. *)
Definition left_ok (p : Z) (ts : list tree) : bool :=
  match first_operand ts with
  | Some t =>
      match production t with
      | Some (a1, q, cs) =>
          if is_some (last_operand cs)
          then (p <? q)%Z || ((p =? q)%Z && negb (match a1 with AssocRight => true | _ => false end))
          else true
      | None => true
      end
  | None => true
  end.

Definition right_ok (a : assoc) (p : Z) (ts : list tree) : bool :=
  match last_operand ts with
  | Some t =>
      match production t with
      | Some (_, q, cs) =>
          if is_some (first_operand cs)
          then (p <? q)%Z || ((p =? q)%Z && negb (match a with AssocLeft => true | _ => false end))
          else true
      | None => true
      end
  | None => true
  end.

Fixpoint conforms (t : tree) : bool :=
  match t with
  | Leaf _ _ => true
  | Node n ts =>
      match node_prec n with
      | Some (a, p) => left_ok p ts && right_ok a p ts
      | None => true
      end && forallb conforms ts
  | FieldT _ ts | AliasT _ ts => forallb conforms ts
  end.

(** Whether a node of a given kind occurs in a tree. *)
Fixpoint has_node (k : string) (t : tree) : bool :=
  match t with
  | Leaf _ _ => false
  | Node n ts => String.eqb n k || existsb (has_node k) ts
  | FieldT _ ts | AliasT _ ts => existsb (has_node k) ts
  end.

Definition is_field (f : string) (t : tree) : bool :=
  match t with
  | FieldT g _ => String.eqb g f
  | _ => false
  end.

Definition is_node (k : string) (t : tree) : bool :=
  match t with
  | Node n _ => String.eqb n k
  | _ => false
  end.

Definition is_alias (k : string) (t : tree) : bool :=
  match t with
  | AliasT n _ => String.eqb n k
  | _ => false
  end.

Definition is_leaf (t : tree) : bool :=
  match t with
  | Leaf _ _ => true
  | _ => false
  end.

(** Whether a field occurs anywhere in a tree. *)
Fixpoint has_any_field (t : tree) : bool :=
  match t with
  | Leaf _ _ => false
  | FieldT _ _ => true
  | Node _ ts | AliasT _ ts => existsb has_any_field ts
  end.

(** [always_field f r]: every way through [r] passes a [field(f, ...)]. *)
Fixpoint always_field (f : string) (r : rule) : bool :=
  match r with
  | Field g _ => String.eqb g f
  | Seq rs => existsb (always_field f) rs
  | Choice rs => negb (is_nil rs) && forallb (always_field f) rs
  | Repeat1 x => always_field f x
  | Prec _ x | PrecLeft _ x | PrecRight _ x | PrecDynamic _ x => always_field f x
  | _ => false
  end.

(* ================================================================== *)
(** * Named parts of the grammar used in the statements below          *)
(* ================================================================== *)

(** The regular language of a token rule, by name. *)
Definition token_re (n : string) : re :=
  match rule_of n with
  | Some r => term_re r
  | None => Void
  end.

(** The distinct levels of the precedence table. *)
Definition precedence_levels : list Z := nodup Z.eq_dec (map snd PREC.entries).

Definition level_of (k : string) : option Z :=
  option_map snd (find (fun e => String.eqb (fst e) k) PREC.entries).

(** The groups of the table, tightest first, as the levels list them. *)
Definition precedence_groups : list (list string) :=
  [ ["POSTFIX"]; ["PREFIX"]; ["TYPE_RHS"]; ["AS"]; ["MULTIPLICATIVE"];
    ["ADDITIVE"]; ["RANGE"]; ["INFIX"]; ["ELVIS"]; ["CHECK"]; ["COMPARISON"];
    ["EQUALITY"]; ["CONJUNCTION"]; ["DISJUNCTION"];
    ["SPREAD"; "SIMPLE_USER_TYPE"];
    ["VAR_DECL"; "ASSIGNMENT"; "BLOCK"];
    ["LAMBDA_LITERAL"; "RETURN_OR_THROW"; "COMMENT"] ].

(** A group sits at one level, and the groups go down one level at a
    time from [top]. *)
Fixpoint groups_descend (top : Z) (gs : list (list string)) : bool :=
  match gs with
  | [] => true
  | g :: rest =>
      forallb (fun k => match level_of k with
                        | Some v => (v =? top)%Z
                        | None => false
                        end) g
      && groups_descend (top - 1) rest
  end.

(** Building blocks of the trees named in the statements. *)
Definition rule_or_blank (n : string) : rule :=
  match rule_of n with
  | Some r => r
  | None => Blank
  end.

Definition tok (s : string) : tree := Leaf (Str s) s.

(** A leaf of a token rule, under the node of that rule. *)
Definition token_node (n w : string) : tree := Node n [Leaf (rule_or_blank n) w].

(** An identifier read by the identifier pattern. *)
Definition ident (s : string) : tree :=
  Node "simple_identifier" [Node "lexical_identifier_" [token_node "_alpha_identifier" s]].


Definition primary (t : tree) : tree :=
  Node "expression_" [Node "primary_expression_" [t]].

Definition literal (t : tree) : tree := primary (Node "_literal_constant" [t]).

Definition binary (kind : string) (l op r : tree) : tree :=
  Node "expression_" [Node "_binary_expression" [Node kind [l; op; r]]].

Definition unary (kind : string) (children : list tree) : tree :=
  Node "expression_" [Node "_unary_expression" [Node kind children]].

Definition comparison (l : tree) (op : string) (r : tree) : tree :=
  binary "comparison_expression" l (Node "_comparison_operator" [tok op]) r.

(** [foo < b > c] *)
Definition foo_lt_b_gt_c : list string := ["foo"; "<"; "b"; ">"; "c"].

Definition left_chain : tree :=
  comparison (comparison (primary (ident "foo")) "<" (primary (ident "b")))
             ">" (primary (ident "c")).

Definition right_chain : tree :=
  comparison (primary (ident "foo")) "<"
             (comparison (primary (ident "b")) ">" (primary (ident "c"))).

(* ================================================================== *)
(** * Deciding equality of rules and trees                             *)
(* ================================================================== *)

Section ListEqb.
Variable X : Type.
Variable eqb : X -> X -> bool.

Fixpoint list_eqb (xs ys : list X) : bool :=
  match xs, ys with
  | [], [] => true
  | x :: xs', y :: ys' => eqb x y && list_eqb xs' ys'
  | _, _ => false
  end.
End ListEqb.
Arguments list_eqb {X} eqb xs ys.

Definition range_eqb (a b : ascii * ascii) : bool :=
  Ascii.eqb (fst a) (fst b) && Ascii.eqb (snd a) (snd b).

Fixpoint re_eqb (a b : re) : bool :=
  match a, b with
  | Void, Void => true
  | Eps, Eps => true
  | Cls n1 r1, Cls n2 r2 => Bool.eqb n1 n2 && list_eqb range_eqb r1 r2
  | Cat a1 a2, Cat b1 b2 => re_eqb a1 b1 && re_eqb a2 b2
  | Alt a1 a2, Alt b1 b2 => re_eqb a1 b1 && re_eqb a2 b2
  | Star a1, Star b1 => re_eqb a1 b1
  | _, _ => false
  end.

Fixpoint rule_eqb (a b : rule) : bool :=
  match a, b with
  | Blank, Blank => true
  | Str s, Str t => String.eqb s t
  | Pat p, Pat q => re_eqb p q
  | Sym n, Sym m => String.eqb n m
  | Seq xs, Seq ys => list_eqb rule_eqb xs ys
  | Choice xs, Choice ys => list_eqb rule_eqb xs ys
  | Repeat x, Repeat y => rule_eqb x y
  | Repeat1 x, Repeat1 y => rule_eqb x y
  | Prec p x, Prec q y => Z.eqb p q && rule_eqb x y
  | PrecLeft p x, PrecLeft q y => Z.eqb p q && rule_eqb x y
  | PrecRight p x, PrecRight q y => Z.eqb p q && rule_eqb x y
  | PrecDynamic p x, PrecDynamic q y => Z.eqb p q && rule_eqb x y
  | Token x, Token y => rule_eqb x y
  | Field f x, Field g y => String.eqb f g && rule_eqb x y
  | Alias x n, Alias y m => rule_eqb x y && String.eqb n m
  | _, _ => false
  end.

Fixpoint tree_eqb (a b : tree) : bool :=
  match a, b with
  | Leaf r w, Leaf s v => rule_eqb r s && String.eqb w v
  | Node n ts, Node m us => String.eqb n m && list_eqb tree_eqb ts us
  | FieldT n ts, FieldT m us => String.eqb n m && list_eqb tree_eqb ts us
  | AliasT n ts, AliasT m us => String.eqb n m && list_eqb tree_eqb ts us
  | _, _ => false
  end.

Definition forest_eqb (a b : list tree) : bool := list_eqb tree_eqb a b.

(** [check_all]: every derivation of [w] from [start] passes the test [P];
    [check_some]: some derivation does.  Both run the search. *)
Definition check_all (rounds fuel : nat) (start : rule) (w : list string)
    (P : list tree -> bool) : bool :=
  let tb := build_tables rounds (nodup string_dec w) in
  tables_ok tb &&
  match enum tb fuel start w with
  | Some l => forallb P l
  | None => false
  end.

Definition check_some (rounds fuel : nat) (start : rule) (w : list string)
    (P : list tree -> bool) : bool :=
  let tb := build_tables rounds (nodup string_dec w) in
  match enum tb fuel start w with
  | Some l => existsb P l
  | None => false
  end.

Definition is_forest (expected : list tree) (ts : list tree) : bool :=
  forest_eqb ts expected.

(** More trees and token sequences named in the statements. *)
Definition foo_lt_b_gt_lambda : list string := ["foo"; "<"; "b"; ">"; "{"; "}"].
Definition foo_lt_star_gt_lambda : list string := ["foo"; "<"; "*"; ">"; "{"; "}"].

Definition has_text (x : string) (ts : list tree) : bool := mem x (leaf_texts ts).

(** A call whose suffix carries type arguments. *)
Definition is_generic_call (t : tree) : bool :=
  match t with
  | Node "call" [_; Node "call_suffix" (Node "type_arguments" _ :: _)] => true
  | _ => false
  end.

Fixpoint has_generic_call (t : tree) : bool :=
  is_generic_call t ||
  match t with
  | Leaf _ _ => false
  | Node _ ts | FieldT _ ts | AliasT _ ts => existsb has_generic_call ts
  end.

(** The binary expression forms with the level each is declared at. *)
Definition binary_rules : list (string * Z) :=
  [ ("multiplicative_expression", PREC.MULTIPLICATIVE);
    ("additive_expression", PREC.ADDITIVE);
    ("range_expression", PREC.RANGE);
    ("infix_expression", PREC.INFIX);
    ("elvis_expression", PREC.ELVIS);
    ("check_expression", PREC.CHECK);
    ("comparison_expression", PREC.COMPARISON);
    ("equality_expression", PREC.EQUALITY);
    ("conjunction_expression", PREC.CONJUNCTION);
    ("disjunction_expression", PREC.DISJUNCTION) ].

(** The alternatives of a rule that is a [choice]. *)
Definition alternatives (n : string) : list rule :=
  match rule_of n with
  | Some (Choice rs) => rs
  | _ => []
  end.

Definition sym_names (rs : list rule) : list string :=
  flat_map (fun r => match r with Sym n => [n] | _ => [] end) rs.

(** [a = b = c], [a - b - c], [- - a] *)
Definition chained_assignment : list string := ["a"; "="; "b"; "="; "c"].
Definition a_minus_b_minus_c : list string := ["a"; "-"; "b"; "-"; "c"].
Definition minus_minus_a : list string := ["-"; "-"; "a"].

Definition additive (l : tree) (op : string) (r : tree) : tree :=
  binary "additive_expression" l (Node "_additive_operator" [tok op]) r.

Definition prefixed (op : string) (e : tree) : tree :=
  unary "prefix_expression" [Node "_prefix_unary_operator" [tok op]; e].

(** The kind of the node directly under an [expression_] node. *)
Definition expression_kind (t : tree) : option string :=
  match t with
  | Node "expression_" [Node k _] => Some k
  | _ => None
  end.

(** Where grammar.js calls [optional_with_placeholder]: the rule and the
    field name. *)
Definition placeholder_sites : list (string * string) :=
  [ ("program", "import_list");
    ("program", "statement_list");
    ("class_declaration", "implements_list_optional");
    ("class_body", "class_member_list");
    ("function_value_parameters_", "parameter_list");
    ("function", "type_optional");
    ("single_variable_declaration", "type_optional");
    ("property_assignment", "assignment_value_list_optional");
    ("enum_class_body", "enum_member_list");
    ("enclosed_body", "statement_list");
    ("value_arguments", "argument_list");
    ("if", "else_if_clause_list");
    ("if", "else_clause_optional");
    ("try", "catch_list");
    ("try", "finally_clause_optional");
    ("return", "return_value_optional") ].

(** An empty lambda literal, and one holding the statement [x]. *)
Definition empty_lambda : tree := Node "lambda_literal" [tok "{"; tok "}"].

Definition lambda_with_statement : tree :=
  Node "lambda_literal"
    [ tok "{";
      Node "statements" [Node "statement_" [FieldT "statement" [primary (ident "x")]]];
      tok "}" ].

Definition has_field (f : string) (ts : list tree) : bool := existsb (is_field f) ts.

Definition children (t : tree) : list tree :=
  match t with
  | Leaf _ _ => []
  | Node _ ts | FieldT _ ts | AliasT _ ts => ts
  end.

(** The enclosed body [{ }]. *)
Definition empty_body : tree :=
  Node "enclosed_body" [tok "{"; FieldT "statement_list" []; tok "}"].

(** Rules that hold an optional list written with plain [optional] or
    [repeat]: the statements of a lambda literal, the parameters of a
    class, the entries of a [when]. *)
Definition plain_list_sites : list string :=
  ["lambda_literal"; "_class_parameters"; "when_expression"].

(** The class parameters [( )] and the expression [when { }]. *)
Definition empty_class_parameters : tree := Node "_class_parameters" [tok "("; tok ")"].

Definition empty_when : tree := Node "when_expression" [tok "when"; tok "{"; tok "}"].

(* ================================================================== *)
(** * Parsing source text top-down                                     *)
(* ================================================================== *)

Fixpoint take (n : nat) (s : string) : string :=
  match n, s with
  | S k, String c rest => String c (take k rest)
  | _, _ => ""
  end.

Fixpoint drop (n : nat) (s : string) : string :=
  match n, s with
  | S k, String c rest => drop k rest
  | _, _ => s
  end.

(** Every way to cut a string in two. *)
Fixpoint cuts (s : string) : list (string * string) :=
  ("", s) ::
  match s with
  | EmptyString => []
  | String c rest => map (fun p => (String c (fst p), snd p)) (cuts rest)
  end.

(** The text a terminal takes at the head of [s], by longest match; the
    external token may take any text. *)
Definition lex_here (term : rule) (s : string) : list (string * string) :=
  match lex_re term with
  | Some p =>
      match longest p s with
      | Some k => [(take k s, drop k s)]
      | None => []
      end
  | None => cuts s
  end.

(** The extras that may be skipped at the head of [s]: what is left after
    each. *)
Definition skip_extra (s : string) : list string :=
  flat_map (fun e =>
      match lex_re e with
      | Some p =>
          match longest p s with
          | Some (S k) => [drop (S k) s]
          | _ => []
          end
      | None => []
      end) extras.

(** The text a terminal takes after any number of extras. *)
Fixpoint lex_options (fuel : nat) (term : rule) (s : string) : list (string * string) :=
  lex_here term s ++
  match fuel with
  | 0 => []
  | S k => flat_map (lex_options k term) (skip_extra s)
  end.

(** [lexes toks s rest]: the terminals [toks], with the texts given, are
    what is read from [s], in order, leaving [rest]. *)
Fixpoint lexes (toks : list (rule * string)) (s rest : string) : Prop :=
  match toks with
  | [] => rest = s
  | (term, w) :: toks' =>
      exists s1, In (w, s1) (lex_options (String.length s) term s) /\ lexes toks' s1 rest
  end.

Definition results : Type := option (list (forest * string)).

Definition res_app (a b : results) : results :=
  match a, b with
  | Some x, Some y => Some (x ++ y)
  | _, _ => None
  end.

Definition res_bind (a : results) (f : forest -> string -> results) : results :=
  match a with
  | None => None
  | Some l => fold_right (fun p acc => res_app (f (fst p) (snd p)) acc) (Some []) l
  end.

Definition res_map (g : forest -> forest) (a : results) : results :=
  option_map (map (fun p => (g (fst p), snd p))) a.

(** The texts a terminal may stand for as a leaf. *)
Definition accepts (term : rule) (w : string) : bool :=
  match term with
  | Str s => String.eqb w s
  | Pat p => re_match p w
  | Token x => re_match (term_re x) w
  | Sym n => is_external n
  | _ => false
  end.

Definition leaf_results (r : rule) (s : string) : list (forest * string) :=
  map (fun p => ([Leaf r (fst p)], snd p))
    (filter (fun p => accepts r (fst p)) (lex_options (String.length s) r s)).

Section Descent.
Variable self : rule -> string -> results.

Fixpoint cparse_seq (rs : list rule) (s : string) : results :=
  match rs with
  | [] => Some [([], s)]
  | r :: rs' =>
      res_bind (self r s) (fun ts s1 => res_map (fun us => ts ++ us) (cparse_seq rs' s1))
  end.

Fixpoint cparse_alt (rs : list rule) (s : string) : results :=
  match rs with
  | [] => Some []
  | r :: rs' => res_app (self r s) (cparse_alt rs' s)
  end.

(** A round of a repetition must take some text; the search gives up on
    a round that takes none. *)
Fixpoint cparse_rep (n : nat) (r : rule) (s : string) : results :=
  match n with
  | 0 => None
  | S k =>
      res_app (Some [([], s)])
        (res_bind (self r s) (fun ts s1 =>
           if String.eqb s1 s then None
           else res_map (fun us => ts ++ us) (cparse_rep k r s1)))
  end.

Definition cparse_body (k : nat) (r : rule) (s : string) : results :=
  match r with
  | Blank => Some [([], s)]
  | Str _ | Pat _ | Token _ => Some (leaf_results r s)
  | Sym n =>
      res_app
        (Some (if is_external n then leaf_results r s else []))
        (match rule_of n with
         | None => Some []
         | Some body => res_map (fun ts => [Node n ts]) (self body s)
         end)
  | Seq rs => cparse_seq rs s
  | Choice rs => cparse_alt rs s
  | Repeat x => cparse_rep k x s
  | Repeat1 x =>
      res_bind (self x s) (fun ts s1 =>
        if String.eqb s1 s then None
        else res_map (fun us => ts ++ us) (cparse_rep k x s1))
  | Prec _ x | PrecLeft _ x | PrecRight _ x | PrecDynamic _ x => self x s
  | Field f x => res_map (fun ts => [FieldT f ts]) (self x s)
  | Alias x n => res_map (fun ts => [AliasT n ts]) (self x s)
  end.
End Descent.

(** Top-down parsing of source text: every way [r] reads a prefix of [s],
    with what is left.  [None]: the search gave up. *)
Fixpoint cparse (fuel : nat) (r : rule) (s : string) : results :=
  match fuel with
  | 0 => None
  | S k => cparse_body (cparse k) k r s
  end.

(** What is left after the last token may only be extras. *)
Fixpoint only_extras (fuel : nat) (s : string) : bool :=
  match s with
  | EmptyString => true
  | _ =>
      match fuel with
      | 0 => false
      | S k => existsb (only_extras k) (skip_extra s)
      end
  end.

(** Every complete parse of [src] from [start] passes [P]. *)
Definition cparse_all (fuel : nat) (start : rule) (src : string)
    (P : list tree -> bool) : bool :=
  match cparse fuel start src with
  | Some l =>
      forallb (fun p => implb (only_extras (String.length (snd p)) (snd p)) (P (fst p))) l
  | None => false
  end.

(* ================================================================== *)
(** * Sources, token sequences and trees of the examples               *)
(* ================================================================== *)

Definition quote : string := String DQ "".
Definition quoted (s : string) : string := quote ++ s ++ quote.

(** The white-space entry of [extras]. *)
Definition ws_extra : rule := Pat (Plus whitespace_class).

(** The items of a source whose tokens are the leaves of [ts], with the
    given white space after each token ([""]: none). *)
Fixpoint spaced (toks : list (rule * string)) (gaps : list string) : list item :=
  match toks with
  | [] => []
  | (term, w) :: rest =>
      ITok term w ::
      match gaps with
      | [] => spaced rest []
      | g :: gs =>
          (if String.eqb g "" then [] else [IExtra ws_extra g]) ++ spaced rest gs
      end
  end.

Definition items_of (ts : list tree) (gaps : list string) : list item :=
  spaced (forest_leaves ts) gaps.

Definition line_string (content : list tree) : tree :=
  Node "line_string_literal" (tok quote :: content ++ [tok quote]).

Definition text_run (s : string) : tree :=
  Node "line_string_content_" [token_node "_line_str_text" s].

Definition dollar_identifier (id : tree) : tree :=
  Node "interpolation_" [tok "$"; AliasT "interpolated_identifier" [id]].

Definition dollar_expression (e : tree) : tree :=
  Node "interpolation_" [tok "${"; AliasT "interpolated_expression" [e]; tok "}"].

Definition string_expression (t : tree) : tree := primary (Node "string_literal" [t]).

(** ["Sample $string.interpolation literal"] *)
Definition sample_src : string := quoted "Sample $string.interpolation literal".

Definition sample_tree : tree :=
  line_string
    [ text_run "Sample ";
      dollar_identifier (ident "string");
      text_run ".interpolation literal" ].

(** ["Sample ${"string.interpolation"} literal"] *)
Definition nested_src : string :=
  quoted ("Sample ${" ++ quoted "string.interpolation" ++ "} literal").

Definition nested_tree : tree :=
  line_string
    [ text_run "Sample ";
      dollar_expression (string_expression (line_string [text_run "string.interpolation"]));
      text_run " literal" ].

(** ["${"${"x"}"}"]: a string in an interpolation in a string in an
    interpolation in a string. *)
Definition nested_twice_src : string :=
  quoted ("${" ++ quoted ("${" ++ quoted "x" ++ "}") ++ "}").

Definition nested_twice_tree : tree :=
  line_string
    [ dollar_expression (string_expression (line_string
        [ dollar_expression (string_expression (line_string [text_run "x"])) ])) ].

(** What a line string literal holds directly: its quotes, text and
    interpolations. *)
Definition string_part (t : tree) : bool :=
  is_leaf t || is_node "line_string_content_" t || is_node "interpolation_" t.

(** How many nodes of an aliased kind a tree holds. *)
Fixpoint count_alias (k : string) (t : tree) : nat :=
  match t with
  | Leaf _ _ => 0
  | Node _ ts | FieldT _ ts => list_sum (map (count_alias k) ts)
  | AliasT n ts => (if String.eqb n k then 1 else 0) + list_sum (map (count_alias k) ts)
  end.

(** The texts covered by the nodes of an aliased kind. *)
Fixpoint alias_texts (k : string) (t : tree) : list (list string) :=
  match t with
  | Leaf _ _ => []
  | Node _ ts | FieldT _ ts => flat_map (alias_texts k) ts
  | AliasT n ts =>
      (if String.eqb n k then [leaf_texts ts] else []) ++ flat_map (alias_texts k) ts
  end.

(** Real literals of the examples. *)
Definition real (s : string) : tree := literal (token_node "real_literal" s).
Definition real_constant (s : string) : tree :=
  Node "_literal_constant" [token_node "real_literal" s].
Definition integer_constant (s : string) : tree :=
  Node "_literal_constant" [token_node "integer_literal" s].

Definition numeric_tokens : list string :=
  ["real_literal"; "integer_literal"; "hex_literal"; "bin_literal"].







(** ["a $ b"], ["a $"], ["a $1"] *)
Definition dollar_space_tree : tree :=
  line_string [text_run "a "; dollar_identifier (ident "b")].

(** Deciding that given items are a lexing of a source, and that a given
    tree with given items is a parse. *)
Definition leaves_eqb (a b : list (rule * string)) : bool :=
  list_eqb (fun x y => rule_eqb (fst x) (fst y) && String.eqb (snd x) (snd y)) a b.

Fixpoint items_okb (tail : string) (items : list item) : bool :=
  match items with
  | [] => true
  | ITok term w :: rest =>
      munch_ok term w (source_of rest ++ tail) && items_okb tail rest
  | IExtra e w :: rest =>
      existsb (rule_eqb e) extras
      && munch_ok e w (source_of rest ++ tail) && items_okb tail rest
  end.

Definition parsesb (rounds fuel : nat) (start : rule) (src : string)
    (ts : list tree) (items : list item) : bool :=
  check_some rounds fuel start (leaf_texts ts) (is_forest ts)
  && leaves_eqb (tokens_of items) (forest_leaves ts)
  && String.eqb (source_of items) src
  && items_okb "" items.

Definition triple_quoted (s : string) : string :=
  quote ++ quote ++ quote ++ s ++ quote ++ quote ++ quote.


(* ================================================================== *)
(** * Token languages against scanners                                 *)
(* ================================================================== *)

(** Every byte. *)
Definition all_ascii : list ascii := map ascii_of_nat (List.seq 0 256).

Definition is_void (r : re) : bool :=
  match r with Void => true | _ => false end.

(** A scanner reads a text one character at a time: [step] moves its
    state, [acc] tells whether the text read so far is accepted.  A
    pattern is compared with a scanner by running both side by side:
    [explore] collects the pairs of a derivative of the pattern and a
    state of the scanner that some text leads to. *)
Section Scanner.
Variable St : Type.
Variable step : St -> ascii -> St.
Variable acc : St -> bool.
Variable eqb : St -> St -> bool.

Fixpoint run (s : St) (w : string) : St :=
  match w with
  | EmptyString => s
  | String c rest => run (step s c) rest
  end.

Definition pair_in (R : list (re * St)) (p : re * St) : bool :=
  existsb (fun q => re_eqb (fst q) (fst p) && eqb (snd q) (snd p)) R.

Definition succs (p : re * St) : list (re * St) :=
  map (fun c => (simp (deriv c (fst p)), step (snd p) c)) all_ascii.

Definition add_new (R ps : list (re * St)) : list (re * St) :=
  fold_left (fun R' p => if pair_in R' p then R' else R' ++ [p]) ps R.

(** [explore n todo seen]: the pairs reached from [seen], of which those
    of [todo] are still to be followed. *)
Fixpoint explore (n : nat) (todo seen : list (re * St)) : list (re * St) :=
  match n with
  | 0 => seen
  | S k =>
      match todo with
      | [] => seen
      | p :: rest =>
          let fresh := add_new [] (filter (fun q => negb (pair_in seen q)) (succs p)) in
          explore k (rest ++ fresh) (seen ++ fresh)
      end
  end.

(** The pattern and the scanner accept the same texts. *)
Definition agrees (R : list (re * St)) : bool :=
  forallb (fun p => Bool.eqb (nullable (fst p)) (acc (snd p))
                    && forallb (pair_in R) (succs p)) R.

(** The scanner accepts every text the pattern matches. *)
Definition within (R : list (re * St)) : bool :=
  forallb (fun p => implb (nullable (fst p)) (acc (snd p))
                    && forallb (fun q => is_void (fst q) || pair_in R q) (succs p)) R.

Definition same_language (n : nat) (r : re) (s : St) : bool :=
  let R := explore n [(r, s)] [(r, s)] in pair_in R (r, s) && agrees R.

Definition sub_language (n : nat) (r : re) (s : St) : bool :=
  let R := explore n [(r, s)] [(r, s)] in pair_in R (r, s) && within R.
End Scanner.

Arguments run {St} step s w.
Arguments same_language {St} step acc eqb n r s.
Arguments sub_language {St} step acc eqb n r s.

(** A pattern as a scanner of its own. *)
Definition re_step (r : re) (c : ascii) : re := simp (deriv c r).

(** No text matches both patterns. *)
Definition disjoint_patterns (n : nat) (a b : re) : bool :=
  sub_language re_step (fun r => negb (nullable r)) re_eqb n a b.

(* ================================================================== *)
(** * Digits, prefixes and comments as scanners                        *)
(* ================================================================== *)

Fixpoint last_char (s : string) : option ascii :=
  match s with
  | EmptyString => None
  | String c EmptyString => Some c
  | String _ rest => last_char rest
  end.

Definition is_underscore (c : ascii) : bool := Ascii.eqb c "_".

(** Digits with underscores between them: nothing but digits and
    underscores, a digit first and a digit last. *)
Definition digit_groups (d : ascii -> bool) (w : string) : bool :=
  all_chars (fun c => d c || is_underscore c) w
  && match first_char w, last_char w with
     | Some a, Some b => d a && d b
     | _, _ => false
     end.

(** No two digits stand side by side. *)
Fixpoint no_adjacent (d : ascii -> bool) (w : string) : bool :=
  match w with
  | String a (String b _ as rest) => negb (d a && d b) && no_adjacent d rest
  | _ => true
  end.

(** [0], one of the marks, and a body. *)
Definition with_prefix (marks : list ascii) (body : string -> bool) (w : string) : bool :=
  match w with
  | String z (String m rest) => Ascii.eqb z "0" && existsb (Ascii.eqb m) marks && body rest
  | _ => false
  end.

Definition is_hex_digit (c : ascii) : bool :=
  in_class false [("0", "9"); ("a", "f"); ("A", "F")]%char c.

Definition is_bin_digit (c : ascii) : bool :=
  in_class false [("0", "0"); ("1", "1")]%char c.

(** The scanner of digit groups; with [single] a group is one digit. *)
Inductive gstate : Type := GStart | GDigit | GUnder | GDead.

Definition gstep (d : ascii -> bool) (single : bool) (s : gstate) (c : ascii) : gstate :=
  match s with
  | GStart => if d c then GDigit else GDead
  | GDigit =>
      if d c then (if single then GDead else GDigit)
      else if is_underscore c then GUnder else GDead
  | GUnder => if d c then GDigit else if is_underscore c then GUnder else GDead
  | GDead => GDead
  end.

Definition gacc (s : gstate) : bool :=
  match s with GDigit => true | _ => false end.

Definition gstate_eqb (a b : gstate) : bool :=
  match a, b with
  | GStart, GStart | GDigit, GDigit | GUnder, GUnder | GDead, GDead => true
  | _, _ => false
  end.

(** The scanner of a prefixed literal: [0], a mark, digit groups. *)
Inductive lstate : Type := LZero | LMark | LBody (g : gstate) | LDead.

Definition lstep (marks : list ascii) (d : ascii -> bool) (single : bool)
    (s : lstate) (c : ascii) : lstate :=
  match s with
  | LZero => if Ascii.eqb c "0" then LMark else LDead
  | LMark => if existsb (Ascii.eqb c) marks then LBody GStart else LDead
  | LBody g => LBody (gstep d single g c)
  | LDead => LDead
  end.

Definition lacc (s : lstate) : bool :=
  match s with LBody g => gacc g | _ => false end.

Definition lstate_eqb (a b : lstate) : bool :=
  match a, b with
  | LZero, LZero | LMark, LMark | LDead, LDead => true
  | LBody g, LBody h => gstate_eqb g h
  | _, _ => false
  end.

(** [0b1_0_1], and [0b101], which holds digits side by side. *)
Definition binary_constant (s : string) : tree :=
  Node "_literal_constant" [token_node "bin_literal" s].

(** ** Real literals *)

Definition is_float_suffix (c : ascii) : bool :=
  in_class false [("f", "f"); ("F", "F")]%char c.

Definition ends_in (ok : ascii -> bool) (w : string) : bool :=
  match last_char w with
  | Some c => ok c
  | None => false
  end.

(** Every dot is directly followed by a digit. *)
Fixpoint digit_after_dots (w : string) : bool :=
  match w with
  | EmptyString => true
  | String c rest =>
      (if Ascii.eqb c "."
       then match rest with
            | String x _ => is_digit x
            | EmptyString => false
            end
       else true)
      && digit_after_dots rest
  end.

Fixpoint count_char (c : ascii) (w : string) : nat :=
  match w with
  | EmptyString => 0
  | String x rest => (if Ascii.eqb x c then 1 else 0) + count_char c rest
  end.

(** The scanners of these three tests. *)
Definition end_step (ok : ascii -> bool) (s : bool) (c : ascii) : bool := ok c.

Inductive dstate : Type := DPlain | DDot | DDead.

Definition dstep (s : dstate) (c : ascii) : dstate :=
  match s with
  | DPlain => if Ascii.eqb c "." then DDot else DPlain
  | DDot => if is_digit c then DPlain else DDead
  | DDead => DDead
  end.

Definition dacc (s : dstate) : bool :=
  match s with DPlain => true | _ => false end.

Definition dstate_eqb (a b : dstate) : bool :=
  match a, b with
  | DPlain, DPlain | DDot, DDot | DDead, DDead => true
  | _, _ => false
  end.

(** Counting one character, up to two. *)
Definition count_step (x : ascii) (n : nat) (c : ascii) : nat :=
  if Ascii.eqb c x then Nat.min 2 (S n) else n.

(** ** Comments *)

(** The first [*/] of the text is its end; [star] tells whether the
    character before was a [*]. *)
Fixpoint closes_at_end (star : bool) (w : string) : bool :=
  match w with
  | EmptyString => false
  | String c rest =>
      if star && Ascii.eqb c "/"
      then match rest with EmptyString => true | _ => false end
      else closes_at_end (Ascii.eqb c "*") rest
  end.

(** [//] and a line without line feed, or [/*] and a text that ends with
    its first [*/]. *)
Definition comment_shape (w : string) : bool :=
  match w with
  | String a (String b rest) =>
      Ascii.eqb a "/"
      && ((Ascii.eqb b "/" && negb (has_char LF rest))
          || (Ascii.eqb b "*" && closes_at_end false rest))
  | _ => false
  end.

Inductive cstate : Type := CStart | CSlash | CLine | CBody | CStar | CDone | CDead.

Definition cstep (s : cstate) (c : ascii) : cstate :=
  match s with
  | CStart => if Ascii.eqb c "/" then CSlash else CDead
  | CSlash => if Ascii.eqb c "/" then CLine else if Ascii.eqb c "*" then CBody else CDead
  | CLine => if Ascii.eqb c LF then CDead else CLine
  | CBody => if Ascii.eqb c "*" then CStar else CBody
  | CStar => if Ascii.eqb c "/" then CDone else if Ascii.eqb c "*" then CStar else CBody
  | CDone => CDead
  | CDead => CDead
  end.

Definition cacc (s : cstate) : bool :=
  match s with CLine | CDone => true | _ => false end.

Definition cstate_eqb (a b : cstate) : bool :=
  match a, b with
  | CStart, CStart | CSlash, CSlash | CLine, CLine | CBody, CBody
  | CStar, CStar | CDone, CDone | CDead, CDead => true
  | _, _ => false
  end.

(* ================================================================== *)
(** * The rule table as a whole                                        *)
(* ================================================================== *)

(** The symbols a rule mentions. *)
Fixpoint syms (r : rule) : list string :=
  match r with
  | Sym n => [n]
  | Seq rs | Choice rs => flat_map syms rs
  | Repeat x | Repeat1 x => syms x
  | Prec _ x | PrecLeft _ x | PrecRight _ x | PrecDynamic _ x => syms x
  | Token x => syms x
  | Field _ x => syms x
  | Alias x _ => syms x
  | Blank | Str _ | Pat _ => []
  end.

(** The terminals of a rule: strings, patterns and tokens. *)
Fixpoint terminals (r : rule) : list rule :=
  match r with
  | Str _ | Pat _ | Token _ => [r]
  | Seq rs | Choice rs => flat_map terminals rs
  | Repeat x | Repeat1 x => terminals x
  | Prec _ x | PrecLeft _ x | PrecRight _ x | PrecDynamic _ x => terminals x
  | Field _ x => terminals x
  | Alias x _ => terminals x
  | Blank | Sym _ => []
  end.

(** The precedence levels a rule applies. *)
Fixpoint precs (r : rule) : list Z :=
  match r with
  | Prec p x | PrecLeft p x | PrecRight p x | PrecDynamic p x => p :: precs x
  | Seq rs | Choice rs => flat_map precs rs
  | Repeat x | Repeat1 x => precs x
  | Token x => precs x
  | Field _ x => precs x
  | Alias x _ => precs x
  | Blank | Str _ | Pat _ | Sym _ => []
  end.

(** A name is defined when it is a key of [rules] or an external. *)
Definition defined (n : string) : bool := is_some (rule_of n) || is_external n.

(** The symbols reached from a set of names through the rules: names
    are added until none is new. *)
Definition reach_step (T : list string) : list string :=
  fold_left (fun acc m => if mem m acc then acc else acc ++ [m])
    (flat_map (fun n => syms (rule_or_blank n)) T) T.

Fixpoint reach (n : nat) (T : list string) : list string :=
  match n with
  | 0 => T
  | S k =>
      let T' := reach_step T in
      if Nat.eqb (List.length T') (List.length T) then T else reach k T'
  end.

Definition reach_closed (T : list string) : bool :=
  forallb (fun n => forallb (fun m => mem m T) (syms (rule_or_blank n))) T.

(** What a program can hold, and the rules that neither a program nor an
    extra can reach. *)
Definition program_symbols : list string := reach 30 ["program"].

Definition unused_rules : list string :=
  let T := reach 30 ("program" :: flat_map syms extras) in
  filter (fun n => negb (mem n T)) (map fst rules).

(** The symbols that can yield no token. *)
Definition empty_symbols : list string := iterate 16 (fun T => can T []) [].

(** ** Brackets *)

(** A leaf counts [1] when its terminal is one of the strings [opens],
    [-1] when it is one of [closes]. *)
Definition bracket_weight (opens closes : list string) (term : rule) : Z :=
  match term with
  | Str s => if mem s opens then 1 else if mem s closes then (-1) else 0
  | _ => 0
  end%Z.

Definition net_brackets (opens closes : list string) (ts : list tree) : Z :=
  fold_right Z.add 0%Z (map (fun l => bracket_weight opens closes (fst l)) (forest_leaves ts)).

Definition count_leaves (names : list string) (ts : list tree) : nat :=
  List.length (filter (fun l => match fst l with Str s => mem s names | _ => false end)
                      (forest_leaves ts)).

Definition option_Z_eqb (a b : option Z) : bool :=
  match a, b with
  | Some x, Some y => Z.eqb x y
  | None, None => true
  | _, _ => false
  end.

(** [bal opens closes r]: the weight of everything [r] yields, when all
    that it yields has the same weight; a symbol counts [0]. *)
Fixpoint bal (opens closes : list string) (r : rule) : option Z :=
  match r with
  | Blank | Pat _ | Token _ | Sym _ => Some 0%Z
  | Str _ => Some (bracket_weight opens closes r)
  | Seq rs =>
      fold_right (fun x acc => match bal opens closes x, acc with
                               | Some a, Some b => Some (a + b)%Z
                               | _, _ => None
                               end) (Some 0%Z) rs
  | Choice rs =>
      match map (bal opens closes) rs with
      | [] => None
      | o :: os => if forallb (option_Z_eqb o) os then o else None
      end
  | Repeat x | Repeat1 x =>
      match bal opens closes x with
      | Some 0%Z => Some 0%Z
      | _ => None
      end
  | Prec _ x | PrecLeft _ x | PrecRight _ x | PrecDynamic _ x => bal opens closes x
  | Field _ x => bal opens closes x
  | Alias x _ => bal opens closes x
  end.

Definition balanced (opens closes : list string) : bool :=
  forallb (fun nr => option_Z_eqb (bal opens closes (snd nr)) (Some 0%Z)) rules.

(** ** Empty tokens *)

(** The text of a shebang line, after [#!]. *)
Definition shebang_text : rule := Pat (Star (ncls [(CR, CR); (LF, LF)]%char)).

(** A terminal that matches the empty text. *)
Definition matches_empty (t : rule) : bool := re_match (term_re t) "".

Definition empty_terminals : list (string * rule) :=
  filter (fun nt => matches_empty (snd nt))
         (flat_map (fun nr => map (fun t => (fst nr, t)) (terminals (snd nr))) rules).

(** Every terminal of a list that matches the empty text is the shebang
    text; every leaf of a forest that is empty is the shebang text or the
    external token. *)
Definition sound_terminals (ts : list rule) : Prop :=
  forall t, In t ts -> matches_empty t = true -> t = shebang_text.

Definition only_known (ts : list tree) : Prop :=
  forall term, In (term, "") (forest_leaves ts) ->
    term = shebang_text \/ term = Sym "_automatic_semicolon".

(** ** Words *)

Definition is_word_char (c : ascii) : bool :=
  in_class false [("a", "z"); ("A", "Z"); ("_", "_"); ("0", "9")]%char c.

Definition is_word_start (c : ascii) : bool :=
  in_class false [("a", "z"); ("A", "Z"); ("_", "_")]%char c.

Inductive wstate : Type := WStart | WWord | WDead.

Definition wstep (s : wstate) (c : ascii) : wstate :=
  match s with
  | WStart => if is_word_start c then WWord else WDead
  | WWord => if is_word_char c then WWord else WDead
  | WDead => WDead
  end.

Definition wacc (s : wstate) : bool :=
  match s with WWord => true | _ => false end.

Definition wstate_eqb (a b : wstate) : bool :=
  match a, b with
  | WStart, WStart | WWord, WWord | WDead, WDead => true
  | _, _ => false
  end.


(** ** Keyword extraction *)









(** [- a * b] *)
Definition minus_a_times_b : list string := ["-"; "a"; "*"; "b"].

Definition multiplicative (l : tree) (op : string) (r : tree) : tree :=
  binary "multiplicative_expression" l (Node "_multiplicative_operator" [tok op]) r.

(** ** Trailing commas *)

(** The symbols whose last token can be [x]. *)
Definition last_symbols (x : string) : list string :=
  iterate 16 (fun T => can_last empty_symbols T x) [].

(** A rule that ends with a closing string: what comes before it, and the
    string. *)
Fixpoint split_closer (r : rule) : option (list rule * string) :=
  match r with
  | Seq rs =>
      match rev rs with
      | Str c :: init => Some (rev init, c)
      | _ => None
      end
  | Prec _ x | PrecLeft _ x | PrecRight _ x | PrecDynamic _ x => split_closer x
  | _ => None
  end.

(** Whether the part of a rule before its closing string can end with a
    comma. *)
Definition comma_before_closer (n : string) : option bool :=
  match split_closer (rule_or_blank n) with
  | Some (init, _) => Some (can_last empty_symbols (last_symbols ",") "," (Seq init))
  | None => None
  end.

(** The bracketed lists of the grammar. *)
Definition bracketed_lists : list string :=
  [ "value_arguments"; "indexing_suffix"; "type_arguments"; "type_parameters";
    "collection_literal"; "multi_variable_declaration"; "function_type_parameters";
    "_class_parameters"; "function_value_parameters_" ].

(** [a !in b ;] as a program. *)
Definition a_not_in_b : tree :=
  Node "program"
    [ FieldT "import_list" [];
      FieldT "statement_list"
        [Node "statement"
           [ Node "statement_" [FieldT "statement"
               [binary "check_expression" (primary (ident "a"))
                  (Node "_in_operator" [tok "!in"]) (primary (ident "b"))]];
             Node "_semi" [tok ";"] ]] ].

(** [( a , b )] *)
Definition arguments_a_b : tree :=
  Node "value_arguments"
    [ tok "(";
      FieldT "argument_list"
        [ AliasT "argument" [Node "value_argument" [primary (ident "a")]];
          tok ",";
          AliasT "argument" [Node "value_argument" [primary (ident "b")]] ];
      tok ")" ].

(** ** Aliases *)





(** ** Separated lists *)

(** [no_double c ws]: the text [c] never stands twice in a row. *)
Fixpoint no_double (c : string) (ws : list string) : bool :=
  match ws with
  | a :: rest =>
      match rest with
      | b :: _ => negb (String.eqb a c && String.eqb b c)
      | [] => true
      end && no_double c rest
  | [] => true
  end.

(** [separated c ws]: the texts [ws] are not empty, neither begin nor end
    with [c], and never hold [c] twice in a row. *)
Definition separated (c : string) (ws : list string) : bool :=
  match ws with
  | [] => false
  | a :: _ => negb (String.eqb a c) && negb (String.eqb (last ws "") c) && no_double c ws
  end.

(** ** Character literals *)

(** A text of characters below 128: there a byte is a character. *)
Definition is_ascii_text (w : string) : bool :=
  all_chars (fun c => Nat.ltb (nat_of_ascii c) 128) w.

(** The length of the UTF-8 sequence that a byte opens; none for a byte
    that continues one. *)
Definition utf8_length (c : ascii) : nat :=
  let n := nat_of_ascii c in
  if Nat.ltb n 128 then 1
  else if Nat.ltb n 192 then 0
  else if Nat.ltb n 224 then 2
  else if Nat.ltb n 240 then 3
  else if Nat.ltb n 248 then 4
  else 0.

Definition is_continuation (c : ascii) : bool :=
  Nat.leb 128 (nat_of_ascii c) && Nat.ltb (nat_of_ascii c) 192.

(** One character, which is none of line feed, carriage return, quote and
    backslash. *)
Definition is_plain_char (w : string) : bool :=
  match w with
  | String c rest =>
      negb (existsb (Ascii.eqb c) [LF; CR; "'"%char; BSL])
      && Nat.eqb (S (String.length rest)) (utf8_length c)
      && all_chars is_continuation rest
  | EmptyString => false
  end.

Definition is_escape (w : string) : bool :=
  match w with
  | String b (String c EmptyString) =>
      Ascii.eqb b BSL
      && existsb (Ascii.eqb c) ["t"; "b"; "r"; "n"; "'"; DQ; BSL; "$"]%char
  | _ => false
  end.

Definition is_hex4 (w : string) : bool :=
  Nat.eqb (String.length w) 4 && all_chars is_hex_digit w.

(** The token texts of a character literal: a quote, one character or one
    escape, a quote. *)
Definition character_texts (ws : list string) : bool :=
  match ws with
  | [a; c; b] => String.eqb a "'" && String.eqb b "'" && (is_plain_char c || is_escape c)
  | [a; u; h; b] =>
      String.eqb a "'" && String.eqb b "'" && String.eqb u (String BSL "u") && is_hex4 h
  | _ => false
  end.

(** ** Binary forms of different levels *)

(** A binary form as an operand. *)
Definition binary_operand (n : string) (children : list tree) : tree :=
  Node "expression_" [Node "_binary_expression" [Node n children]].

(** [a + b * c] and [a * b + c] *)
Definition a_plus_b_times_c : list string := ["a"; "+"; "b"; "*"; "c"].
Definition a_times_b_plus_c : list string := ["a"; "*"; "b"; "+"; "c"].

(** [a is T * b] read as [(a is T) * b]. *)
Definition a_is_t_times_b : tree :=
  multiplicative
    (binary "check_expression" (primary (ident "a")) (Node "_is_operator" [tok "is"])
       (Node "_type" [Node "type_reference_" [Node "user_type" [Node "_simple_user_type"
          [AliasT "type_identifier" [ident "T"]]]]]))
    "*" (primary (ident "b")).

(** ** The head of a program *)





(** ** Fields and keywords of the constructs *)

(** The field names a rule writes. *)
Fixpoint fields (r : rule) : list string :=
  match r with
  | Field f x => f :: fields x
  | Seq rs | Choice rs => flat_map fields rs
  | Repeat x | Repeat1 x => fields x
  | Prec _ x | PrecLeft _ x | PrecRight _ x | PrecDynamic _ x => fields x
  | Token x => fields x
  | Alias x _ => fields x
  | Blank | Str _ | Pat _ | Sym _ => []
  end.

(** [always_in self l r]: every way through [r] passes one of the strings
    of [l]; [self] tells it of the rule of a symbol. *)
Section Always.
Variable self : rule -> bool.
Variable l : list string.

Fixpoint always_in (r : rule) : bool :=
  match r with
  | Str s => mem s l
  | Sym n =>
      negb (is_external n)
      && match rule_of n with
         | Some body => self body
         | None => false
         end
  | Seq rs => existsb always_in rs
  | Choice rs => negb (is_nil rs) && forallb always_in rs
  | Repeat1 x => always_in x
  | Prec _ x | PrecLeft _ x | PrecRight _ x | PrecDynamic _ x => always_in x
  | Field _ x => always_in x
  | Alias x _ => always_in x
  | Blank | Pat _ | Token _ | Repeat _ => false
  end.
End Always.

Fixpoint always_str (fuel : nat) (l : list string) (r : rule) : bool :=
  match fuel with
  | 0 => false
  | S k => always_in (always_str k l) l r
  end.

(** The constructs and the keywords of each: every node of the construct
    holds one of them. *)
Definition construct_keywords : list (string * list string) :=
  [ ("class_declaration", ["class"; "interface"]);
    ("object_declaration", ["object"]);
    ("companion_object", ["companion"]);
    ("function", ["fun"]);
    ("anonymous_function", ["fun"]);
    ("property", ["val"; "var"]);
    ("type_alias", ["typealias"]);
    ("getter", ["get"]);
    ("setter", ["set"]);
    ("secondary_constructor", ["constructor"]);
    ("anonymous_initializer", ["init"]);
    ("package_header", ["package"]);
    ("import", ["import"]);
    ("if", ["if"]);
    ("else_if_clause", ["else"]);
    ("else_clause", ["else"]);
    ("when_expression", ["when"]);
    ("try", ["try"]);
    ("catch", ["catch"]);
    ("finally_clause", ["finally"]);
    ("for", ["for"]);
    ("while", ["while"]);
    ("do_while_statement", ["do"]);
    ("throw", ["throw"]);
    ("return", ["return"; "return@"]);
    ("object_literal", ["object"]);
    ("type_constraints", ["where"]);
    ("explicit_delegation", ["by"]);
    ("property_delegate", ["by"]) ].

(* ================================================================== *)
(** * Facts about regular expressions                                  *)
(* ================================================================== *)

Module RegexFacts.
Local Open Scope string_scope.

Lemma append_nil_r (s : string) : s ++ "" = s.
Proof. induction s; simpl; congruence. Qed.

Lemma append_assoc (a b c : string) : (a ++ b) ++ c = a ++ (b ++ c).
Proof. induction a; simpl; congruence. Qed.

Lemma append_eq_nil (u v : string) : u ++ v = "" -> u = "" /\ v = "".
Proof. destruct u; simpl; intros H; [auto | discriminate]. Qed.

Lemma append_eq_cons (u v : string) c s :
u ++ v = String c s ->
(u = "" /\ v = String c s) \/ (exists u', u = String c u' /\ s = u' ++ v).
Proof.
destruct u as [|d u']; simpl; intros H.
- left; auto.
- right. injection H as -> <-. eauto.
Qed.

Lemma matches_void s : ~ matches Void s.
Proof. intros H; inversion H. Qed.

Lemma matches_eps s : matches Eps s -> s = "".
Proof. intros H; inversion H; reflexivity. Qed.

Lemma nullable_matches r : nullable r = true <-> matches r "".
Proof.
split.
- induction r; simpl; intros H; try discriminate.
  + constructor.
  + apply andb_true_iff in H as [H1 H2].
    change "" with ("" ++ ""). constructor; auto.
  + apply orb_true_iff in H as [H1 | H1]; [apply m_alt_l | apply m_alt_r]; auto.
  + constructor.
- intros H. remember "" as s eqn:E.
  induction H; simpl; auto; try discriminate.
  + apply append_eq_nil in E as [-> ->]. rewrite IHmatches1, IHmatches2; auto.
  + rewrite IHmatches; auto.
  + rewrite IHmatches, orb_true_r; auto.
Qed.

Lemma deriv_sound c r : forall s, matches (deriv c r) s -> matches r (String c s).
Proof.
induction r; simpl; intros s H.
- inversion H.
- inversion H.
- destruct (in_class neg ranges c) eqn:E; inversion H; subst. constructor; exact E.
- destruct (nullable r1) eqn:N.
  + inversion H; subst.
    * match goal with X : matches (Cat _ _) _ |- _ => inversion X; subst end.
      change (String c (u ++ v)) with (String c u ++ v). constructor; auto.
    * change (String c s) with ("" ++ String c s). constructor; auto.
      apply nullable_matches; exact N.
  + inversion H; subst.
    change (String c (u ++ v)) with (String c u ++ v). constructor; auto.
- inversion H; subst; [apply m_alt_l | apply m_alt_r]; auto.
- inversion H; subst.
  change (String c (u ++ v)) with (String c u ++ v). constructor; auto.
Qed.

Lemma deriv_complete c r s' : matches r s' -> forall s, s' = String c s -> matches (deriv c r) s.
Proof.
induction 1; intros s E; simpl.
- discriminate.
- injection E as -> <-. rewrite H. constructor.
- apply append_eq_cons in E as [[-> ->] | [u' [-> ->]]].
  + assert (N : nullable a = true) by (apply nullable_matches; assumption).
    rewrite N. apply m_alt_r. auto.
  + destruct (nullable a).
    * apply m_alt_l. constructor; auto.
    * constructor; auto.
- apply m_alt_l; auto.
- apply m_alt_r; auto.
- discriminate.
- apply append_eq_cons in E as [[-> ->] | [u' [-> ->]]].
  + apply IHmatches2; reflexivity.
  + constructor; auto.
Qed.

Lemma mk_cat_matches a b s : matches (mk_cat a b) s <-> matches (Cat a b) s.
Proof.
split; intros H.
- destruct a; simpl in H; try (inversion H; fail);
    destruct b; simpl in H; try (inversion H; fail); try exact H;
    change s with ("" ++ s); constructor; auto; constructor.
- inversion H; subst.
  destruct a; try (match goal with X : matches Void _ |- _ => inversion X end);
    destruct b; try (match goal with X : matches Void _ |- _ => inversion X end);
    simpl; try (constructor; assumption);
    match goal with X : matches Eps _ |- _ => inversion X; subst; simpl; assumption end.
Qed.

Lemma mk_alt_matches a b s : matches (mk_alt a b) s <-> matches (Alt a b) s.
Proof.
split; intros H.
- destruct a; simpl in H; try (apply m_alt_r; exact H);
    destruct b; simpl in H; try (apply m_alt_l; exact H); exact H.
- inversion H; subst.
  + destruct a; try (match goal with X : matches Void _ |- _ => inversion X end);
      destruct b; simpl; try assumption; apply m_alt_l; assumption.
  + destruct b; try (match goal with X : matches Void _ |- _ => inversion X end);
      destruct a; simpl; try assumption; apply m_alt_r; assumption.
Qed.

Lemma simp_matches r : forall s, matches (simp r) s <-> matches r s.
Proof.
induction r; simpl; intros s; try tauto.
- rewrite mk_cat_matches. split; intros H; inversion H; subst; constructor;
    try (apply IHr1; assumption); apply IHr2; assumption.
- rewrite mk_alt_matches. split; intros H; inversion H; subst;
    try (apply m_alt_l; apply IHr1; assumption); apply m_alt_r; apply IHr2; assumption.
Qed.

(** The matcher decides the denotation. *)
Theorem re_match_correct s : forall r, re_match r s = true <-> matches r s.
Proof.
induction s as [|c s IH]; intros r; simpl.
- apply nullable_matches.
- rewrite IH, simp_matches. split.
  + apply deriv_sound.
  + intros H. eapply deriv_complete; eauto.
Qed.

Lemma re_match_void s : re_match Void s = false.
Proof. induction s; simpl; auto. Qed.

End RegexFacts.
Import RegexFacts.

(* ================================================================== *)
(** * Facts about derivations and the pruning analyses                 *)
(* ================================================================== *)

Module SearchFacts.

Lemma assoc_find_In n l r : assoc_find n l = Some r -> In (n, r) l.
Proof.
induction l as [|[k v] l IH]; simpl; [discriminate|].
destruct (String.eqb n k) eqn:E.
- apply String.eqb_eq in E. intros [= ->]. left; congruence.
- intros H. right; auto.
Qed.

Lemma mem_In x l : mem x l = true <-> In x l.
Proof.
unfold mem. rewrite existsb_exists. split.
- intros [y [Hy E]]. apply String.eqb_eq in E. congruence.
- intros H. exists x. split; auto. apply String.eqb_refl.
Qed.

Lemma leaf_texts_app ts us : leaf_texts (ts ++ us) = leaf_texts ts ++ leaf_texts us.
Proof. unfold leaf_texts, forest_leaves. rewrite flat_map_app, map_app. reflexivity. Qed.

Lemma leaf_texts_node n ts : leaf_texts [Node n ts] = leaf_texts ts.
Proof. unfold leaf_texts, forest_leaves. simpl. rewrite app_nil_r. reflexivity. Qed.

Lemma leaf_texts_field f ts : leaf_texts [FieldT f ts] = leaf_texts ts.
Proof. unfold leaf_texts, forest_leaves. simpl. rewrite app_nil_r. reflexivity. Qed.

Lemma leaf_texts_alias n ts : leaf_texts [AliasT n ts] = leaf_texts ts.
Proof. unfold leaf_texts, forest_leaves. simpl. rewrite app_nil_r. reflexivity. Qed.

Lemma leaf_texts_leaf r w : leaf_texts [Leaf r w] = [w].
Proof. reflexivity. Qed.

Lemma closed_for_spec f T n r :
closed_for f T = true -> rule_of n = Some r -> f T r = true -> mem n T = true.
Proof.
unfold closed_for, rule_of. intros C H Hf.
rewrite forallb_forall in C. specialize (C _ (assoc_find_In _ _ _ H)). simpl in C.
rewrite Hf in C. exact C.
Qed.

Section Alphabet.
Variables T A : list string.
Hypothesis HT : closed_for (fun T => can T A) T = true.

Let ok (ts : list tree) : Prop := Forall (fun x => In x A) (leaf_texts ts).

Lemma can_sound_all :
(forall r ts, derive r ts -> ok ts -> can T A r = true) /\
(forall rs ts, derive_seq rs ts -> ok ts -> forallb (can T A) rs = true) /\
(forall rs ts, derive_alt rs ts -> ok ts -> existsb (can T A) rs = true) /\
(forall r ts, derive_rep r ts -> True).
Proof.
apply derive_mutind; unfold ok; simpl; auto.
- intros s H. apply mem_In. inversion H; auto.
- intros p w Hm H. apply existsb_exists. exists w. inversion H; auto.
- intros r w Hm H. apply existsb_exists. exists w. inversion H; auto.
- intros n r ts Hr _ IH H. rewrite leaf_texts_node in H.
  rewrite (closed_for_spec (fun T => can T A) _ _ _ HT Hr (IH H)). apply orb_true_r.
- intros n w He H. rewrite He. inversion H as [|a l Hin _]; subst.
  destruct A; [destruct Hin | reflexivity].
- intros r ts us _ IH _ _ H.
  rewrite leaf_texts_app in H. apply Forall_app in H as [H _]. auto.
- intros f r ts _ IH H. rewrite leaf_texts_field in H. auto.
- intros r n ts _ IH H. rewrite leaf_texts_alias in H. auto.
- intros r rs ts us _ IH1 _ IH2 H.
  rewrite leaf_texts_app in H. apply Forall_app in H as [Ha Hb].
  rewrite IH1, IH2; auto.
- intros r rs ts _ IH H. rewrite IH; auto.
- intros r rs ts _ IH H. rewrite IH; auto. apply orb_true_r.
Qed.

Lemma can_sound r ts :
derive r ts -> Forall (fun x => In x A) (leaf_texts ts) -> can T A r = true.
Proof. intros D H. exact (proj1 can_sound_all r ts D H). Qed.
End Alphabet.

(** A rule whose symbol set is closed for the empty alphabet and that
  fails [can _ []] never yields a leafless sequence. *)
Lemma nullable_sound nul r ts :
closed_for (fun T => can T []) nul = true ->
derive r ts -> leaf_texts ts = [] -> can nul [] r = true.
Proof.
intros C D E. eapply can_sound; eauto. rewrite E. constructor.
Qed.

Lemma derive_seq_nullable nul rs ts :
closed_for (fun T => can T []) nul = true ->
derive_seq rs ts -> leaf_texts ts = [] -> forallb (can nul []) rs = true.
Proof.
intros C D E. eapply (proj1 (proj2 (can_sound_all nul [] C))); eauto.
rewrite E. constructor.
Qed.

Section FirstLast.
Variables nul T : list string.
Variable x : string.
Hypothesis Hnul : closed_for (fun T => can T []) nul = true.

Section First.
Hypothesis HT : closed_for (fun T => can_first nul T x) T = true.

Let starts (ts : list tree) : Prop := exists rest, leaf_texts ts = x :: rest.

Lemma can_first_sound_all :
(forall r ts, derive r ts -> starts ts -> can_first nul T x r = true) /\
(forall rs ts, derive_seq rs ts -> starts ts ->
   first_seq (can_first nul T x) (can nul []) rs = true) /\
(forall rs ts, derive_alt rs ts -> starts ts ->
   existsb (can_first nul T x) rs = true) /\
(forall r ts, derive_rep r ts -> starts ts -> can_first nul T x r = true).
Proof.
apply derive_mutind; unfold starts; simpl; auto.
- intros [rest E]. discriminate.
- intros s [rest E]. injection E as -> _. apply String.eqb_refl.
- intros p w Hm [rest E]. injection E as <- _. assumption.
- intros r w Hm [rest E]. injection E as <- _. assumption.
- intros n r ts Hr _ IH [rest E]. rewrite leaf_texts_node in E.
  rewrite (closed_for_spec (fun T => can_first nul T x) _ _ _ HT Hr
             (IH (ex_intro _ rest E))).
  apply orb_true_r.
- intros n w He _. rewrite He. reflexivity.
- intros r ts us _ IH1 _ IH2 [rest E]. rewrite leaf_texts_app in E.
  destruct (leaf_texts ts) as [|y l] eqn:L; simpl in E; eauto.
  injection E as -> _. eauto.
- intros f r ts _ IH [rest E]. rewrite leaf_texts_field in E. eauto.
- intros r n ts _ IH [rest E]. rewrite leaf_texts_alias in E. eauto.
- intros [rest E]. discriminate.
- intros r rs ts us D IH1 _ IH2 [rest E]. rewrite leaf_texts_app in E.
  destruct (leaf_texts ts) as [|y l] eqn:L; simpl in E.
  + rewrite (nullable_sound _ _ _ Hnul D L), IH2; eauto. apply orb_true_r.
  + injection E as -> _. rewrite IH1; eauto.
- intros r rs ts _ IH H. rewrite IH; auto.
- intros r rs ts _ IH H. rewrite IH; auto. apply orb_true_r.
- intros r [rest E]. discriminate.
- intros r ts us _ IH1 _ IH2 [rest E]. rewrite leaf_texts_app in E.
  destruct (leaf_texts ts) as [|y l] eqn:L; simpl in E; eauto.
  injection E as -> _. eauto.
Qed.

Lemma can_first_sound r ts rest :
derive r ts -> leaf_texts ts = x :: rest -> can_first nul T x r = true.
Proof. intros D E. exact (proj1 can_first_sound_all r ts D (ex_intro _ rest E)). Qed.
End First.

Section Last.
Hypothesis HT : closed_for (fun T => can_last nul T x) T = true.

Let ends (ts : list tree) : Prop := exists rest, leaf_texts ts = rest ++ [x].

Lemma app_snoc_cases (a b rest : list string) :
a ++ b = rest ++ [x] ->
(b = [] /\ a = rest ++ [x]) \/ (exists rest', b = rest' ++ [x]).
Proof.
intros E. destruct b as [|y b'] using rev_ind.
- left. rewrite app_nil_r in E. auto.
- right. rewrite app_assoc in E. apply app_inj_tail in E as [_ ->]. eauto.
Qed.

Lemma can_last_sound_all :
(forall r ts, derive r ts -> ends ts -> can_last nul T x r = true) /\
(forall rs ts, derive_seq rs ts -> ends ts ->
   last_seq (can_last nul T x) (can nul []) rs = true) /\
(forall rs ts, derive_alt rs ts -> ends ts ->
   existsb (can_last nul T x) rs = true) /\
(forall r ts, derive_rep r ts -> ends ts -> can_last nul T x r = true).
Proof.
apply derive_mutind; unfold ends; simpl; auto.
- intros [rest E]. destruct rest; discriminate.
- intros s [rest E]. destruct rest as [|? [|]]; try discriminate.
  injection E as ->. apply String.eqb_refl.
- intros p w Hm [rest E]. destruct rest as [|? [|]]; try discriminate.
  injection E as <-. assumption.
- intros r w Hm [rest E]. destruct rest as [|? [|]]; try discriminate.
  injection E as <-. assumption.
- intros n r ts Hr _ IH [rest E]. rewrite leaf_texts_node in E.
  rewrite (closed_for_spec (fun T => can_last nul T x) _ _ _ HT Hr
             (IH (ex_intro _ rest E))).
  apply orb_true_r.
- intros n w He _. rewrite He. reflexivity.
- intros r ts us _ IH1 D2 IH2 [rest E]. rewrite leaf_texts_app in E.
  apply app_snoc_cases in E as [[Eb Ea] | [rest' Eb]]; eauto.
- intros f r ts _ IH [rest E]. rewrite leaf_texts_field in E. eauto.
- intros r n ts _ IH [rest E]. rewrite leaf_texts_alias in E. eauto.
- intros [rest E]. destruct rest; discriminate.
- intros r rs ts us _ IH1 D2 IH2 [rest E]. rewrite leaf_texts_app in E.
  apply app_snoc_cases in E as [[Eb Ea] | [rest' Eb]].
  + rewrite (derive_seq_nullable _ _ _ Hnul D2 Eb), IH1; eauto. apply orb_true_r.
  + rewrite IH2; eauto.
- intros r rs ts _ IH H. rewrite IH; auto.
- intros r rs ts _ IH H. rewrite IH; auto. apply orb_true_r.
- intros r [rest E]. destruct rest; discriminate.
- intros r ts us _ IH1 _ IH2 [rest E]. rewrite leaf_texts_app in E.
  apply app_snoc_cases in E as [[Eb Ea] | [rest' Eb]]; eauto.
Qed.

Lemma can_last_sound r ts rest :
derive r ts -> leaf_texts ts = rest ++ [x] -> can_last nul T x r = true.
Proof. intros D E. exact (proj1 can_last_sound_all r ts D (ex_intro _ rest E)). Qed.
End Last.
End FirstLast.

Definition in_alpha (tb : tables) (w : list string) : Prop :=
Forall (fun x => In x (t_alpha tb)) w.

Lemma tables_ok_spec tb :
tables_ok tb = true ->
closed_for (fun T => can T []) (t_nul tb) = true /\
closed_for (fun T => can T (t_alpha tb)) (t_prod tb) = true /\
(forall x, In x (t_alpha tb) ->
   closed_for (fun T => can_first (t_nul tb) T x) (table_find x (t_first tb)) = true) /\
(forall x, In x (t_alpha tb) ->
   closed_for (fun T => can_last (t_nul tb) T x) (table_find x (t_last tb)) = true).
Proof.
unfold tables_ok. rewrite !andb_true_iff, !forallb_forall. tauto.
Qed.

Lemma quick_sound tb r ts w :
tables_ok tb = true -> derive r ts -> leaf_texts ts = w -> in_alpha tb w ->
quick tb r w = true.
Proof.
intros Htb D E Hw. apply tables_ok_spec in Htb as (Hn & Hp & Hf & Hl).
unfold quick. destruct w as [|x w'].
- eapply nullable_sound; eauto.
- rewrite !andb_true_iff. repeat split.
  + eapply can_sound; eauto. rewrite E. exact Hw.
  + eapply can_first_sound; eauto. apply Hf. inversion Hw; auto.
  + assert (Hne : x :: w' <> []) by discriminate.
    eapply can_last_sound with (rest := removelast (x :: w')); eauto.
    * apply Hl. unfold in_alpha in Hw. rewrite Forall_forall in Hw. apply Hw.
      rewrite (app_removelast_last x Hne) at 2. apply in_or_app. right. left. reflexivity.
    * rewrite E. apply app_removelast_last. exact Hne.
Qed.

Lemma fold_opt_app {X : Type} (f : X -> option (list forest)) ps :
forall l, fold_right (fun p acc => opt_app (f p) acc) (Some []) ps = Some l ->
forall p, In p ps -> exists lp, f p = Some lp /\ incl lp l.
Proof.
induction ps as [|q ps IH]; simpl; intros l H p Hp; [destruct Hp|].
unfold opt_app in H at 1.
destruct (f q) as [lq|] eqn:Eq; [|discriminate].
destruct (fold_right _ _ ps) as [lr|] eqn:Er; [|discriminate].
injection H as <-. destruct Hp as [-> | Hp].
- exists lq. split; auto. apply incl_appl, incl_refl.
- destruct (IH _ eq_refl _ Hp) as [lp [E I]]. exists lp. split; auto.
  apply incl_appr. exact I.
Qed.

Lemma in_splits a : forall b, In (a, b) (splits (a ++ b)).
Proof.
induction a as [|y a IH]; intros b; simpl.
- destruct b; simpl; auto.
- right. apply (in_map (fun p => (y :: fst p, snd p)) _ (a, b)). apply IH.
Qed.

Lemma in_product h t hs ts : In h hs -> In t ts -> In (h ++ t) (product hs ts).
Proof.
intros Hh Ht. unfold product. apply in_flat_map. exists h. split; auto.
apply (in_map (fun t => h ++ t)). exact Ht.
Qed.

Lemma opt_app_some a b l : opt_app a b = Some l -> exists x y, a = Some x /\ b = Some y /\ l = x ++ y.
Proof.
destruct a, b; simpl; intros H; try discriminate. injection H as <-. eauto.
Qed.

Section Complete.
Variable tb : tables.
Hypothesis Htb : tables_ok tb = true.

Definition complete (self : rule -> list string -> option (list forest)) : Prop :=
forall r w l, self r w = Some l -> in_alpha tb w ->
  forall ts, derive r ts -> leaf_texts ts = w -> In ts l.

Lemma try_split_complete self r tail ts us l0 :
complete self ->
(forall lt, tail (leaf_texts us) = Some lt -> In us lt) ->
derive r ts -> in_alpha tb (leaf_texts ts) ->
try_split tb self r tail (leaf_texts ts, leaf_texts us) = Some l0 ->
In (ts ++ us) l0.
Proof.
intros Hs Ht D Hw. unfold try_split. simpl.
rewrite (quick_sound tb r ts _ Htb D eq_refl Hw). simpl.
destruct (tail (leaf_texts us)) as [tl|] eqn:Et; [|discriminate].
specialize (Ht _ eq_refl).
destruct tl as [|t0 tl']; [destruct Ht|].
destruct (self r (leaf_texts ts)) as [hd|] eqn:Eh; [|discriminate].
intros [= <-]. apply in_product; auto. eapply Hs; eauto.
Qed.

Lemma enum_seq_complete self :
complete self ->
forall rs ts, derive_seq rs ts ->
forall l, in_alpha tb (leaf_texts ts) ->
  enum_seq tb self rs (leaf_texts ts) = Some l -> In ts l.
Proof.
intros Hs rs ts D. induction D as [|r rs ts us D1 D2 IH]; intros l Hw H.
- simpl in H. injection H as <-. left; reflexivity.
- simpl in H. rewrite leaf_texts_app in *.
  apply Forall_app in Hw as [Hw1 Hw2].
  destruct (fold_opt_app _ _ _ H _ (in_splits (leaf_texts ts) (leaf_texts us)))
    as [lp [E I]].
  apply I.
  apply (try_split_complete self r (enum_seq tb self rs) ts us lp Hs);
    [ | exact D1 | exact Hw1 | exact E ].
  intros lt Hlt. apply IH; auto.
Qed.

Lemma enum_alt_complete self :
complete self ->
forall rs ts, derive_alt rs ts ->
forall l, in_alpha tb (leaf_texts ts) ->
  enum_alt self rs (leaf_texts ts) = Some l -> In ts l.
Proof.
intros Hs rs ts D. induction D as [r rs ts D | r rs ts D IH]; intros l Hw H;
  simpl in H; apply opt_app_some in H as (x & y & Ex & Ey & ->); apply in_or_app.
- left. eapply Hs; eauto.
- right. eauto.
Qed.

Lemma enum_rep_complete self r :
complete self -> can (t_nul tb) [] r = false ->
forall ts, derive_rep r ts ->
forall n l, in_alpha tb (leaf_texts ts) -> List.length (leaf_texts ts) <= n ->
  enum_rep tb self n r (leaf_texts ts) = Some l -> In ts l.
Proof.
intros Hs Hn ts D. induction D as [r | r ts us D1 D2 IH]; intros n l Hw Hlen H.
- destruct n; simpl in H; injection H as <-; left; reflexivity.
- rewrite leaf_texts_app in *. apply Forall_app in Hw as [Hw1 Hw2].
  destruct (leaf_texts ts) as [|x0 w0] eqn:E1.
  + exfalso. apply tables_ok_spec in Htb as (Hc & _).
    rewrite (nullable_sound _ _ _ Hc D1 E1) in Hn. discriminate.
  + destruct n as [|k]; [simpl in Hlen; lia|].
    simpl in H.
    assert (Hin : In (x0 :: w0, leaf_texts us)
                    (filter (fun p => negb (is_nil (fst p)))
                       (splits ((x0 :: w0) ++ leaf_texts us)))).
    { apply filter_In. split; [apply in_splits | reflexivity]. }
    destruct (fold_opt_app _ _ _ H _ Hin) as [lp [E I]].
    apply I. rewrite <- E1 in E.
    apply (try_split_complete self r (enum_rep tb self k r) ts us lp Hs);
      [ | exact D1 | rewrite E1; exact Hw1 | exact E ].
    intros lt Hlt. apply (IH Hn k); auto.
    simpl in Hlen. rewrite length_app in Hlen. lia.
Qed.

Lemma one_leaf_in r ok x : ok x = true -> In [Leaf r x] (one_leaf r ok [x]).
Proof. intros H. simpl. rewrite H. left; reflexivity. Qed.

(** Whatever the grammar derives for a token sequence is among the
  results of the search, when the search does not give up. *)
Theorem enum_complete fuel : complete (enum tb fuel).
Proof.
induction fuel as [|k IH]; intros r w l H Hw ts D E; [discriminate|].
change (enum tb (S k) r w) with
  (if negb (quick tb r w) then Some [] else enum_body tb (enum tb k) r w) in H.
rewrite (quick_sound tb r ts w Htb D E Hw) in H.
cbv beta iota delta [negb] in H. subst w.
destruct D; cbv beta iota delta [enum_body] in H; try (eapply IH; eauto; fail).
- injection H as <-. left; reflexivity.
- injection H as <-. apply one_leaf_in. apply String.eqb_refl.
- injection H as <-. apply one_leaf_in. assumption.
- injection H as <-. apply one_leaf_in. assumption.
- apply opt_app_some in H as (x & y & Ex & Ey & ->). apply in_or_app. right.
  rewrite H0 in Ey. destruct (enum tb k r (leaf_texts [Node n ts])) as [l'|] eqn:El;
    [|discriminate].
  injection Ey as <-. apply (in_map (fun ts => [Node n ts])).
  eapply IH; eauto. symmetry; apply leaf_texts_node.
- apply opt_app_some in H as (x & y & Ex & Ey & ->). apply in_or_app. left.
  rewrite H0 in Ex. injection Ex as <-. left; reflexivity.
- eapply enum_seq_complete; eauto.
- eapply enum_alt_complete; eauto.
- destruct (can (t_nul tb) [] r) eqn:Hn; [discriminate|].
  eapply enum_rep_complete; eauto.
- assert (D' : derive_rep r (ts ++ us)) by (constructor; assumption).
  destruct (can (t_nul tb) [] r) eqn:Hn; [discriminate|].
  destruct (leaf_texts (ts ++ us)) as [|x0 w0] eqn:E.
  + exfalso. rewrite leaf_texts_app in E. apply app_eq_nil in E as [E _].
    apply tables_ok_spec in Htb as (Hc & _).
    rewrite (nullable_sound _ _ _ Hc D E) in Hn. discriminate.
  + rewrite <- E in *. eapply enum_rep_complete; eauto.
- destruct (enum tb k r (leaf_texts [FieldT f ts])) as [l'|] eqn:El; [|discriminate].
  injection H as <-. apply (in_map (fun ts => [FieldT f ts])).
  eapply IH; eauto. symmetry; apply leaf_texts_field.
- destruct (enum tb k r (leaf_texts [AliasT n ts])) as [l'|] eqn:El; [|discriminate].
  injection H as <-. apply (in_map (fun ts => [AliasT n ts])).
  eapply IH; eauto. symmetry; apply leaf_texts_alias.
Qed.
End Complete.

Lemma fold_opt_app_inv {X : Type} (f : X -> option (list forest)) ps :
forall l ts, fold_right (fun p acc => opt_app (f p) acc) (Some []) ps = Some l ->
In ts l -> exists p lp, In p ps /\ f p = Some lp /\ In ts lp.
Proof.
induction ps as [|q ps IH]; simpl; intros l ts H Hin.
- injection H as <-. destruct Hin.
- apply opt_app_some in H as (x & y & Ex & Ey & ->).
  apply in_app_or in Hin as [Hin | Hin].
  + exists q, x. auto.
  + destruct (IH _ _ Ey Hin) as (p & lp & Hp & E & I). exists p, lp. auto.
Qed.

Lemma splits_spec w : forall a b, In (a, b) (splits w) -> a ++ b = w.
Proof.
induction w as [|x w IH]; simpl; intros a b H.
- destruct H as [[= <- <-] | []]. reflexivity.
- destruct H as [[= <- <-] | H]; [reflexivity|].
  apply in_map_iff in H as [[a' b'] [[= <- <-] H]]. simpl.
  rewrite (IH _ _ H). reflexivity.
Qed.

Lemma product_inv hs ts x : In x (product hs ts) -> exists h t, In h hs /\ In t ts /\ x = h ++ t.
Proof.
unfold product. intros H. apply in_flat_map in H as [h [Hh H]].
apply in_map_iff in H as [t [<- Ht]]. eauto.
Qed.

Section Sound.
Variable tb : tables.

Definition sound (self : rule -> list string -> option (list forest)) : Prop :=
forall r w l ts, self r w = Some l -> In ts l -> derive r ts /\ leaf_texts ts = w.

Lemma try_split_sound self r tail p lp x :
sound self ->
try_split tb self r tail p = Some lp -> In x lp ->
exists h t lt, tail (snd p) = Some lt /\ In t lt /\
               derive r h /\ leaf_texts h = fst p /\ x = h ++ t.
Proof.
intros Hs. unfold try_split.
destruct (negb (quick tb r (fst p))); [intros [= <-] []|].
destruct (tail (snd p)) as [tl|]; [|discriminate].
destruct tl as [|t0 tl']; [intros [= <-] []|].
destruct (self r (fst p)) as [hd|] eqn:Eh; [|discriminate].
intros [= <-] Hin. apply product_inv in Hin as (h & t & Hh & Ht & ->).
destruct (Hs _ _ _ _ Eh Hh) as [D E].
exists h, t, (t0 :: tl'). auto.
Qed.

Lemma enum_seq_sound self :
sound self ->
forall rs w l ts, enum_seq tb self rs w = Some l -> In ts l ->
  derive_seq rs ts /\ leaf_texts ts = w.
Proof.
intros Hs rs. induction rs as [|r rs IH]; simpl; intros w l ts H Hin.
- injection H as <-. destruct w; [|destruct Hin].
  destruct Hin as [<- | []]. split; [constructor | reflexivity].
- destruct (fold_opt_app_inv _ _ _ _ H Hin) as ([a b] & lp & Hp & E & I).
  destruct (try_split_sound _ _ _ _ _ _ Hs E I) as (h & t & lt & Et & Ht & D & Eh & ->).
  simpl in *. destruct (IH _ _ _ Et Ht) as [D2 E2]. split.
  + constructor; assumption.
  + rewrite leaf_texts_app, Eh, E2. apply splits_spec. exact Hp.
Qed.

Lemma enum_alt_sound self :
sound self ->
forall rs w l ts, enum_alt self rs w = Some l -> In ts l ->
  derive_alt rs ts /\ leaf_texts ts = w.
Proof.
intros Hs rs. induction rs as [|r rs IH]; simpl; intros w l ts H Hin.
- injection H as <-. destruct Hin.
- apply opt_app_some in H as (x & y & Ex & Ey & ->).
  apply in_app_or in Hin as [Hin | Hin].
  + destruct (Hs _ _ _ _ Ex Hin). split; auto. apply da_here; assumption.
  + destruct (IH _ _ _ Ey Hin). split; auto. apply da_next; assumption.
Qed.

Lemma enum_rep_sound self r :
sound self ->
forall n w l ts, enum_rep tb self n r w = Some l -> In ts l ->
  derive_rep r ts /\ leaf_texts ts = w.
Proof.
intros Hs n. induction n as [|k IH]; intros w l ts H Hin.
- destruct w; simpl in H; [|discriminate].
  injection H as <-. destruct Hin as [<- | []]. split; [constructor | reflexivity].
- destruct w as [|x0 w0].
  + simpl in H. injection H as <-. destruct Hin as [<- | []].
    split; [constructor | reflexivity].
  + cbn [enum_rep] in H.
    destruct (fold_opt_app_inv _ _ _ _ H Hin) as ([a b] & lp & Hp & E & I).
    apply filter_In in Hp as [Hp _].
    destruct (try_split_sound _ _ _ _ _ _ Hs E I) as (h & t & lt & Et & Ht & D & Eh & ->).
    simpl in *. destruct (IH _ _ _ Et Ht) as [D2 E2]. split.
    * constructor; assumption.
    * rewrite leaf_texts_app, Eh, E2. apply splits_spec. exact Hp.
Qed.

Lemma one_leaf_inv r ok w x : In x (one_leaf r ok w) -> exists t, w = [t] /\ ok t = true /\ x = [Leaf r t].
Proof.
unfold one_leaf. destruct w as [|t [|]]; try (intros []).
destruct (ok t) eqn:E; [|intros []]. intros [<- | []]. eauto.
Qed.

Lemma in_map_wrap (g : list tree -> list tree) o l ts :
option_map (map g) o = Some l -> In ts l -> exists l' ts', o = Some l' /\ In ts' l' /\ ts = g ts'.
Proof.
destruct o as [l'|]; simpl; [|discriminate]. intros [= <-] H.
apply in_map_iff in H as [ts' [<- H]]. eauto.
Qed.

(** Every result of the search is a derivation of the token sequence. *)
Theorem enum_sound fuel : sound (enum tb fuel).
Proof.
induction fuel as [|k IH]; intros r w l ts H Hin; [discriminate|].
change (enum tb (S k) r w) with
  (if negb (quick tb r w) then Some [] else enum_body tb (enum tb k) r w) in H.
destruct (negb (quick tb r w)); [injection H as <-; destruct Hin|].
destruct r; cbv beta iota delta [enum_body] in H.
- injection H as <-. destruct w; [|destruct Hin]. destruct Hin as [<- | []].
  split; [constructor | reflexivity].
- injection H as <-. apply one_leaf_inv in Hin as (t & -> & E & ->).
  apply String.eqb_eq in E. subst t. split; [constructor | reflexivity].
- injection H as <-. apply one_leaf_inv in Hin as (t & -> & E & ->).
  split; [constructor; assumption | reflexivity].
- apply opt_app_some in H as (x & y & Ex & Ey & ->). injection Ex as <-.
  apply in_app_or in Hin as [Hin | Hin].
  + destruct (is_external name) eqn:Ee; [|destruct Hin].
    apply one_leaf_inv in Hin as (t & -> & _ & ->).
    split; [apply d_ext; assumption | reflexivity].
  + destruct (rule_of name) as [body|] eqn:Er; [|injection Ey as <-; destruct Hin].
    destruct (in_map_wrap _ _ _ _ Ey Hin) as (l' & ts' & El & I & ->).
    destruct (IH _ _ _ _ El I) as [D E]. split.
    * eapply d_sym; eauto.
    * rewrite leaf_texts_node. exact E.
- destruct (enum_seq_sound _ IH _ _ _ _ H Hin). split; auto. constructor; assumption.
- destruct (enum_alt_sound _ IH _ _ _ _ H Hin). split; auto. constructor; assumption.
- destruct (can (t_nul tb) [] r); [discriminate|].
  destruct (enum_rep_sound _ r IH _ _ _ _ H Hin). split; auto. constructor; assumption.
- destruct (can (t_nul tb) [] r); [discriminate|].
  destruct w as [|x0 w0]; [injection H as <-; destruct Hin|].
  destruct (enum_rep_sound _ r IH _ _ _ _ H Hin) as [D E]. split; auto.
  inversion D; subst.
  + discriminate.
  + constructor; assumption.
- destruct (IH _ _ _ _ H Hin). split; auto. constructor; assumption.
- destruct (IH _ _ _ _ H Hin). split; auto. constructor; assumption.
- destruct (IH _ _ _ _ H Hin). split; auto. constructor; assumption.
- destruct (IH _ _ _ _ H Hin). split; auto. constructor; assumption.
- injection H as <-. apply one_leaf_inv in Hin as (t & -> & E & ->).
  split; [constructor; assumption | reflexivity].
- destruct (in_map_wrap _ _ _ _ H Hin) as (l' & ts' & El & I & ->).
  destruct (IH _ _ _ _ El I) as [D E]. split.
  + constructor; assumption.
  + rewrite leaf_texts_field. exact E.
- destruct (in_map_wrap _ _ _ _ H Hin) as (l' & ts' & El & I & ->).
  destruct (IH _ _ _ _ El I) as [D E]. split.
  + constructor; assumption.
  + rewrite leaf_texts_alias. exact E.
Qed.
End Sound.

End SearchFacts.

(* ================================================================== *)
(** * The precedence table                                             *)
(* ================================================================== *)

(** C3, as stated: the table does not have sixteen levels. *)
Lemma C3_not_sixteen_levels : List.length precedence_levels <> 16.
Proof. vm_compute. discriminate. Qed.

(** C3, amended: the precedence table defines exactly seventeen levels,
    numbered 16 (postfix operators, tightest) down to 0 (lambda literals,
    return/throw and comments, loosest); every key of the table belongs to
    one of the seventeen groups, each group sits at one level, and the
    groups descend one level at a time in the listed order. *)
Theorem C3_seventeen_levels :
  List.length precedence_levels = 17 /\
  precedence_levels = [16; 15; 14; 13; 12; 11; 10; 9; 8; 7; 6; 5; 4; 3; 2; 1; 0]%Z /\
  List.length precedence_groups = 17 /\
  List.concat precedence_groups = map fst PREC.entries /\
  groups_descend PREC.POSTFIX precedence_groups = true /\
  level_of "POSTFIX" = Some 16%Z /\
  level_of "LAMBDA_LITERAL" = Some 0%Z /\
  level_of "RETURN_OR_THROW" = Some 0%Z /\
  level_of "COMMENT" = Some 0%Z.
Proof. repeat split; vm_compute; reflexivity. Qed.

(* ================================================================== *)
(** * Lexical facts: literals and string text                          *)
(* ================================================================== *)

Module LexFacts.
Local Open Scope string_scope.

Lemma matches_cat_eq a b u v w :
matches a u -> matches b v -> w = u ++ v -> matches (Cat a b) w.
Proof. intros Ha Hb ->. constructor; assumption. Qed.

Lemma all_chars_app f u v :
all_chars f (u ++ v) = all_chars f u && all_chars f v.
Proof. induction u; simpl; auto. rewrite IHu, andb_assoc. reflexivity. Qed.

Lemma star_class neg rs w :
all_chars (in_class neg rs) w = true <-> matches (Star (Cls neg rs)) w.
Proof.
split.
- induction w as [|c w IH]; simpl; intros H.
  + constructor.
  + apply andb_true_iff in H as [Hc Hw].
    change (String c w) with (String c "" ++ w).
    constructor; [constructor; assumption | auto].
- intros H. remember (Star (Cls neg rs)) as r eqn:E.
  induction H; try discriminate; auto.
  injection E as ->. rewrite all_chars_app, IHmatches2 by reflexivity.
  inversion H; subst. simpl. rewrite H4. reflexivity.
Qed.

Lemma plus_class neg rs w :
(w <> "" /\ all_chars (in_class neg rs) w = true) <-> matches (Plus (Cls neg rs)) w.
Proof.
unfold Plus. split.
- intros [Hne H]. destruct w as [|c w]; [congruence|]. simpl in H.
  apply andb_true_iff in H as [Hc Hw].
  change (String c w) with (String c "" ++ w).
  constructor; [constructor; assumption | apply star_class; assumption].
- intros H. inversion H; subst.
  match goal with X : matches (Cls _ _) _ |- _ => inversion X; subst end.
  simpl. split; [discriminate|].
  match goal with X : in_class _ _ _ = true |- _ => rewrite X end.
  apply star_class. assumption.
Qed.

Lemma all_chars_impl (f g : ascii -> bool) w :
(forall c, f c = true -> g c = true) -> all_chars f w = true -> all_chars g w = true.
Proof.
intros I. induction w as [|c w IH]; simpl; auto.
intros H. apply andb_true_iff in H as [Hc Hw]. rewrite (I _ Hc), IH; auto.
Qed.

(** A text run of a line string holds no [$], no quote and no backslash. *)
Lemma line_str_text_chars w :
re_match (token_re "_line_str_text") w = true ->
w <> "" /\ has_char "$" w = false /\ has_char DQ w = false /\ has_char BSL w = false.
Proof.
intros H. apply re_match_correct in H.
change (token_re "_line_str_text")
  with (Plus (Cls true [(BSL, BSL); (DQ, DQ); ("$"%char, "$"%char)])) in H.
apply plus_class in H as [Hne H]. split; [assumption|].
unfold has_char. repeat split; apply negb_false_iff;
  (eapply all_chars_impl; [|exact H]); intros c Hc;
  apply negb_true_iff; destruct (Ascii.eqb_spec c "$"), (Ascii.eqb_spec c DQ),
    (Ascii.eqb_spec c BSL); subst; try reflexivity; try discriminate.
Qed.

(** A text run of a multi-line string holds no [$] and no quote. *)
Lemma multi_line_str_text_chars w :
re_match (token_re "_multi_line_str_text") w = true ->
w <> "" /\ has_char "$" w = false /\ has_char DQ w = false.
Proof.
intros H. apply re_match_correct in H.
change (token_re "_multi_line_str_text")
  with (Plus (Cls true [(DQ, DQ); ("$"%char, "$"%char)])) in H.
apply plus_class in H as [Hne H]. split; [assumption|].
unfold has_char. repeat split; apply negb_false_iff;
  (eapply all_chars_impl; [|exact H]); intros c Hc;
  apply negb_true_iff; destruct (Ascii.eqb_spec c "$"), (Ascii.eqb_spec c DQ);
    subst; try reflexivity; try discriminate.
Qed.

(** No text that starts with the character [c] matches [r] when the
  derivative of [r] by [c] is dead. *)
Lemma dead_start r c w : simp (deriv c r) = Void -> re_match r (String c w) = false.
Proof. intros H. simpl. rewrite H. apply re_match_void. Qed.

(** Numeric literal tokens never start with a sign. *)
Lemma literal_no_sign n c w :
In n ["real_literal"; "integer_literal"; "hex_literal"; "bin_literal"] ->
c = "+"%char \/ c = "-"%char ->
re_match (token_re n) (String c w) = false.
Proof.
intros Hn Hc. apply dead_start.
simpl in Hn. destruct Hc; subst c;
  repeat (destruct Hn as [<- | Hn]; [vm_compute; reflexivity|]); destruct Hn.
Qed.

(** Every non-empty string of decimal digits is an integer literal. *)
Lemma digits_are_integer_literal w :
w <> "" -> all_chars is_digit w = true ->
re_match (token_re "integer_literal") w = true.
Proof.
intros Hne Hd. apply re_match_correct.
set (D := Cls false [("0"%char, "9"%char)]).
set (U := Cls false [("_"%char, "_"%char)]).
change (token_re "integer_literal")
  with (Cat (Alt (Cls false [("1"%char, "9"%char)]) (Alt Eps Void))
          (Cat (Cat (Plus D) (Cat (Star (Cat (Plus U) (Cat (Plus D) Eps))) Eps)) Eps)).
apply matches_cat_eq with (u := "") (v := w); [| | reflexivity].
- apply m_alt_r, m_alt_l. constructor.
- apply matches_cat_eq with (u := w) (v := ""); [| constructor | symmetry; apply append_nil_r].
  apply matches_cat_eq with (u := w) (v := ""); [| | symmetry; apply append_nil_r].
  + apply plus_class. split; assumption.
  + change "" with ("" ++ ""). constructor; constructor.
Qed.

End LexFacts.
Import LexFacts.

(* ================================================================== *)
(** * Generics against comparison                                      *)
(* ================================================================== *)

Import SearchFacts.

Section RuleInd.
Variable P : rule -> Prop.
Hypothesis HBlank : P Blank.
Hypothesis HStr : forall s, P (Str s).
Hypothesis HPat : forall p, P (Pat p).
Hypothesis HSym : forall n, P (Sym n).
Hypothesis HSeq : forall rs, Forall P rs -> P (Seq rs).
Hypothesis HChoice : forall rs, Forall P rs -> P (Choice rs).
Hypothesis HRepeat : forall r, P r -> P (Repeat r).
Hypothesis HRepeat1 : forall r, P r -> P (Repeat1 r).
Hypothesis HPrec : forall p r, P r -> P (Prec p r).
Hypothesis HPrecLeft : forall p r, P r -> P (PrecLeft p r).
Hypothesis HPrecRight : forall p r, P r -> P (PrecRight p r).
Hypothesis HPrecDynamic : forall p r, P r -> P (PrecDynamic p r).
Hypothesis HToken : forall r, P r -> P (Token r).
Hypothesis HField : forall f r, P r -> P (Field f r).
Hypothesis HAlias : forall r n, P r -> P (Alias r n).

Fixpoint rule_ind_nested (r : rule) : P r :=
  match r with
  | Blank => HBlank
  | Str s => HStr s
  | Pat p => HPat p
  | Sym n => HSym n
  | Seq rs =>
      HSeq rs ((fix go (l : list rule) : Forall P l :=
                  match l with
                  | [] => Forall_nil P
                  | x :: l' => Forall_cons x (rule_ind_nested x) (go l')
                  end) rs)
  | Choice rs =>
      HChoice rs ((fix go (l : list rule) : Forall P l :=
                     match l with
                     | [] => Forall_nil P
                     | x :: l' => Forall_cons x (rule_ind_nested x) (go l')
                     end) rs)
  | Repeat x => HRepeat x (rule_ind_nested x)
  | Repeat1 x => HRepeat1 x (rule_ind_nested x)
  | Prec p x => HPrec p x (rule_ind_nested x)
  | PrecLeft p x => HPrecLeft p x (rule_ind_nested x)
  | PrecRight p x => HPrecRight p x (rule_ind_nested x)
  | PrecDynamic p x => HPrecDynamic p x (rule_ind_nested x)
  | Token x => HToken x (rule_ind_nested x)
  | Field f x => HField f x (rule_ind_nested x)
  | Alias x n => HAlias x n (rule_ind_nested x)
  end.
End RuleInd.

Section TreeInd.
Variable P : tree -> Prop.
Hypothesis HLeaf : forall r w, P (Leaf r w).
Hypothesis HNode : forall n ts, Forall P ts -> P (Node n ts).
Hypothesis HField : forall n ts, Forall P ts -> P (FieldT n ts).
Hypothesis HAlias : forall n ts, Forall P ts -> P (AliasT n ts).

Fixpoint tree_ind_nested (t : tree) : P t :=
  let go := fix go (l : list tree) : Forall P l :=
              match l with
              | [] => Forall_nil P
              | x :: l' => Forall_cons x (tree_ind_nested x) (go l')
              end in
  match t with
  | Leaf r w => HLeaf r w
  | Node n ts => HNode n ts (go ts)
  | FieldT n ts => HField n ts (go ts)
  | AliasT n ts => HAlias n ts (go ts)
  end.
End TreeInd.

Lemma list_eqb_eq (X : Type) (eqb : X -> X -> bool) xs :
  Forall (fun x => forall y, eqb x y = true -> x = y) xs ->
  forall ys, list_eqb eqb xs ys = true -> xs = ys.
Proof.
  induction 1 as [|x xs Hx _ IH]; intros [|y ys]; simpl; intros H; try discriminate; auto.
  apply andb_true_iff in H as [H1 H2]. f_equal; auto.
Qed.

Lemma range_eqb_eq a b : range_eqb a b = true -> a = b.
Proof.
  destruct a, b. unfold range_eqb; simpl. intros H.
  apply andb_true_iff in H as [H1 H2].
  apply Ascii.eqb_eq in H1, H2. congruence.
Qed.

Lemma re_eqb_eq a : forall b, re_eqb a b = true -> a = b.
Proof.
  induction a; intros b; destruct b; simpl; intros H; try discriminate; auto.
  - apply andb_true_iff in H as [H1 H2]. apply Bool.eqb_prop in H1.
    apply list_eqb_eq in H2; [congruence|].
    apply Forall_forall. intros x _ y. apply range_eqb_eq.
  - apply andb_true_iff in H as [H1 H2]. f_equal; auto.
  - apply andb_true_iff in H as [H1 H2]. f_equal; auto.
  - f_equal; auto.
Qed.

Lemma rule_eqb_eq a : forall b, rule_eqb a b = true -> a = b.
Proof.
  induction a using rule_ind_nested; intros b; destruct b; simpl; intros E;
    try discriminate; auto;
    try (apply andb_true_iff in E as [E1 E2]);
    repeat match goal with
    | X : String.eqb _ _ = true |- _ => apply String.eqb_eq in X
    | X : Z.eqb _ _ = true |- _ => apply Z.eqb_eq in X
    | X : re_eqb _ _ = true |- _ => apply re_eqb_eq in X
    | X : list_eqb rule_eqb _ _ = true |- _ => apply list_eqb_eq in X; [|assumption]
    end; subst; f_equal; auto.
Qed.

Lemma tree_eqb_eq a : forall b, tree_eqb a b = true -> a = b.
Proof.
  induction a using tree_ind_nested; intros b; destruct b; simpl; intros E;
    try discriminate; apply andb_true_iff in E as [E1 E2];
    repeat match goal with
    | X : String.eqb _ _ = true |- _ => apply String.eqb_eq in X
    | X : rule_eqb _ _ = true |- _ => apply rule_eqb_eq in X
    | X : list_eqb tree_eqb _ _ = true |- _ => apply list_eqb_eq in X; [|assumption]
    end; subst; reflexivity.
Qed.

Lemma forest_eqb_eq a b : forest_eqb a b = true -> a = b.
Proof.
  unfold forest_eqb. apply list_eqb_eq. apply Forall_forall. intros x _. apply tree_eqb_eq.
Qed.

(** Deciding a question about all derivations of a token sequence by
    search: the tables are checked, the search is run, and every
    derivation is among its results. *)
Lemma check_all_sound rounds fuel start w P :
  check_all rounds fuel start w P = true ->
  forall ts, derive start ts -> leaf_texts ts = w -> P ts = true.
Proof.
  unfold check_all. intros H ts D E.
  apply andb_true_iff in H as [Htb H].
  destruct (enum _ fuel start w) as [l|] eqn:He; [|discriminate].
  rewrite forallb_forall in H. apply H.
  apply (enum_complete _ Htb fuel start w l He); auto.
  unfold in_alpha. apply Forall_forall. intros x Hx.
  change (t_alpha (build_tables rounds (nodup string_dec w))) with (nodup string_dec w).
  apply nodup_In. exact Hx.
Qed.

Lemma check_some_sound rounds fuel start w P :
  check_some rounds fuel start w P = true ->
  exists ts, derive start ts /\ leaf_texts ts = w /\ P ts = true.
Proof.
  unfold check_some. intros H.
  destruct (enum _ fuel start w) as [l|] eqn:He; [|discriminate].
  apply existsb_exists in H as [ts [Hin HP]]. exists ts.
  destruct (enum_sound _ fuel _ _ _ _ He Hin). auto.
Qed.

(** A given sequence of trees is a derivation when the search finds it. *)
Lemma derive_by_search rounds fuel start ts :
  check_some rounds fuel start (leaf_texts ts) (is_forest ts) = true ->
  derive start ts.
Proof.
  intros H. apply check_some_sound in H as (us & D & _ & E).
  apply forest_eqb_eq in E. subst us. exact D.
Qed.

Lemma left_chain_unique ts :
  derive (Sym "expression_") ts -> leaf_texts ts = foo_lt_b_gt_c ->
  forallb conforms ts = true -> ts = [left_chain].
Proof.
  intros D E C. apply forest_eqb_eq.
  assert (H : check_all 16 100 (Sym "expression_") foo_lt_b_gt_c
                (fun ts => implb (forallb conforms ts) (is_forest [left_chain] ts)) = true)
    by (vm_cast_no_check (eq_refl true)).
  pose proof (check_all_sound _ _ _ _ _ H ts D E) as R. simpl in R.
  rewrite C in R. exact R.
Qed.

(** Inversion of a derivation along the constructors of its rule.  A
    symbol is only opened on request, by name. *)
Ltac inv_step :=
  match goal with
  | H : derive Blank _ |- _ => inversion H; clear H; subst
  | H : derive (Str _) _ |- _ => inversion H; clear H; subst
  | H : derive (Pat _) _ |- _ => inversion H; clear H; subst
  | H : derive (Token _) _ |- _ => inversion H; clear H; subst
  | H : derive (Seq _) _ |- _ => inversion H; clear H; subst
  | H : derive (Choice _) _ |- _ => inversion H; clear H; subst
  | H : derive (Prec _ _) _ |- _ => inversion H; clear H; subst
  | H : derive (PrecLeft _ _) _ |- _ => inversion H; clear H; subst
  | H : derive (PrecRight _ _) _ |- _ => inversion H; clear H; subst
  | H : derive (PrecDynamic _ _) _ |- _ => inversion H; clear H; subst
  | H : derive (Field _ _) _ |- _ => inversion H; clear H; subst
  | H : derive (Alias _ _) _ |- _ => inversion H; clear H; subst
  | H : derive (Repeat1 _) _ |- _ => inversion H; clear H; subst
  | H : derive (Repeat _) _ |- _ => inversion H; clear H; subst
  | H : derive_seq [] _ |- _ => inversion H; clear H; subst
  | H : derive_seq (_ :: _) _ |- _ => inversion H; clear H; subst
  | H : derive_alt [] _ |- _ => inversion H
  | H : derive_alt (_ :: _) _ |- _ => inversion H; clear H; subst
  end.

Ltac inv_all := repeat inv_step.

Ltac open_sym n :=
  match goal with
  | H : derive (Sym n) _ |- _ =>
      inversion H; clear H; subst;
      [ match goal with R : rule_of n = Some _ |- _ =>
          vm_compute in R; injection R as <- end
      | match goal with X : is_external n = true |- _ =>
          vm_compute in X; discriminate X end ]
  end.

Lemma leaf_texts_cons_leaf r w ts : leaf_texts (Leaf r w :: ts) = w :: leaf_texts ts.
Proof. reflexivity. Qed.

Lemma leaf_texts_cons_node n cs ts :
  leaf_texts (Node n cs :: ts) = leaf_texts cs ++ leaf_texts ts.
Proof. change (Node n cs :: ts) with ([Node n cs] ++ ts). rewrite leaf_texts_app, leaf_texts_node. reflexivity. Qed.

(** Value arguments open with a parenthesis, a lambda literal with a
    brace. *)
Lemma value_arguments_open ts :
  derive (Sym "value_arguments") ts ->
  exists cs, ts = [Node "value_arguments" (tok "(" :: cs)].
Proof. intros D. open_sym "value_arguments". inv_all; eexists; reflexivity. Qed.

Lemma lambda_literal_open ts :
  derive (Sym "lambda_literal") ts ->
  exists cs, ts = [Node "lambda_literal" (tok "{" :: cs)].
Proof. intros D. open_sym "lambda_literal". inv_all; eexists; reflexivity. Qed.

Lemma sym_node n ts :
  derive (Sym n) ts -> is_external n = false -> exists cs, ts = [Node n cs].
Proof.
  intros D E. inversion D; subst.
  - eexists; reflexivity.
  - congruence.
Qed.

Lemma annotated_lambda_node ts :
  derive (Sym "annotated_lambda") ts ->
  exists cs, ts = [Node "annotated_lambda" cs] /\ In "{" (leaf_texts cs).
Proof.
  intros D. open_sym "annotated_lambda". inv_all;
    match goal with H : derive (Sym "lambda_literal") _ |- _ =>
      apply lambda_literal_open in H as [cs ->] end;
    (eexists; split; [reflexivity|]);
    rewrite !leaf_texts_app; apply in_or_app; right;
    apply in_or_app; right; apply in_or_app; left;
    rewrite leaf_texts_node; left; reflexivity.
Qed.

(** A call suffix: optional type arguments, then value arguments (an open
    parenthesis) or an annotated lambda (which holds an open brace). *)
Lemma call_suffix_shape ts :
  derive (Sym "call_suffix") ts ->
  exists targs first rest,
    ts = [Node "call_suffix" (targs ++ first :: rest)] /\
    (targs = [] \/ exists ta, targs = [Node "type_arguments" ta]) /\
    (exists cs, first = Node "value_arguments" (tok "(" :: cs) \/
                (first = Node "annotated_lambda" cs /\ In "{" (leaf_texts cs))).
Proof.
  intros D. open_sym "call_suffix". inv_all;
    repeat match goal with
    | H : derive (Sym "type_arguments") _ |- _ =>
        apply sym_node in H as [? ->]; [|reflexivity]
    | H : derive (Sym "value_arguments") _ |- _ =>
        apply value_arguments_open in H as [? ->]
    | H : derive (Sym "annotated_lambda") _ |- _ =>
        apply annotated_lambda_node in H as [? [-> ?]]
    end; simpl;
    match goal with
    | |- exists targs first rest, [Node _ (Node "type_arguments" ?a :: ?f :: ?r)] = _ /\ _ =>
        exists [Node "type_arguments" a], f, r
    | |- exists targs first rest, [Node _ (?f :: ?r)] = _ /\ _ =>
        exists [], f, r
    end; (split; [reflexivity|]); split; eauto.
Qed.

Lemma call_suffix_leaf ts :
  derive (Sym "call_suffix") ts -> In "(" (leaf_texts ts) \/ In "{" (leaf_texts ts).
Proof.
  intros D.
  apply call_suffix_shape in D as (targs & first & rest & -> & _ & [cs [-> | [-> Hb]]]);
    [left | right]; rewrite leaf_texts_node, leaf_texts_app; apply in_or_app; right.
  - left. reflexivity.
  - rewrite leaf_texts_cons_node. apply in_or_app. left. exact Hb.
Qed.

(** Whoever holds a call node holds an open parenthesis or an open brace
    among its leaves. *)
Lemma call_needs_suffix_all :
  let P := fun ts => existsb (has_node "call") ts = true ->
                     In "(" (leaf_texts ts) \/ In "{" (leaf_texts ts) in
  (forall r ts, derive r ts -> P ts) /\
  (forall rs ts, derive_seq rs ts -> P ts) /\
  (forall rs ts, derive_alt rs ts -> P ts) /\
  (forall r ts, derive_rep r ts -> P ts).
Proof.
  intros P.
  assert (Happ : forall ts us, P ts -> P us -> P (ts ++ us)).
  { unfold P. intros ts us Ht Hu H. rewrite existsb_app in H. rewrite leaf_texts_app.
    apply orb_true_iff in H as [H | H]; [apply Ht in H | apply Hu in H];
      destruct H; [left | right | left | right]; apply in_or_app; auto. }
  assert (Hwrap : forall t ts, (existsb (has_node "call") [t] = existsb (has_node "call") ts) ->
                  leaf_texts [t] = leaf_texts ts -> P ts -> P [t]).
  { unfold P. intros t ts E1 E2 Ht H. rewrite E1 in H. rewrite E2. auto. }
  apply derive_mutind; auto; try (unfold P; simpl; discriminate).
  - intros n r ts Hr D IH. unfold P. intros H. rewrite leaf_texts_node.
    simpl in H. rewrite orb_false_r in H.
    destruct (String.eqb_spec n "call") as [-> | Hn].
    + vm_compute in Hr. injection Hr as <-. inv_all.
      match goal with X : derive (Sym "call_suffix") _ |- _ =>
        apply call_suffix_leaf in X; rewrite !leaf_texts_app; destruct X; [left | right];
        apply in_or_app; right; apply in_or_app; left; assumption end.
    + simpl in H. auto.
  - intros f r ts D IH. apply (Hwrap _ ts); auto.
    + simpl. apply orb_false_r.
    + apply leaf_texts_field.
  - intros r n ts D IH. apply (Hwrap _ ts); auto.
    + simpl. apply orb_false_r.
    + apply leaf_texts_alias.
Qed.

Lemma call_needs_suffix r ts :
  derive r ts -> has_text "(" ts = false -> has_text "{" ts = false ->
  existsb (has_node "call") ts = false.
Proof.
  intros D H1 H2. destruct (existsb (has_node "call") ts) eqn:E; [|reflexivity].
  apply (proj1 call_needs_suffix_all r ts D) in E.
  unfold has_text in *. destruct E as [E | E]; apply mem_In in E; congruence.
Qed.

(** C1, as stated, fails: the grammar yields a generic-argument call for
    [foo < b > { }], where no value-argument parenthesis follows the [>],
    with all declared precedences respected; and [foo < * > { }] has no
    reading but the generic-argument call. *)
Lemma C1_generic_call_without_parentheses :
  (exists ts, derive (Sym "expression_") ts /\ leaf_texts ts = foo_lt_b_gt_lambda /\
     (existsb has_generic_call ts && forallb conforms ts && negb (has_text "(" ts)) = true) /\
  (exists ts, derive (Sym "expression_") ts /\ leaf_texts ts = foo_lt_star_gt_lambda) /\
  (forall ts, derive (Sym "expression_") ts -> leaf_texts ts = foo_lt_star_gt_lambda ->
     (existsb has_generic_call ts && negb (existsb (has_node "comparison_expression") ts)
      && negb (has_text "(" ts)) = true).
Proof.
  split; [|split].
  - apply (check_some_sound 16 100). vm_cast_no_check (eq_refl true).
  - destruct (check_some_sound 16 100 (Sym "expression_") foo_lt_star_gt_lambda (fun _ => true))
      as (ts & D & E & _); [vm_cast_no_check (eq_refl true) | eauto].
  - apply (check_all_sound 16 100). vm_cast_no_check (eq_refl true).
Qed.

(** C1, amended: for the tokens [foo < b > c] the only derivation that
    respects the declared precedences is the left-associative comparison
    chain, whose left operand is the comparison [foo < b]; no derivation of
    these tokens, from any rule, holds a call node.  In general a call
    suffix with type arguments continues, right after them, with
    value-argument parentheses or with an annotated lambda, so a tree
    without an open parenthesis or brace among its leaves holds no call;
    the grammar declares call and comparison as conflicting and gives
    neither a static preference. *)
Theorem C1_comparison_unless_call_suffix :
  (derive (Sym "expression_") [left_chain] /\
   leaf_texts [left_chain] = foo_lt_b_gt_c /\
   conforms left_chain = true /\ conforms right_chain = false) /\
  (forall ts, derive (Sym "expression_") ts -> leaf_texts ts = foo_lt_b_gt_c ->
     forallb conforms ts = true -> ts = [left_chain]) /\
  (forall r ts, derive r ts -> leaf_texts ts = foo_lt_b_gt_c ->
     existsb (has_node "call") ts = false) /\
  (forall r ts, derive r ts -> has_text "(" ts = false -> has_text "{" ts = false ->
     existsb (has_node "call") ts = false) /\
  (forall ts, derive (Sym "call_suffix") ts ->
     exists targs first rest,
       ts = [Node "call_suffix" (targs ++ first :: rest)] /\
       (targs = [] \/ exists ta, targs = [Node "type_arguments" ta]) /\
       (exists cs, first = Node "value_arguments" (tok "(" :: cs) \/
                   (first = Node "annotated_lambda" cs /\ In "{" (leaf_texts cs)))) /\
  In ["call"; "prefix_expression"; "comparison_expression"] conflicts /\
  In ["type_arguments"; "_comparison_operator"] conflicts.
Proof.
  split; [|split; [|split; [|split; [|split; [|split]]]]].
  - split; [|split; [|split]]; try (vm_compute; reflexivity).
    apply (derive_by_search 16 100). vm_cast_no_check (eq_refl true).
  - apply left_chain_unique.
  - intros r ts D E. apply (call_needs_suffix r ts D); unfold has_text; rewrite E; reflexivity.
  - apply call_needs_suffix.
  - apply call_suffix_shape.
  - vm_compute. tauto.
  - vm_compute. tauto.
Qed.

Lemma C1_witness :
  derive (Sym "expression_") [left_chain] /\
  leaf_texts [left_chain] = foo_lt_b_gt_c /\
  forallb conforms [left_chain] = true /\
  [left_chain] = [left_chain] /\
  existsb (has_node "call") [left_chain] = false.
Proof.
  destruct C1_comparison_unless_call_suffix as [[D [E [C _]]] [U [N _]]].
  split; [exact D|]. split; [exact E|].
  assert (C' : forallb conforms [left_chain] = true) by (unfold forallb; rewrite C; reflexivity).
  split; [exact C'|]. split.
  - exact (U [left_chain] D E C').
  - exact (N (Sym "expression_") [left_chain] D E).
Defined.

(* ================================================================== *)
(** * Associativity                                                    *)
(* ================================================================== *)

(** An expression node holds a primary, a unary or a binary expression:
    never an assignment. *)
Lemma expression_kinds ts :
  derive (Sym "expression_") ts ->
  exists k cs, ts = [Node "expression_" [Node k cs]] /\
    In k ["primary_expression_"; "_unary_expression"; "_binary_expression"].
Proof.
  intros D. open_sym "expression_". inv_all;
    match goal with H : derive (Sym _) _ |- _ =>
      apply sym_node in H as [cs ->]; [|reflexivity] end;
    do 2 eexists; (split; [reflexivity|]); simpl; tauto.
Qed.

Lemma assignment_value_is_expression ts :
  derive (Sym "assignment_value") ts ->
  exists k cs, ts = [Node "assignment_value" [Node "expression_" [Node k cs]]] /\
    In k ["primary_expression_"; "_unary_expression"; "_binary_expression"].
Proof.
  intros D. open_sym "assignment_value".
  match goal with H : derive (Sym "expression_") _ |- _ =>
    apply expression_kinds in H as (k & cs & -> & Hk) end.
  eauto.
Qed.

(** Nesting a binary form at its own level on the right goes against its
    declared left associativity. *)
Lemma right_nesting_rejected n p l op l2 op2 r2 :
  In (n, p) binary_rules ->
  conforms (Node n [l; op;
                    Node "expression_" [Node "_binary_expression"
                      [Node n [Node "expression_" l2; op2; r2]]]]) = false.
Proof.
  intros H.
  assert (R : node_prec n = Some (AssocLeft, p) /\
              right_ok AssocLeft p
                [l; op; Node "expression_" [Node "_binary_expression"
                      [Node n [Node "expression_" l2; op2; r2]]]] = false).
  { simpl in H.
    repeat (destruct H as [[= <- <-] | H];
            [split; [reflexivity|];
             unfold right_ok, last_operand; simpl; reflexivity|]).
    destruct H. }
  destruct R as [R1 R2]. cbn [conforms]. rewrite R1, R2, andb_false_r. reflexivity.
Qed.

(** C2, as stated, fails: assignment is declared left-associative, and the
    chained assignment [a = b = c] has no derivation at all, as a statement
    or as an assignment, so no tree nests to the right. *)
Lemma C2_assignment_not_right_associative :
  map rule_prec (alternatives "assignment")
    = [Some (AssocLeft, PREC.ASSIGNMENT); Some (AssocLeft, PREC.ASSIGNMENT)] /\
  (forall ts, derive (Sym "statement_") ts -> leaf_texts ts <> chained_assignment) /\
  (forall ts, derive (Sym "assignment") ts -> leaf_texts ts <> chained_assignment).
Proof.
  split; [reflexivity|]. split; intros ts D E.
  - assert (H : check_all 16 100 (Sym "statement_") chained_assignment (fun _ => false) = true)
      by (vm_cast_no_check (eq_refl true)).
    pose proof (check_all_sound _ _ _ _ _ H ts D E). discriminate.
  - assert (H : check_all 16 100 (Sym "assignment") chained_assignment (fun _ => false) = true)
      by (vm_cast_no_check (eq_refl true)).
    pose proof (check_all_sound _ _ _ _ _ H ts D E). discriminate.
Qed.

(** C2, amended: every binary arithmetic, logical and comparison form is
    declared left-associative at its level and groups to the left (a
    nesting to the right at the same level is rejected; [a - b - c] has the
    left-nested tree as its only conforming derivation); prefix-unary
    expressions are declared right-associative and nest to the right;
    assignment is declared left-associative and does not compose: its value
    is an expression, and no expression is an assignment. *)
Theorem C2_associativity :
  (forall n p, In (n, p) binary_rules -> node_prec n = Some (AssocLeft, p)) /\
  incl (map fst binary_rules) (sym_names (alternatives "_binary_expression")) /\
  incl (sym_names (alternatives "_binary_expression")) (map fst binary_rules) /\
  (forall n p l op l2 op2 r2, In (n, p) binary_rules ->
     conforms (Node n [l; op;
                       Node "expression_" [Node "_binary_expression"
                         [Node n [Node "expression_" l2; op2; r2]]]]) = false) /\
  (forall ts, derive (Sym "expression_") ts -> leaf_texts ts = a_minus_b_minus_c ->
     forallb conforms ts = true ->
     ts = [additive (additive (primary (ident "a")) "-" (primary (ident "b")))
                    "-" (primary (ident "c"))]) /\
  node_prec "prefix_expression" = Some (AssocRight, 0%Z) /\
  (forall ts, derive (Sym "expression_") ts -> leaf_texts ts = minus_minus_a ->
     ts = [prefixed "-" (prefixed "-" (primary (ident "a")))]) /\
  map rule_prec (alternatives "assignment")
    = [Some (AssocLeft, PREC.ASSIGNMENT); Some (AssocLeft, PREC.ASSIGNMENT)] /\
  (forall ts, derive (Sym "assignment_value") ts ->
     exists k cs, ts = [Node "assignment_value" [Node "expression_" [Node k cs]]] /\
       In k ["primary_expression_"; "_unary_expression"; "_binary_expression"]).
Proof.
  split; [|split; [|split; [|split; [|split; [|split; [|split; [|split]]]]]]].
  - intros n p H. simpl in H.
    repeat (destruct H as [[= <- <-] | H]; [reflexivity|]). destruct H.
  - intros x H. vm_compute in H. vm_compute. tauto.
  - intros x H. vm_compute in H. vm_compute. tauto.
  - intros. apply right_nesting_rejected with (p := p). assumption.
  - intros ts D E C. apply forest_eqb_eq.
    assert (H : check_all 16 100 (Sym "expression_") a_minus_b_minus_c
                  (fun ts => implb (forallb conforms ts)
                     (is_forest [additive (additive (primary (ident "a")) "-"
                                   (primary (ident "b"))) "-" (primary (ident "c"))] ts)) = true)
      by (vm_cast_no_check (eq_refl true)).
    pose proof (check_all_sound _ _ _ _ _ H ts D E) as R. simpl in R.
    rewrite C in R. exact R.
  - reflexivity.
  - intros ts D E. apply forest_eqb_eq.
    assert (H : check_all 16 100 (Sym "expression_") minus_minus_a
                  (is_forest [prefixed "-" (prefixed "-" (primary (ident "a")))]) = true)
      by (vm_cast_no_check (eq_refl true)).
    exact (check_all_sound _ _ _ _ _ H ts D E).
  - reflexivity.
  - apply assignment_value_is_expression.
Qed.

Lemma C2_witness :
  In ("additive_expression", PREC.ADDITIVE) binary_rules /\
  node_prec "additive_expression" = Some (AssocLeft, PREC.ADDITIVE).
Proof.
  assert (H : In ("additive_expression", PREC.ADDITIVE) binary_rules) by (simpl; auto).
  split; [exact H|].
  exact (proj1 C2_associativity "additive_expression" PREC.ADDITIVE H).
Defined.

(* ================================================================== *)
(** * Placeholder fields                                               *)
(* ================================================================== *)

(** Both alternatives of [optional_with_placeholder] are the field. *)
Lemma optional_with_placeholder_field f r ts :
  derive (optional_with_placeholder f r) ts ->
  exists cs, ts = [FieldT f cs] /\ (derive r cs \/ cs = []).
Proof.
  unfold optional_with_placeholder. intros D. inv_all; eexists; split; eauto.
Qed.

Lemma always_field_sound f r :
  always_field f r = true -> forall ts, derive r ts -> exists cs, In (FieldT f cs) ts.
Proof.
  induction r as [ | | | | rs IH | rs IH | | r IH | p r IH | p r IH | p r IH | p r IH
                 | | g r IH | ] using rule_ind_nested;
    simpl; intros H ts D; try discriminate.
  - inversion D as [| | | | | | ? ? Ds | | | | | | | | |]; subst. clear D.
    induction Ds as [|r rs ts us D1 Ds IHs]; simpl in H; [discriminate|].
    inversion IH as [|? ? Hr Hrs]; subst.
    apply orb_true_iff in H as [H | H].
    + destruct (Hr H _ D1) as [cs Hin]. exists cs. apply in_or_app; auto.
    + destruct (IHs Hrs H) as [cs Hin]. exists cs. apply in_or_app; auto.
  - apply andb_true_iff in H as [_ H].
    inversion D as [| | | | | | | ? ? Da | | | | | | | |]; subst. clear D.
    induction Da as [r rs ts D1 | r rs ts Da IHa]; simpl in H;
      apply andb_true_iff in H as [H1 H2]; inversion IH as [|? ? Hr Hrs]; subst; eauto.
  - inversion D; subst.
    match goal with X : derive r _ |- _ => destruct (IH H _ X) as [cs Hin] end.
    exists cs. apply in_or_app; auto.
  - inversion D; subst. eauto.
  - inversion D; subst. eauto.
  - inversion D; subst. eauto.
  - inversion D; subst. eauto.
  - inversion D; subst. apply String.eqb_eq in H. subst. eexists. left. reflexivity.
Qed.

Lemma placeholder_site_field n f cs :
  In (n, f) placeholder_sites -> derive (Sym n) [Node n cs] ->
  exists fs, In (FieldT f fs) cs.
Proof.
  intros H D.
  assert (A : forallb (fun nf => always_field (snd nf) (rule_or_blank (fst nf))
                                && negb (is_external (fst nf))) placeholder_sites = true)
    by (vm_compute; reflexivity).
  rewrite forallb_forall in A. apply A in H. simpl in H.
  apply andb_true_iff in H as [A' E]. apply negb_true_iff in E.
  clear A. rename A' into A. inversion D; subst.
  unfold rule_or_blank in A. rewrite H1 in A. eapply always_field_sound; eauto.
Qed.

(** The fields among what a rule yields are fields that it writes. *)
Lemma fields_cover_all :
  (forall r ts, derive r ts -> forall f fs, In (FieldT f fs) ts -> In f (fields r)) /\
  (forall rs ts, derive_seq rs ts ->
     forall f fs, In (FieldT f fs) ts -> In f (flat_map fields rs)) /\
  (forall rs ts, derive_alt rs ts ->
     forall f fs, In (FieldT f fs) ts -> In f (flat_map fields rs)) /\
  (forall r ts, derive_rep r ts -> forall f fs, In (FieldT f fs) ts -> In f (fields r)).
Proof.
  apply derive_mutind; simpl.
  - intros f fs [].
  - intros s f fs [E|[]]. discriminate E.
  - intros p w _ f fs [E|[]]. discriminate E.
  - intros r w _ f fs [E|[]]. discriminate E.
  - intros n r ts _ _ _ f fs [E|[]]. discriminate E.
  - intros n w _ f fs [E|[]]. discriminate E.
  - intros rs ts _ IH. exact IH.
  - intros rs ts _ IH. exact IH.
  - intros r ts _ IH. exact IH.
  - intros r ts us _ IH1 _ IH2 f fs H. apply in_app_or in H as [H|H]; eauto.
  - intros p r ts _ IH. exact IH.
  - intros p r ts _ IH. exact IH.
  - intros p r ts _ IH. exact IH.
  - intros p r ts _ IH. exact IH.
  - intros g r ts _ _ f fs [E|[]]. injection E as -> _. left. reflexivity.
  - intros r n ts _ _ f fs [E|[]]. discriminate E.
  - intros f fs [].
  - intros r rs ts us _ IH1 _ IH2 f fs H. apply in_or_app.
    apply in_app_or in H as [H|H]; eauto.
  - intros r rs ts _ IH f fs H. apply in_or_app. eauto.
  - intros r rs ts _ IH f fs H. apply in_or_app. eauto.
  - intros r f fs [].
  - intros r ts us _ IH1 _ IH2 f fs H. apply in_app_or in H as [H|H]; eauto.
Qed.

(** A node carries only fields that its rule writes. *)
Lemma node_fields n cs f fs :
  derive (Sym n) [Node n cs] -> In (FieldT f fs) cs -> In f (fields (rule_or_blank n)).
Proof.
  intros D H. inversion D as [| | | | n' r ts R D' | | | | | | | | | | |]; subst.
  unfold rule_or_blank. rewrite R. exact (proj1 fields_cover_all r cs D' f fs H).
Qed.

(** C4, as stated, fails: a lambda literal holds an optional statement
    list that is no field.  The empty lambda [{ }] and the lambda [{ x }]
    are derivations without any field named after a list, while the
    enclosed body [{ }] carries the field [statement_list]. *)
Lemma C4_lambda_statements_without_field :
  derive (Sym "lambda_literal") [empty_lambda] /\
  has_any_field empty_lambda = false /\
  derive (Sym "lambda_literal") [lambda_with_statement] /\
  has_node "statements" lambda_with_statement = true /\
  has_field "statement_list" (children lambda_with_statement) = false /\
  derive (Sym "enclosed_body") [empty_body] /\
  has_field "statement_list" (children empty_body) = true.
Proof.
  split; [|split; [|split; [|split; [|split; [|split]]]]]; try reflexivity.
  - apply (derive_by_search 16 100). vm_cast_no_check (eq_refl true).
  - apply (derive_by_search 16 100). vm_cast_no_check (eq_refl true).
  - apply (derive_by_search 16 100). vm_cast_no_check (eq_refl true).
Qed.

(** C4, amended: at every place where the grammar calls
    [optional_with_placeholder] (import list, statement list of the program
    and of an enclosed body, parameter list, enum member list, catch list,
    argument list and the others of [placeholder_sites]) the field is
    present on the resulting node in every derivation, bound to what was
    parsed or to nothing.  Optional lists written with plain [optional] or
    [repeat] carry no field: a lambda literal, the class parameters and a
    [when] expression never hold a field, whether their list is empty or
    not, and the only fields of a program are [import_list] and
    [statement_list], so its file annotations stand in none. *)
Theorem C4_placeholder_fields :
  (forall f r ts, derive (optional_with_placeholder f r) ts ->
     exists cs, ts = [FieldT f cs] /\ (derive r cs \/ cs = [])) /\
  (forall n f cs, In (n, f) placeholder_sites -> derive (Sym n) [Node n cs] ->
     exists fs, In (FieldT f fs) cs) /\
  (forall cs, derive (Sym "program") [Node "program" cs] ->
     (exists fs, In (FieldT "import_list" fs) cs) /\
     (exists fs, In (FieldT "statement_list" fs) cs)) /\
  derive (Sym "program") [Node "program" [FieldT "import_list" []; FieldT "statement_list" []]] /\
  (forall n cs f fs, In n plain_list_sites -> derive (Sym n) [Node n cs] ->
     ~ In (FieldT f fs) cs) /\
  (forall cs f fs, derive (Sym "program") [Node "program" cs] -> In (FieldT f fs) cs ->
     f = "import_list" \/ f = "statement_list") /\
  derive (Sym "_class_parameters") [empty_class_parameters] /\
  derive (Sym "when_expression") [empty_when] /\
  (exists cs, derive (Sym "program") [Node "program" cs] /\
     leaf_texts cs = ["@"; "file"; ":"; "A"; ";"] /\
     existsb (is_node "file_annotation") cs = true).
Proof.
  split; [|split; [|split; [|split; [|split; [|split; [|split; [|split]]]]]]].
  - apply optional_with_placeholder_field.
  - apply placeholder_site_field.
  - intros cs D. split; eapply placeholder_site_field; eauto; simpl; tauto.
  - apply (derive_by_search 16 100). vm_cast_no_check (eq_refl true).
  - intros n cs f fs Hn D H. pose proof (node_fields _ _ _ _ D H) as F.
    simpl in Hn. destruct Hn as [<-|[<-|[<-|[]]]]; vm_compute in F; exact F.
  - intros cs f fs D H. pose proof (node_fields _ _ _ _ D H) as F.
    vm_compute in F.
    repeat (destruct F as [<-|F]; [(left; reflexivity) || (right; reflexivity)|]).
    destruct F.
  - apply (derive_by_search 16 100). vm_cast_no_check (eq_refl true).
  - apply (derive_by_search 16 100). vm_cast_no_check (eq_refl true).
  - assert (E : check_some 16 100 (Sym "program") ["@"; "file"; ":"; "A"; ";"]
                  (fun ts => match ts with
                             | [Node "program" cs] => existsb (is_node "file_annotation") cs
                             | _ => false
                             end) = true)
      by (vm_cast_no_check (eq_refl true)).
    apply check_some_sound in E as (ts & D & L & P).
    destruct (sym_node _ _ D eq_refl) as [cs ->].
    exists cs. split; [exact D|]. split; [|exact P].
    unfold leaf_texts, forest_leaves in L |- *. simpl in L. rewrite app_nil_r in L. exact L.
Qed.

Lemma C4_witness :
  exists fs, In (FieldT "statement_list" fs) [FieldT "import_list" []; FieldT "statement_list" []].
Proof.
  destruct C4_placeholder_fields as (_ & _ & P & D & _).
  exact (proj2 (P _ D)).
Defined.

(* ================================================================== *)
(** * Facts about lexing and top-down parsing                          *)
(* ================================================================== *)

Module ParseFacts.
Local Open Scope string_scope.

Lemma take_app w r : take (String.length w) (w ++ r) = w.
Proof. induction w; simpl; [destruct r; reflexivity | congruence]. Qed.

Lemma drop_app w r : drop (String.length w) (w ++ r) = r.
Proof. induction w; simpl; [destruct r; reflexivity | assumption]. Qed.

Lemma length_append (a b : string) :
  String.length (a ++ b) = String.length a + String.length b.
Proof. induction a; simpl; auto. Qed.

Lemma in_cuts a : forall b, In (a, b) (cuts (a ++ b)).
Proof.
  induction a as [|c a IH]; intros b; simpl.
  - destruct b; left; reflexivity.
  - right. apply (in_map (fun p => (String c (fst p), snd p)) _ (a, b)). apply IH.
Qed.

Lemma source_of_app a b : source_of (a ++ b)%list = source_of a ++ source_of b.
Proof. induction a as [|i a IH]; simpl; auto. rewrite IH, append_assoc. reflexivity. Qed.

Lemma tokens_of_app a b : tokens_of (a ++ b)%list = (tokens_of a ++ tokens_of b)%list.
Proof. induction a as [|[t w|e w] a IH]; simpl; auto. rewrite IH. reflexivity. Qed.

Lemma items_ok_in_app tail a b :
  items_ok_in tail (a ++ b)%list <->
  items_ok_in (source_of b ++ tail) a /\ items_ok_in tail b.
Proof.
  induction a as [|[t w|e w] a IH]; simpl.
  - tauto.
  - rewrite source_of_app, append_assoc, IH. tauto.
  - rewrite source_of_app, append_assoc, IH. tauto.
Qed.

Lemma longest_from_ge r : forall s pos best n,
  longest_from r s pos best = Some n -> best = Some n \/ pos <= n.
Proof.
  intros s. revert r. induction s as [|c s IH]; intros r pos best n; simpl.
  - destruct (nullable r); intros H; [injection H as <-|]; auto.
  - intros H. apply IH in H as [H | H]; [|right; lia].
    destruct (nullable r); [injection H as <-|]; auto.
Qed.

Lemma longest_zero r s : longest r s = Some 0 -> nullable r = true.
Proof.
  unfold longest. destruct s as [|c s]; simpl.
  - destruct (nullable r); [reflexivity | discriminate].
  - intros H. apply longest_from_ge in H as [H | H]; [|lia].
    destruct (nullable r); [reflexivity | discriminate].
Qed.

Lemma longest_from_match r : forall s pos best n,
  longest_from r s pos best = Some n ->
  best = Some n \/ exists k, n = pos + k /\ re_match r (take k s) = true.
Proof.
  intros s. revert r. induction s as [|c s IH]; intros r pos best n; simpl.
  - destruct (nullable r) eqn:N; intros H; [injection H as <-|]; auto.
    right. exists 0. split; [lia|]. simpl. exact N.
  - intros H. apply IH in H as [H | (k & -> & H)].
    + destruct (nullable r) eqn:N; [injection H as <-|]; auto.
      right. exists 0. split; [lia|]. simpl. exact N.
    + right. exists (S k). split; [lia|]. simpl. exact H.
Qed.

(** What the longest match takes is matched. *)
Lemma longest_match r s n : longest r s = Some n -> re_match r (take n s) = true.
Proof.
  unfold longest. intros H. apply longest_from_match in H as [H | (k & -> & H)];
    [discriminate | exact H].
Qed.

Definition is_extra (i : item) : Prop :=
  match i with IExtra _ _ => True | ITok _ _ => False end.

(** An extra of the grammar has a pattern, which takes at least one
    character. *)
Lemma extra_pattern e :
  In e extras -> exists p, lex_re e = Some p /\ nullable p = false.
Proof.
  intros [<- | [<- | []]]; eexists; split; try reflexivity.
Qed.

Lemma munch_some term p w rest :
  lex_re term = Some p -> munch_ok term w rest = true ->
  longest p (w ++ rest) = Some (String.length w).
Proof.
  unfold munch_ok. intros ->. destruct (longest p (w ++ rest)) as [k|]; simpl; [|discriminate].
  intros H. apply Nat.eqb_eq in H. congruence.
Qed.

Lemma extra_skipped tail e x :
  In e extras -> munch_ok e x tail = true ->
  String.length x <> 0 /\ In tail (skip_extra (x ++ tail)).
Proof.
  intros He Hm. destruct (extra_pattern e He) as [p [Ep Np]].
  pose proof (munch_some _ _ _ _ Ep Hm) as L.
  assert (Hx : String.length x <> 0).
  { intros Z. rewrite Z in L. apply longest_zero in L. congruence. }
  split; [exact Hx|].
  unfold skip_extra. apply in_flat_map. exists e. split; [exact He|].
  rewrite Ep, L. destruct (String.length x) as [|k] eqn:El; [congruence|].
  rewrite <- El, drop_app. left; reflexivity.
Qed.

Lemma lex_here_complete term w tail :
  munch_ok term w tail = true -> In (w, tail) (lex_here term (w ++ tail)).
Proof.
  unfold lex_here. destruct (lex_re term) as [p|] eqn:E; intros H.
  - rewrite (munch_some _ _ _ _ E H), take_app, drop_app. left; reflexivity.
  - apply in_cuts.
Qed.

Lemma lex_options_complete pre : forall term w tail fuel,
  Forall is_extra pre ->
  items_ok_in tail (pre ++ [ITok term w])%list ->
  String.length (source_of (pre ++ [ITok term w])%list ++ tail) <= fuel ->
  In (w, tail) (lex_options fuel term (source_of (pre ++ [ITok term w])%list ++ tail)).
Proof.
  induction pre as [|[t x|e x] pre IH]; intros term w tail fuel Hp Hok Hlen.
  - simpl in *. destruct Hok as [Hm _]. rewrite append_nil_r.
    destruct fuel; simpl; apply in_or_app; left; apply lex_here_complete;
      simpl in Hm; exact Hm.
  - inversion Hp as [|? ? F _]. destruct F.
  - inversion Hp as [|? ? _ Hp']; subst. simpl in Hok. destruct Hok as (He & Hm & Hok).
    cbn [app source_of item_text] in *. rewrite append_assoc in *.
    destruct (extra_skipped _ _ _ He Hm) as [Hx Hin].
    rewrite length_append in Hlen.
    destruct fuel as [|k]; [lia|]. simpl. apply in_or_app. right.
    apply in_flat_map. eexists. split; [exact Hin|].
    apply IH; auto. lia.
Qed.

Lemma split_first_token items :
  Forall is_extra items \/
  exists pre term w rest,
    items = (pre ++ ITok term w :: rest)%list /\ Forall is_extra pre.
Proof.
  induction items as [|[t w|e w] items IH].
  - left. constructor.
  - right. exists [], t, w, items. split; [reflexivity | constructor].
  - destruct IH as [IH | (pre & term & w' & rest & -> & Hp)].
    + left. constructor; [exact I | exact IH].
    + right. exists (IExtra e w :: pre), term, w', rest. split; [reflexivity|].
      constructor; [exact I | exact Hp].
Qed.

Lemma tokens_of_extras items : Forall is_extra items -> tokens_of items = [].
Proof.
  induction 1 as [|[t w|e w] items Hi _ IH]; simpl; auto. destruct Hi.
Qed.

(** The tokens of a lexed source are read from it in order, and what is
    left after the last one is made of extras. *)
Lemma lexes_of_items n : forall items tail,
  List.length items <= n -> items_ok_in tail items ->
  exists trail,
    Forall is_extra trail /\ items_ok_in tail trail /\
    lexes (tokens_of items) (source_of items ++ tail) (source_of trail ++ tail).
Proof.
  induction n as [|n IH]; intros items tail Hn Hok.
  - destruct items; [|simpl in Hn; lia]. exists []. simpl. auto.
  - destruct (split_first_token items) as [Hx | (pre & term & w & rest & -> & Hp)].
    + exists items. rewrite (tokens_of_extras _ Hx). simpl. auto.
    + change (pre ++ ITok term w :: rest)%list with (pre ++ [ITok term w] ++ rest)%list in *.
      rewrite app_assoc in *.
      apply items_ok_in_app in Hok as [Hok1 Hok2].
      destruct (IH rest tail) as (trail & Ht & Hokt & Hl); auto.
      { rewrite length_app, length_app in Hn. simpl in Hn. lia. }
      exists trail. split; [exact Ht|]. split; [exact Hokt|].
      rewrite tokens_of_app, tokens_of_app, (tokens_of_extras _ Hp). simpl.
      exists (source_of rest ++ tail). split; [|exact Hl].
      rewrite source_of_app, append_assoc.
      apply lex_options_complete; auto.
Qed.

Lemma only_extras_trail trail : forall fuel,
  Forall is_extra trail -> items_ok_in "" trail ->
  String.length (source_of trail) <= fuel ->
  only_extras fuel (source_of trail) = true.
Proof.
  induction trail as [|[t x|e x] trail IH]; intros fuel Hx Hok Hlen.
  - destruct fuel; reflexivity.
  - inversion Hx as [|? ? F _]. destruct F.
  - inversion Hx as [|? ? _ Hx']; subst. simpl in Hok. destruct Hok as (He & Hm & Hok).
    rewrite append_nil_r in Hm. simpl in *.
    destruct (extra_skipped _ _ _ He Hm) as [Hne Hin].
    rewrite length_append in Hlen.
    destruct (x ++ source_of trail) as [|c s'] eqn:E.
    + apply (f_equal String.length) in E. rewrite length_append in E. simpl in E. lia.
    + destruct fuel as [|k]; [lia|]. simpl. apply existsb_exists.
      exists (source_of trail). split; [exact Hin|]. apply IH; auto. lia.
Qed.

Lemma forest_leaves_app ts us :
  forest_leaves (ts ++ us)%list = (forest_leaves ts ++ forest_leaves us)%list.
Proof. unfold forest_leaves. apply flat_map_app. Qed.

Lemma forest_leaves_wrap t ts :
  leaves t = forest_leaves ts -> forest_leaves [t] = forest_leaves ts.
Proof. unfold forest_leaves. simpl. intros ->. apply app_nil_r. Qed.

Lemma lexes_app a : forall b s rest,
  lexes (a ++ b)%list s rest <-> exists mid, lexes a s mid /\ lexes b mid rest.
Proof.
  induction a as [|[t w] a IH]; intros b s rest; simpl.
  - split.
    + intros H. exists s. auto.
    + intros (mid & -> & H). exact H.
  - split.
    + intros (s1 & Hin & H). apply IH in H as (mid & H1 & H2). eauto.
    + intros (mid & (s1 & Hin & H1) & H2). exists s1. split; [exact Hin|].
      apply IH. eauto.
Qed.

Lemma res_app_some a b l :
  res_app a b = Some l -> exists x y, a = Some x /\ b = Some y /\ l = (x ++ y)%list.
Proof. destruct a, b; simpl; intros H; try discriminate. injection H as <-. eauto. Qed.

Lemma res_bind_some a f l :
  res_bind a f = Some l ->
  exists la, a = Some la /\
    forall p, In p la -> exists lp, f (fst p) (snd p) = Some lp /\ incl lp l.
Proof.
  destruct a as [la|]; simpl; [|discriminate]. intros H. exists la. split; [reflexivity|].
  revert l H. induction la as [|q la IH]; simpl; intros l H p Hp; [destruct Hp|].
  apply res_app_some in H as (x & y & Ex & Ey & ->).
  destruct Hp as [-> | Hp].
  - exists x. split; auto. apply incl_appl, incl_refl.
  - destruct (IH _ Ey _ Hp) as (lp & E & I). exists lp. split; auto.
    apply incl_appr. exact I.
Qed.

Lemma res_map_some g a l :
  res_map g a = Some l ->
  exists la, a = Some la /\ forall ts rest, In (ts, rest) la -> In (g ts, rest) l.
Proof.
  destruct a as [la|]; simpl; [|discriminate]. intros [= <-]. exists la. split; auto.
  intros ts rest H. apply (in_map (fun p => (g (fst p), snd p)) _ (ts, rest)). exact H.
Qed.

Section Complete.
Variable self : rule -> string -> results.

Definition ccomplete (f : rule -> string -> results) : Prop :=
  forall r s l, f r s = Some l ->
    forall ts rest, derive r ts -> lexes (forest_leaves ts) s rest -> In (ts, rest) l.

Hypothesis Hs : ccomplete self.

Lemma cparse_seq_complete rs ts :
  derive_seq rs ts ->
  forall s rest l, lexes (forest_leaves ts) s rest -> cparse_seq self rs s = Some l ->
    In (ts, rest) l.
Proof.
  induction 1 as [|r rs ts us D1 D2 IH]; intros s rest l L H; simpl in *.
  - injection H as <-. subst. left; reflexivity.
  - rewrite forest_leaves_app in L. apply lexes_app in L as (mid & L1 & L2).
    apply res_bind_some in H as (la & Ea & Hla).
    pose proof (Hs _ _ _ Ea _ _ D1 L1) as Hin.
    destruct (Hla _ Hin) as (lp & Ep & I). simpl in Ep.
    apply res_map_some in Ep as (lb & Eb & Hlb).
    apply I. apply Hlb. eapply IH; eauto.
Qed.

Lemma cparse_alt_complete rs ts :
  derive_alt rs ts ->
  forall s rest l, lexes (forest_leaves ts) s rest -> cparse_alt self rs s = Some l ->
    In (ts, rest) l.
Proof.
  induction 1 as [r rs ts D | r rs ts D IH]; intros s rest l L H; simpl in H;
    apply res_app_some in H as (x & y & Ex & Ey & ->); apply in_or_app.
  - left. eapply Hs; eauto.
  - right. eauto.
Qed.

Lemma cparse_rep_complete r ts :
  derive_rep r ts ->
  forall n s rest l, lexes (forest_leaves ts) s rest -> cparse_rep self n r s = Some l ->
    In (ts, rest) l.
Proof.
  induction 1 as [r | r ts us D1 D2 IH]; intros n s rest l L H;
    (destruct n as [|k]; [discriminate|]); cbn [cparse_rep] in H;
    apply res_app_some in H as (x & y & Ex & Ey & ->); injection Ex as <-.
  - simpl in L. subst. left; reflexivity.
  - right. rewrite forest_leaves_app in L. apply lexes_app in L as (mid & L1 & L2).
    apply res_bind_some in Ey as (la & Ea & Hla).
    pose proof (Hs _ _ _ Ea _ _ D1 L1) as Hin.
    destruct (Hla _ Hin) as (lp & Ep & I). simpl in Ep.
    destruct (String.eqb mid s); [discriminate|].
    apply res_map_some in Ep as (lb & Eb & Hlb).
    apply I. apply Hlb. eapply IH; eauto.
Qed.

Lemma leaf_results_complete r w s rest :
  accepts r w = true -> lexes [(r, w)] s rest -> In ([Leaf r w], rest) (leaf_results r s).
Proof.
  intros Ha (s1 & Hin & ->). unfold leaf_results.
  apply (in_map (fun p => ([Leaf r (fst p)], snd p)) _ (w, s1)).
  apply filter_In. split; assumption.
Qed.
End Complete.

(** Whatever the grammar reads from a source is among the results of the
    top-down parser, when it does not give up. *)
Theorem cparse_complete fuel : ccomplete (cparse fuel).
Proof.
  induction fuel as [|k IH]; intros r s l H ts rest D L; [discriminate|].
  cbn [cparse] in H.
  destruct D; cbv beta iota delta [cparse_body] in H; try (eapply IH; eauto; fail).
  - injection H as <-. simpl in L. subst. left; reflexivity.
  - injection H as <-. apply leaf_results_complete; auto. apply String.eqb_refl.
  - injection H as <-. apply leaf_results_complete; auto.
  - injection H as <-. apply leaf_results_complete; auto.
  - apply res_app_some in H as (x & y & Ex & Ey & ->). apply in_or_app. right.
    rewrite H0 in Ey. apply res_map_some in Ey as (la & Ea & Hla).
    rewrite (forest_leaves_wrap (Node n ts) ts eq_refl) in L.
    apply Hla. eapply IH; eauto.
  - apply res_app_some in H as (x & y & Ex & Ey & ->). apply in_or_app. left.
    rewrite H0 in Ex. injection Ex as <-. apply leaf_results_complete; auto.
  - eapply cparse_seq_complete; eauto.
  - eapply cparse_alt_complete; eauto.
  - eapply cparse_rep_complete; eauto.
  - rewrite forest_leaves_app in L. apply lexes_app in L as (mid & L1 & L2).
    apply res_bind_some in H as (la & Ea & Hla).
    pose proof (IH _ _ _ Ea _ _ D L1) as Hin.
    destruct (Hla _ Hin) as (lp & Ep & I). simpl in Ep.
    destruct (String.eqb mid s); [discriminate|].
    apply res_map_some in Ep as (lb & Eb & Hlb).
    apply I. apply Hlb. eapply cparse_rep_complete; eauto.
  - apply res_map_some in H as (la & Ea & Hla).
    rewrite (forest_leaves_wrap (FieldT f ts) ts eq_refl) in L.
    apply Hla. eapply IH; eauto.
  - apply res_map_some in H as (la & Ea & Hla).
    rewrite (forest_leaves_wrap (AliasT n ts) ts eq_refl) in L.
    apply Hla. eapply IH; eauto.
Qed.

(** Deciding a question about all parses of a source text. *)
Theorem cparse_all_sound fuel start src P :
  cparse_all fuel start src P = true ->
  forall ts items, parses start src ts items -> P ts = true.
Proof.
  unfold cparse_all. intros H ts items (D & Et & Es & Hok).
  destruct (cparse fuel start src) as [l|] eqn:E; [|discriminate].
  destruct (lexes_of_items _ items "" (le_n _) Hok) as (trail & Hx & Hokt & L).
  rewrite !append_nil_r in L. rewrite Es, Et in L.
  pose proof (cparse_complete fuel _ _ _ E _ _ D L) as Hin.
  rewrite forallb_forall in H. specialize (H _ Hin). simpl in H.
  rewrite (only_extras_trail trail _ Hx Hokt (le_n _)) in H. exact H.
Qed.

End ParseFacts.

(* ================================================================== *)
(** * Parses of the examples                                           *)
(* ================================================================== *)

Import ParseFacts.

Lemma leaves_eqb_eq a b : leaves_eqb a b = true -> a = b.
Proof.
  unfold leaves_eqb. apply list_eqb_eq. apply Forall_forall. intros [r w] _ [r' w'] H.
  simpl in H. apply andb_true_iff in H as [H1 H2].
  apply rule_eqb_eq in H1. apply String.eqb_eq in H2. congruence.
Qed.

Lemma items_okb_sound tail items : items_okb tail items = true -> items_ok_in tail items.
Proof.
  induction items as [|[t w|e w] items IH]; cbn [items_okb items_ok_in]; intros H; auto.
  - apply andb_true_iff in H as [H1 H2]. auto.
  - apply andb_true_iff in H as [H H3]. apply andb_true_iff in H as [H1 H2].
    split; [|auto]. apply existsb_exists in H1 as [x [Hx E]].
    apply rule_eqb_eq in E. subst. exact Hx.
Qed.

(** A given tree with given items is a parse when the checks pass. *)
Lemma parsesb_sound rounds fuel start src ts items :
  parsesb rounds fuel start src ts items = true -> parses start src ts items.
Proof.
  unfold parsesb. rewrite !andb_true_iff. intros [[[H1 H2] H3] H4].
  split; [|split; [|split]].
  - eapply derive_by_search; eauto.
  - apply leaves_eqb_eq. exact H2.
  - apply String.eqb_eq. exact H3.
  - apply items_okb_sound. exact H4.
Qed.

Lemma unique_parse fuel start src expected :
  cparse_all fuel start src (is_forest expected) = true ->
  forall ts items, parses start src ts items -> ts = expected.
Proof.
  intros H ts items P. apply forest_eqb_eq. exact (cparse_all_sound _ _ _ _ H ts items P).
Qed.

Lemma no_parse fuel start src :
  cparse_all fuel start src (fun _ => false) = true ->
  forall ts items, ~ parses start src ts items.
Proof.
  intros H ts items P. pose proof (cparse_all_sound _ _ _ _ H ts items P). discriminate.
Qed.

Lemma unique_derivation rounds fuel start w expected :
  check_all rounds fuel start w (is_forest expected) = true ->
  forall ts, derive start ts -> leaf_texts ts = w -> ts = expected.
Proof.
  intros H ts D E. apply forest_eqb_eq. exact (check_all_sound _ _ _ _ _ H ts D E).
Qed.

(* ================================================================== *)
(** * String interpolation                                             *)
(* ================================================================== *)

(** An identifier is a single token. *)
Lemma simple_identifier_single ts :
  derive (Sym "simple_identifier") ts ->
  exists id w, ts = [id] /\ leaf_texts [id] = [w].
Proof.
  intros D. open_sym "simple_identifier". inv_all;
    try (do 2 eexists; split; reflexivity).
  open_sym "lexical_identifier_". inv_all.
  - open_sym "_alpha_identifier". inv_all. do 2 eexists; split; reflexivity.
  - open_sym "_backtick_identifier". inv_all. do 2 eexists; split; reflexivity.
Qed.

(** The two forms of an interpolation. *)
Lemma interpolation_forms ts :
  derive (Sym "interpolation_") ts ->
  (exists e, ts = [dollar_expression e] /\ derive (Sym "expression_") [e]) \/
  (exists id w, ts = [dollar_identifier id] /\
     derive (Sym "simple_identifier") [id] /\ leaf_texts [id] = [w]).
Proof.
  intros D. open_sym "interpolation_". inv_all.
  - left.
    match goal with H : derive (Sym "expression_") ?x |- _ =>
      destruct (sym_node _ _ H eq_refl) as [cs ->]; eexists; split; [reflexivity | exact H] end.
  - right.
    match goal with H : derive (Sym "simple_identifier") ?x |- _ =>
      destruct (simple_identifier_single _ H) as (id & w & -> & E);
      exists id, w; split; [reflexivity | split; [exact H | exact E]] end.
Qed.

(** The parts of a line string literal. *)
Lemma string_parts r ts :
  derive_rep r ts ->
  r = Choice [Sym "line_string_content_"; Sym "interpolation_"] ->
  forallb string_part ts = true.
Proof.
  revert r ts.
  apply (derive_rep_ind' (fun _ _ => True) (fun _ _ => True) (fun _ _ => True)
           (fun r ts => r = Choice [Sym "line_string_content_"; Sym "interpolation_"] ->
                        forallb string_part ts = true)); auto.
  intros r ts us D _ _ IH ->. rewrite forallb_app, (IH eq_refl), andb_true_r.
  inv_all;
    match goal with H : derive (Sym _) _ |- _ =>
      destruct (sym_node _ _ H eq_refl) as [cs ->] end; reflexivity.
Qed.

Lemma line_string_children cs :
  derive (Sym "line_string_literal") [Node "line_string_literal" cs] ->
  forallb string_part cs = true.
Proof.
  intros D. inversion D as [| | | | n' r ts R D' | | | | | | | | | | |]; subst.
  vm_compute in R. injection R as <-. inv_all.
  rewrite app_nil_r. simpl. rewrite forallb_app.
  match goal with H : derive_rep _ _ |- _ => rewrite (string_parts _ _ H eq_refl) end. reflexivity.
Qed.

Lemma string_part_no_alias k t : string_part t = true -> is_alias k t = false.
Proof. destruct t; simpl; intros H; try reflexivity; discriminate H. Qed.

(** C5, as stated, fails: the interpolated identifier is no child of the
    line string literal.  In the only parse of
    ["Sample $string.interpolation literal"] the children of the line
    string literal are its quotes, two text runs and one [interpolation_]
    node; the interpolated identifier stands below that node.  The same
    holds of every line string literal. *)
Lemma C5_interpolated_identifier_is_no_child :
  parses (Sym "line_string_literal") sample_src [sample_tree] (items_of [sample_tree] []) /\
  (forall ts items, parses (Sym "line_string_literal") sample_src ts items ->
     ts = [sample_tree]) /\
  children sample_tree
    = [ tok quote; text_run "Sample "; dollar_identifier (ident "string");
        text_run ".interpolation literal"; tok quote ] /\
  existsb (is_alias "interpolated_identifier") (children sample_tree) = false /\
  (forall cs, derive (Sym "line_string_literal") [Node "line_string_literal" cs] ->
     existsb (is_alias "interpolated_identifier") cs = false).
Proof.
  split; [|split; [|split; [|split]]]; try reflexivity.
  - apply (parsesb_sound 16 100). vm_cast_no_check (eq_refl true).
  - apply (unique_parse 40). vm_cast_no_check (eq_refl true).
  - intros cs D. apply line_string_children in D.
    induction cs as [|c cs IH]; [reflexivity|]. simpl in D |- *.
    apply andb_true_iff in D as [D1 D2].
    rewrite (string_part_no_alias _ _ D1), (IH D2). reflexivity.
Qed.

(** C5, amended: [$identifier] takes one bare identifier and nothing more.
    The only parse of ["Sample $string.interpolation literal"] is one line
    string literal with exactly one [interpolation_] child; that child
    holds the [$] and exactly one interpolated identifier, covering
    [string], and the tree holds no other; [.interpolation literal] and
    [Sample ] are text runs.  Every line string literal holds directly
    only its quotes, text and [interpolation_] nodes.  The form
    [${expression}] holds a full expression, which may hold string
    literals that hold interpolations again. *)
Theorem C5_interpolation :
  parses (Sym "line_string_literal") sample_src [sample_tree] (items_of [sample_tree] []) /\
  (forall ts items, parses (Sym "line_string_literal") sample_src ts items ->
     ts = [sample_tree]) /\
  filter (is_node "interpolation_") (children sample_tree)
    = [dollar_identifier (ident "string")] /\
  filter (is_alias "interpolated_identifier") (children (dollar_identifier (ident "string")))
    = [AliasT "interpolated_identifier" [ident "string"]] /\
  count_alias "interpolated_identifier" sample_tree = 1 /\
  alias_texts "interpolated_identifier" sample_tree = [["string"]] /\
  leaf_texts [sample_tree]
    = [quote; "Sample "; "$"; "string"; ".interpolation literal"; quote] /\
  (forall cs, derive (Sym "line_string_literal") [Node "line_string_literal" cs] ->
     forallb string_part cs = true) /\
  (forall ts, derive (Sym "interpolation_") ts ->
     (exists e, ts = [dollar_expression e] /\ derive (Sym "expression_") [e]) \/
     (exists id w, ts = [dollar_identifier id] /\
        derive (Sym "simple_identifier") [id] /\ leaf_texts [id] = [w])) /\
  parses (Sym "line_string_literal") nested_src [nested_tree] (items_of [nested_tree] []) /\
  parses (Sym "line_string_literal") nested_twice_src [nested_twice_tree]
    (items_of [nested_twice_tree] []).
Proof.
  split; [|split; [|split; [|split; [|split; [|split; [|split; [|split; [|split; [|split]]]]]]]]];
    try reflexivity.
  - apply (parsesb_sound 16 100). vm_cast_no_check (eq_refl true).
  - apply (unique_parse 40). vm_cast_no_check (eq_refl true).
  - apply line_string_children.
  - apply interpolation_forms.
  - apply (parsesb_sound 16 100). vm_cast_no_check (eq_refl true).
  - apply (parsesb_sound 16 100). vm_cast_no_check (eq_refl true).
Qed.

Lemma C5_witness :
  parses (Sym "line_string_literal") sample_src [sample_tree] (items_of [sample_tree] []) /\
  [sample_tree] = [sample_tree].
Proof.
  destruct C5_interpolation as (P & U & _).
  split; [exact P | exact (U _ _ P)].
Defined.

(* ================================================================== *)
(** * Numeric literals and signs                                       *)
(* ================================================================== *)

(** C6: a leading sign is never part of a numeric literal token.  No text
    that starts with [+] or [-] matches a numeric literal token; [4.3f],
    [53.9e-3F] and [23.434] are real literals; [4.3f] parses as one real
    literal leaf; [+53.9e-3F] and [-23.434] are no literal constants and
    parse as a prefix expression whose operand is the unsigned real
    literal, the only derivation of their two tokens. *)
Theorem C6_sign_not_in_literal :
  (forall n c w, In n numeric_tokens -> c = "+"%char \/ c = "-"%char ->
     re_match (token_re n) (String c w) = false) /\
  re_match (token_re "real_literal") "4.3f" = true /\
  re_match (token_re "real_literal") "53.9e-3F" = true /\
  re_match (token_re "real_literal") "23.434" = true /\
  parses (Sym "expression_") "4.3f" [real "4.3f"] (items_of [real "4.3f"] []) /\
  (forall ts items, parses (Sym "_literal_constant") "4.3f" ts items ->
     ts = [real_constant "4.3f"]) /\
  (forall ts items, ~ parses (Sym "_literal_constant") "+53.9e-3F" ts items) /\
  (forall ts items, ~ parses (Sym "_literal_constant") "-23.434" ts items) /\
  parses (Sym "expression_") "+53.9e-3F" [prefixed "+" (real "53.9e-3F")]
    (items_of [prefixed "+" (real "53.9e-3F")] []) /\
  parses (Sym "expression_") "-23.434" [prefixed "-" (real "23.434")]
    (items_of [prefixed "-" (real "23.434")] []) /\
  (forall ts, derive (Sym "expression_") ts -> leaf_texts ts = ["+"; "53.9e-3F"] ->
     ts = [prefixed "+" (real "53.9e-3F")]) /\
  (forall ts, derive (Sym "expression_") ts -> leaf_texts ts = ["-"; "23.434"] ->
     ts = [prefixed "-" (real "23.434")]).
Proof.
  split; [|split; [|split; [|split; [|split; [|split; [|split; [|split;
    [|split; [|split; [|split]]]]]]]]]]; try (vm_compute; reflexivity).
  - apply literal_no_sign.
  - apply (parsesb_sound 16 100). vm_cast_no_check (eq_refl true).
  - apply (unique_parse 40). vm_cast_no_check (eq_refl true).
  - apply (no_parse 40). vm_cast_no_check (eq_refl true).
  - apply (no_parse 40). vm_cast_no_check (eq_refl true).
  - apply (parsesb_sound 16 100). vm_cast_no_check (eq_refl true).
  - apply (parsesb_sound 16 100). vm_cast_no_check (eq_refl true).
  - apply (unique_derivation 16 100). vm_cast_no_check (eq_refl true).
  - apply (unique_derivation 16 100). vm_cast_no_check (eq_refl true).
Qed.

Lemma C6_witness :
  In "real_literal" numeric_tokens /\
  ("-"%char = "+"%char \/ "-"%char = "-"%char) /\
  re_match (token_re "real_literal") "-23.434" = false.
Proof.
  assert (H1 : In "real_literal" numeric_tokens) by (simpl; auto).
  assert (H2 : "-"%char = "+"%char \/ "-"%char = "-"%char) by (right; reflexivity).
  split; [exact H1|]. split; [exact H2|].
  exact (proj1 C6_sign_not_in_literal "real_literal" "-"%char "23.434" H1 H2).
Defined.

(* ================================================================== *)
(** * Integer literals with leading zeros                              *)
(* ================================================================== *)

(** C9: the integer-literal token takes decimal digit strings with leading
    zeros whole.  Every non-empty string of digits matches the token; the
    longest match on [08] and [007] is all of it; each is a literal
    constant with one integer-literal leaf, and that is its only parse. *)
Theorem C9_leading_zeros :
  (forall w, w <> "" -> all_chars is_digit w = true ->
     re_match (token_re "integer_literal") w = true) /\
  longest (token_re "integer_literal") "08" = Some 2 /\
  longest (token_re "integer_literal") "007" = Some 3 /\
  parses (Sym "_literal_constant") "08" [integer_constant "08"]
    (items_of [integer_constant "08"] []) /\
  parses (Sym "_literal_constant") "007" [integer_constant "007"]
    (items_of [integer_constant "007"] []) /\
  (forall ts items, parses (Sym "_literal_constant") "08" ts items ->
     ts = [integer_constant "08"]) /\
  (forall ts items, parses (Sym "_literal_constant") "007" ts items ->
     ts = [integer_constant "007"]) /\
  leaf_texts [integer_constant "08"] = ["08"] /\
  leaf_texts [integer_constant "007"] = ["007"].
Proof.
  split; [|split; [|split; [|split; [|split; [|split; [|split; [|split]]]]]]];
    try (vm_compute; reflexivity).
  - apply digits_are_integer_literal.
  - apply (parsesb_sound 16 100). vm_cast_no_check (eq_refl true).
  - apply (parsesb_sound 16 100). vm_cast_no_check (eq_refl true).
  - apply (unique_parse 40). vm_cast_no_check (eq_refl true).
  - apply (unique_parse 40). vm_cast_no_check (eq_refl true).
Qed.

Lemma C9_witness :
  "08" <> "" /\ all_chars is_digit "08" = true /\
  re_match (token_re "integer_literal") "08" = true.
Proof.
  assert (H1 : "08" <> "") by discriminate.
  assert (H2 : all_chars is_digit "08" = true) by reflexivity.
  split; [exact H1|]. split; [exact H2|].
  exact (proj1 C9_leading_zeros "08" H1 H2).
Defined.

(* ================================================================== *)
(** * Soft keywords                                                    *)
(* ================================================================== *)









(* ================================================================== *)
(** * Round trip                                                       *)
(* ================================================================== *)

Lemma concat_item_texts items : concat_texts (map item_text items) = source_of items.
Proof. induction items as [|i items IH]; simpl; congruence. Qed.










(* ================================================================== *)
(** * A dollar sign in a string                                        *)
(* ================================================================== *)

(** C10, as stated, fails: ["a $ b"] parses.  The blank after the [$] is
    skipped as an extra, and the only parse is a line string literal with
    the text run [a ] and an interpolation of the identifier [b]. *)
Lemma C10_dollar_blank_identifier_parses :
  parses (Sym "line_string_literal") (quoted "a $ b") [dollar_space_tree]
    (items_of [dollar_space_tree] [""; ""; " "; ""]) /\
  (forall ts items, parses (Sym "line_string_literal") (quoted "a $ b") ts items ->
     ts = [dollar_space_tree]) /\
  has_node "interpolation_" dollar_space_tree = true.
Proof.
  split; [|split]; try reflexivity.
  - apply (parsesb_sound 16 100). vm_cast_no_check (eq_refl true).
  - apply (unique_parse 40). vm_cast_no_check (eq_refl true).
Qed.

(** C10, amended: inside a line string or a multi-line string the text
    runs hold no [$], and an interpolation is [${ expression }] or [$] and
    an identifier token; extras may sit between the [$] and the
    identifier.  So a [$] that is followed, after any white space or
    comment, neither by [{] nor by an identifier has no parse: ["a $"],
    ["a $1"], ["$"] and the multi-line string with content [a $ ] have
    none; ["a $ b"] parses as an interpolation of [b]. *)
Theorem C10_dollar_needs_identifier :
  (forall w, re_match (token_re "_line_str_text") w = true -> has_char "$" w = false) /\
  (forall w, re_match (token_re "_multi_line_str_text") w = true -> has_char "$" w = false) /\
  (forall ts, derive (Sym "interpolation_") ts ->
     (exists e, ts = [dollar_expression e] /\ derive (Sym "expression_") [e]) \/
     (exists id w, ts = [dollar_identifier id] /\
        derive (Sym "simple_identifier") [id] /\ leaf_texts [id] = [w])) /\
  (forall ts items, ~ parses (Sym "line_string_literal") (quoted "a $") ts items) /\
  (forall ts items, ~ parses (Sym "line_string_literal") (quoted "a $1") ts items) /\
  (forall ts items, ~ parses (Sym "line_string_literal") (quoted "$") ts items) /\
  (forall ts items, ~ parses (Sym "multi_line_string_literal") (triple_quoted "a $ ") ts items) /\
  (forall ts items, parses (Sym "line_string_literal") (quoted "a $ b") ts items ->
     ts = [dollar_space_tree]).
Proof.
  split; [|split; [|split; [|split; [|split; [|split; [|split]]]]]].
  - intros w H. apply line_str_text_chars in H. tauto.
  - intros w H. apply multi_line_str_text_chars in H. tauto.
  - apply interpolation_forms.
  - apply (no_parse 40). vm_cast_no_check (eq_refl true).
  - apply (no_parse 40). vm_cast_no_check (eq_refl true).
  - apply (no_parse 40). vm_cast_no_check (eq_refl true).
  - apply (no_parse 40). vm_cast_no_check (eq_refl true).
  - apply (unique_parse 40). vm_cast_no_check (eq_refl true).
Qed.

Lemma C10_witness :
  re_match (token_re "_line_str_text") "a " = true /\ has_char "$" "a " = false.
Proof.
  assert (H : re_match (token_re "_line_str_text") "a " = true) by reflexivity.
  split; [exact H|]. exact (proj1 C10_dollar_needs_identifier "a " H).
Defined.

(* ================================================================== *)
(** * Token languages against scanners: soundness                      *)
(* ================================================================== *)

Module ScanFacts.
Local Open Scope string_scope.

Lemma in_all_ascii c : In c all_ascii.
Proof.
  unfold all_ascii. rewrite <- (ascii_nat_embedding c).
  apply in_map. apply in_seq. pose proof (nat_ascii_bounded c). lia.
Qed.

Section Scanner.
Variable St : Type.
Variable step : St -> ascii -> St.
Variable acc : St -> bool.
Variable eqb : St -> St -> bool.
Hypothesis eqb_eq : forall x y, eqb x y = true -> x = y.

Lemma pair_in_In R p : pair_in St eqb R p = true -> In p R.
Proof.
  unfold pair_in. rewrite existsb_exists. intros [[a s] [Hin H]]. simpl in H.
  apply andb_true_iff in H as [H1 H2]. apply re_eqb_eq in H1. apply eqb_eq in H2.
  destruct p; simpl in *; subst. exact Hin.
Qed.

Lemma succ_in p c : In (simp (deriv c (fst p)), step (snd p) c) (succs St step p).
Proof.
  unfold succs.
  apply (in_map (fun c => (simp (deriv c (fst p)), step (snd p) c))). apply in_all_ascii.
Qed.

Lemma agrees_spec R :
  agrees St step acc eqb R = true ->
  forall w a s, In (a, s) R -> re_match a w = acc (run step s w).
Proof.
  unfold agrees. rewrite forallb_forall. intros HR.
  induction w as [|c w IH]; intros a s Hin; simpl;
    specialize (HR _ Hin) as H; cbn [fst snd] in H; apply andb_true_iff in H as [H1 H2].
  - apply Bool.eqb_prop in H1. exact H1.
  - apply IH. rewrite forallb_forall in H2.
    apply pair_in_In. apply H2. apply (succ_in (a, s)).
Qed.

Lemma within_spec R :
  within St step acc eqb R = true ->
  forall w a s, In (a, s) R -> re_match a w = true -> acc (run step s w) = true.
Proof.
  unfold within. rewrite forallb_forall. intros HR.
  induction w as [|c w IH]; intros a s Hin; simpl;
    specialize (HR _ Hin) as H; cbn [fst snd] in H; apply andb_true_iff in H as [H1 H2].
  - intros N. rewrite N in H1. exact H1.
  - intros M. rewrite forallb_forall in H2.
    specialize (H2 _ (succ_in (a, s) c)). cbn [fst snd] in H2.
    apply orb_true_iff in H2 as [V | P].
    + destruct (simp (deriv c a)); try discriminate. rewrite re_match_void in M. discriminate.
    + apply pair_in_In in P. exact (IH _ _ P M).
Qed.

Lemma same_language_sound n r s :
  same_language step acc eqb n r s = true ->
  forall w, re_match r w = acc (run step s w).
Proof.
  unfold same_language. intros H w. apply andb_true_iff in H as [H1 H2].
  apply pair_in_In in H1. exact (agrees_spec _ H2 w r s H1).
Qed.

Lemma sub_language_sound n r s :
  sub_language step acc eqb n r s = true ->
  forall w, re_match r w = true -> acc (run step s w) = true.
Proof.
  unfold sub_language. intros H w. apply andb_true_iff in H as [H1 H2].
  apply pair_in_In in H1. exact (within_spec _ H2 w r s H1).
Qed.
End Scanner.

Lemma run_re r w : nullable (run re_step r w) = re_match r w.
Proof. revert r. induction w as [|c w IH]; intros r; simpl; auto. Qed.

Lemma disjoint_patterns_sound n a b :
  disjoint_patterns n a b = true ->
  forall w, re_match a w = true -> re_match b w = false.
Proof.
  unfold disjoint_patterns. intros H w M.
  pose proof (sub_language_sound re re_step _ re_eqb re_eqb_eq n a b H w M) as N.
  cbv beta in N. rewrite run_re in N. apply negb_true_iff in N. exact N.
Qed.

End ScanFacts.

(* ================================================================== *)
(** * Integer, hexadecimal and binary literals                         *)
(* ================================================================== *)

Module DigitFacts.
Import ScanFacts.
Local Open Scope string_scope.

Lemma gstate_eqb_eq a b : gstate_eqb a b = true -> a = b.
Proof. destruct a, b; simpl; congruence. Qed.

Lemma lstate_eqb_eq a b : lstate_eqb a b = true -> a = b.
Proof.
  destruct a, b; simpl; try congruence. intros H. f_equal. apply gstate_eqb_eq, H.
Qed.

Section Groups.
Variable d : ascii -> bool.
Hypothesis d_underscore : d "_"%char = false.

Let ok (c : ascii) : bool := d c || is_underscore c.

(** What the scanner still has to see, by state. *)
Let last_is (w : string) (dflt : bool) : bool :=
  match last_char w with Some b => d b | None => dflt end.

Let Fixpoint apart (prev : bool) (w : string) : bool :=
  match w with
  | EmptyString => true
  | String c rest => negb (prev && d c) && apart (d c) rest
  end.

Let expects (single : bool) (s : gstate) (w : string) : bool :=
  match s with
  | GStart =>
      all_chars ok w && match first_char w with Some a => d a | None => false end
      && last_is w false && (negb single || apart false w)
  | GDigit => all_chars ok w && last_is w true && (negb single || apart true w)
  | GUnder => all_chars ok w && last_is w false && (negb single || apart false w)
  | GDead => false
  end.

Lemma last_char_some c w : exists b, last_char (String c w) = Some b.
Proof.
  revert c. induction w as [|a w IH]; intros c; [exists c; reflexivity|].
  destruct (IH a) as [b Hb]. exists b. rewrite <- Hb. reflexivity.
Qed.

Lemma last_is_cons c w dflt : last_is (String c w) dflt = last_is w (d c).
Proof.
  unfold last_is. destruct w as [|a w]; [reflexivity|].
  change (last_char (String c (String a w))) with (last_char (String a w)).
  destruct (last_char_some a w) as [b ->]. reflexivity.
Qed.

Lemma underscore_not_digit c : is_underscore c = true -> d c = false.
Proof. unfold is_underscore. intros H. apply Ascii.eqb_eq in H. subst. exact d_underscore. Qed.

Lemma gacc_run single s w : gacc (run (gstep d single) s w) = expects single s w.
Proof.
  revert s. induction w as [|c w IH]; intros s.
  - destruct s; simpl; rewrite ?orb_true_r; reflexivity.
  - simpl run. rewrite IH. clear IH.
    destruct s; cbn [gstep expects all_chars first_char apart]; rewrite ?last_is_cons;
      unfold ok; destruct (d c) eqn:Dc; simpl;
      try (destruct (is_underscore c) eqn:Uc; simpl);
      try (apply underscore_not_digit in Uc; congruence);
      destruct single; simpl; rewrite ?andb_true_r, ?andb_false_r; try reflexivity.
Qed.

Lemma apart_no_adjacent w : apart false w = no_adjacent d w.
Proof.
  assert (G : forall w c, apart (d c) w
                = match w with String b _ => negb (d c && d b) | _ => true end
                  && no_adjacent d w).
  { induction w0 as [|b w0 IH]; intros c; [reflexivity|].
    cbn [apart]. rewrite IH. destruct w0; simpl; rewrite ?andb_true_r; reflexivity. }
  destruct w as [|a w]; [reflexivity|]. cbn [apart]. simpl. rewrite G.
  destruct w; reflexivity.
Qed.

Lemma groups_run single w :
  gacc (run (gstep d single) GStart w)
  = digit_groups d w && (negb single || no_adjacent d w).
Proof.
  rewrite gacc_run. unfold expects, digit_groups, last_is. fold ok.
  rewrite apart_no_adjacent.
  destruct (first_char w), (last_char w); rewrite ?andb_false_r; simpl; try reflexivity.
  rewrite andb_assoc. reflexivity.
Qed.

Variable marks : list ascii.

Lemma prefixed_run single w :
  lacc (run (lstep marks d single) LZero w)
  = with_prefix marks (fun b => digit_groups d b && (negb single || no_adjacent d b)) w.
Proof.
  assert (Dead : forall w, lacc (run (lstep marks d single) LDead w) = false)
    by (induction w0; simpl; auto).
  assert (Body : forall w g, lacc (run (lstep marks d single) (LBody g) w)
                             = gacc (run (gstep d single) g w))
    by (induction w0; simpl; auto).
  destruct w as [|z [|m w]]; try reflexivity.
  - simpl. destruct (Ascii.eqb z "0"); reflexivity.
  - simpl. destruct (Ascii.eqb z "0"); simpl; [|apply Dead].
    destruct (existsb (Ascii.eqb m) marks); simpl; [|apply Dead].
    rewrite Body. apply groups_run.
Qed.
End Groups.

End DigitFacts.

Import ScanFacts DigitFacts.

(** The integer literal: the token [seq(optional(/[1-9]/), DEC_DIGITS)]
    matches exactly the texts made of digits and underscores that begin
    and end with a digit, and so does [DEC_DIGITS] alone: the optional
    leading non-zero digit adds nothing, and an underscore never stands
    first or last. *)
Theorem integer_literal_is_digit_groups w :
  re_match (token_re "integer_literal") w = digit_groups is_digit w /\
  re_match (term_re DEC_DIGITS) w = digit_groups is_digit w.
Proof.
  assert (G : forall r, same_language (gstep is_digit false) gacc gstate_eqb 100 r GStart = true ->
                        re_match r w = digit_groups is_digit w).
  { intros r H.
    rewrite (same_language_sound gstate _ _ _ gstate_eqb_eq 100 r GStart H w).
    rewrite (groups_run is_digit eq_refl false w). simpl. apply andb_true_r. }
  split; apply G; vm_cast_no_check (eq_refl true).
Qed.

Lemma hex_literal_shape w :
  re_match (token_re "hex_literal") w
  = with_prefix ["x"; "X"]%char (digit_groups is_hex_digit) w.
Proof.
  assert (H : same_language (lstep ["x"; "X"]%char is_hex_digit false) lacc lstate_eqb
                 100 (token_re "hex_literal") LZero = true)
    by (vm_cast_no_check (eq_refl true)).
  rewrite (same_language_sound lstate _ _ _ lstate_eqb_eq 100 _ LZero H w).
  rewrite (prefixed_run is_hex_digit eq_refl ["x"; "X"]%char false w).
  unfold with_prefix. destruct w as [|z [|m b]]; try reflexivity.
  simpl. rewrite andb_true_r. reflexivity.
Qed.

(** Literals with a prefix.  The hexadecimal literal is [0], [x] or [X],
    and hexadecimal digits with underscores between them.  [BIN_DIGITS]
    repeats a single digit, not a run of digits, so the binary literal is
    [0], [b] or [B], and binary digits that are each separated from the
    next by underscores: [0b1_0_1] is a literal constant, [0b101] is
    none. *)
Theorem bin_literal_single_digits :
  (forall w, re_match (token_re "hex_literal") w
             = with_prefix ["x"; "X"]%char (digit_groups is_hex_digit) w) /\
  (forall w, re_match (token_re "bin_literal") w
             = with_prefix ["b"; "B"]%char
                 (fun b => digit_groups is_bin_digit b && no_adjacent is_bin_digit b) w) /\
  parses (Sym "_literal_constant") "0b1_0_1" [binary_constant "0b1_0_1"]
    (items_of [binary_constant "0b1_0_1"] []) /\
  (forall ts items, ~ parses (Sym "_literal_constant") "0b101" ts items).
Proof.
  split; [exact hex_literal_shape|]. split; [|split].
  - intros w.
    assert (H : same_language (lstep ["b"; "B"]%char is_bin_digit true) lacc lstate_eqb
                   100 (token_re "bin_literal") LZero = true)
      by (vm_cast_no_check (eq_refl true)).
    rewrite (same_language_sound lstate _ _ _ lstate_eqb_eq 100 _ LZero H w).
    rewrite (prefixed_run is_bin_digit eq_refl ["b"; "B"]%char true w). reflexivity.
  - apply (parsesb_sound 16 100). vm_cast_no_check (eq_refl true).
  - apply (no_parse 40). vm_cast_no_check (eq_refl true).
Qed.

Lemma disjoint_both n a b w :
  disjoint_patterns n a b = true ->
  (re_match a w = true -> re_match b w = false) /\
  (re_match b w = true -> re_match a w = false).
Proof.
  intros H. pose proof (disjoint_patterns_sound n a b H w) as D. split; [exact D|].
  intros B. destruct (re_match a w); [|reflexivity]. rewrite D in B; [discriminate | reflexivity].
Qed.

(** No text is a numeric literal of two kinds: the real, integer,
    hexadecimal and binary literal tokens are pairwise disjoint. *)
Theorem numeric_literals_disjoint a b w :
  In a numeric_tokens -> In b numeric_tokens -> a <> b ->
  re_match (token_re a) w = true -> re_match (token_re b) w = false.
Proof.
  assert (RI : disjoint_patterns 100 (token_re "real_literal") (token_re "integer_literal") = true)
    by (vm_cast_no_check (eq_refl true)).
  assert (RH : disjoint_patterns 100 (token_re "real_literal") (token_re "hex_literal") = true)
    by (vm_cast_no_check (eq_refl true)).
  assert (RB : disjoint_patterns 100 (token_re "real_literal") (token_re "bin_literal") = true)
    by (vm_cast_no_check (eq_refl true)).
  assert (IH : disjoint_patterns 100 (token_re "integer_literal") (token_re "hex_literal") = true)
    by (vm_cast_no_check (eq_refl true)).
  assert (IB : disjoint_patterns 100 (token_re "integer_literal") (token_re "bin_literal") = true)
    by (vm_cast_no_check (eq_refl true)).
  assert (HB : disjoint_patterns 100 (token_re "hex_literal") (token_re "bin_literal") = true)
    by (vm_cast_no_check (eq_refl true)).
  intros Ha Hb Hne. simpl in Ha, Hb.
  destruct Ha as [<- | [<- | [<- | [<- | []]]]];
    destruct Hb as [<- | [<- | [<- | [<- | []]]]];
    try congruence; clear Hne;
    first [ apply (disjoint_both _ _ _ w RI) | apply (disjoint_both _ _ _ w RH)
          | apply (disjoint_both _ _ _ w RB) | apply (disjoint_both _ _ _ w IH)
          | apply (disjoint_both _ _ _ w IB) | apply (disjoint_both _ _ _ w HB) ].
Qed.

Lemma numeric_literals_disjoint_witness :
  re_match (token_re "integer_literal") "1_000" = true /\
  re_match (token_re "real_literal") "1_000" = false.
Proof.
  assert (M : re_match (token_re "integer_literal") "1_000" = true) by reflexivity.
  split; [exact M|].
  apply (numeric_literals_disjoint "integer_literal" "real_literal" "1_000");
    [simpl; auto | simpl; auto | discriminate | exact M].
Defined.

(* ================================================================== *)
(** * Real literals and comments                                       *)
(* ================================================================== *)

Module TokenFacts.
Import ScanFacts DigitFacts.
Local Open Scope string_scope.

Lemma last_char_cons c a w : last_char (String c (String a w)) = last_char (String a w).
Proof. reflexivity. Qed.

Lemma end_run ok s w :
  run (end_step ok) s w = match last_char w with Some c => ok c | None => s end.
Proof.
  revert s. induction w as [|c w IH]; intros s; [reflexivity|].
  simpl run. rewrite IH. destruct w as [|a w]; [reflexivity|].
  rewrite last_char_cons. destruct (last_char_some a w) as [b ->]. reflexivity.
Qed.

Lemma dstate_eqb_eq a b : dstate_eqb a b = true -> a = b.
Proof. destruct a, b; simpl; congruence. Qed.

Lemma dot_run s w :
  dacc (run dstep s w)
  = match s with
    | DPlain => digit_after_dots w
    | DDot => match w with String x _ => is_digit x | EmptyString => false end
              && digit_after_dots w
    | DDead => false
    end.
Proof.
  revert s. induction w as [|c w IH]; intros s; [destruct s; reflexivity|].
  simpl run. rewrite IH. destruct s; cbn [dstep digit_after_dots].
  - destruct (Ascii.eqb c "."); reflexivity.
  - destruct (is_digit c) eqn:D; [|reflexivity].
    assert (E : Ascii.eqb c "." = false).
    { destruct (Ascii.eqb c ".") eqn:E; [|reflexivity].
      apply Ascii.eqb_eq in E. subst c. discriminate D. }
    rewrite E. reflexivity.
  - reflexivity.
Qed.

Lemma count_run x w : forall n,
  n <= 2 -> run (count_step x) n w = Nat.min 2 (n + count_char x w).
Proof.
  induction w as [|c w IH]; intros n Hn; cbn [run count_char].
  - lia.
  - assert (S2 : count_step x n c <= 2) by (unfold count_step; destruct (Ascii.eqb c x); lia).
    rewrite (IH _ S2). unfold count_step. destruct (Ascii.eqb c x); lia.
Qed.

Lemma count_run_le x w :
  (run (count_step x) 0 w <=? 1)%nat = true -> count_char x w <= 1.
Proof.
  rewrite (count_run x w 0) by lia. intros H. apply Nat.leb_le in H. lia.
Qed.

Lemma cstate_eqb_eq a b : cstate_eqb a b = true -> a = b.
Proof. destruct a, b; simpl; congruence. Qed.

Lemma comment_run w : cacc (run cstep CStart w) = comment_shape w.
Proof.
  assert (Dead : forall w, cacc (run cstep CDead w) = false) by (induction w0; simpl; auto).
  assert (Done : forall w, cacc (run cstep CDone w)
                           = match w with EmptyString => true | _ => false end)
    by (intros [|c w0]; simpl; auto).
  assert (Line : forall w, cacc (run cstep CLine w) = negb (has_char LF w)).
  { unfold has_char. induction w0 as [|c w0 IH]; [reflexivity|]. simpl.
    destruct (Ascii.eqb c LF); simpl; [apply Dead | exact IH]. }
  assert (Body : forall w, cacc (run cstep CBody w) = closes_at_end false w /\
                           cacc (run cstep CStar w) = closes_at_end true w).
  { induction w0 as [|c w0 [IH1 IH2]]; [split; reflexivity|]. simpl.
    destruct (Ascii.eqb c "/") eqn:S1; destruct (Ascii.eqb c "*") eqn:S2; simpl;
      rewrite ?Done; auto;
      apply Ascii.eqb_eq in S1, S2; congruence. }
  destruct w as [|a [|b w]]; try reflexivity.
  - simpl. destruct (Ascii.eqb a "/"); reflexivity.
  - simpl. destruct (Ascii.eqb a "/"); simpl; [|apply Dead].
    destruct (Ascii.eqb b "/") eqn:S1; simpl; [rewrite Line, orb_comm; destruct (Ascii.eqb b "*") eqn:S2; simpl; [|reflexivity]|].
    + apply Ascii.eqb_eq in S1, S2. congruence.
    + destruct (Ascii.eqb b "*"); simpl; [apply Body | apply Dead].
Qed.

End TokenFacts.
Import TokenFacts.

(** A real literal ends with a digit or with the suffix [f] or [F], each
    dot in it is directly followed by a digit, and it holds at most one
    dot: [1.], [1.e5], [1e] and [1.5.2] are no real literals. *)
Theorem real_literal_shape w :
  re_match (token_re "real_literal") w = true ->
  ends_in (fun c => is_digit c || is_float_suffix c) w = true /\
  digit_after_dots w = true /\
  count_char "." w <= 1.
Proof.
  intros M.
  assert (E : sub_language (end_step (fun c => is_digit c || is_float_suffix c)) (fun s => s)
                Bool.eqb 100 (token_re "real_literal") false = true)
    by (vm_cast_no_check (eq_refl true)).
  assert (D : sub_language dstep dacc dstate_eqb 100 (token_re "real_literal") DPlain = true)
    by (vm_cast_no_check (eq_refl true)).
  assert (C : sub_language (count_step ".") (fun n => (n <=? 1)%nat) Nat.eqb 100
                (token_re "real_literal") 0 = true)
    by (vm_cast_no_check (eq_refl true)).
  split; [|split].
  - pose proof (sub_language_sound bool _ _ Bool.eqb Bool.eqb_prop 100 _ _ E w M) as H.
    cbv beta in H. rewrite end_run in H. exact H.
  - pose proof (sub_language_sound dstate _ _ dstate_eqb dstate_eqb_eq 100 _ _ D w M) as H.
    rewrite dot_run in H. exact H.
  - pose proof (sub_language_sound nat _ _ Nat.eqb (fun x y => proj1 (Nat.eqb_eq x y)) 100 _ _ C w M)
      as H.
    cbv beta in H. apply count_run_le, H.
Qed.

Lemma real_literal_shape_witness :
  re_match (token_re "real_literal") "53.9e-3F" = true /\
  ends_in (fun c => is_digit c || is_float_suffix c) "53.9e-3F" = true /\
  digit_after_dots "53.9e-3F" = true /\
  count_char "." "53.9e-3F" <= 1.
Proof.
  assert (M : re_match (token_re "real_literal") "53.9e-3F" = true) by reflexivity.
  split; [exact M | exact (real_literal_shape "53.9e-3F" M)].
Defined.

Lemma closes_before_end b v : forall star,
  v <> "" -> closes_at_end star (b ++ "*/" ++ v) = false.
Proof.
  induction b as [|c b IH]; intros star Hv.
  - simpl. rewrite andb_false_r. simpl. destruct v; [congruence | reflexivity].
  - simpl. destruct (star && Ascii.eqb c "/").
    + destruct b; reflexivity.
    + apply IH, Hv.
Qed.

(** The comment token: a line comment is [//] and the rest of the line, a
    block comment is [/*] and the text up to and including the first
    [*/].  Block comments do not nest: no comment token goes on after a
    [*/]. *)
Theorem comment_token_shape :
  (forall w, re_match (token_re "comment") w = comment_shape w) /\
  (forall b v, v <> "" -> re_match (token_re "comment") ("/*" ++ b ++ "*/" ++ v) = false).
Proof.
  assert (H : same_language cstep cacc cstate_eqb 100 (token_re "comment") CStart = true)
    by (vm_cast_no_check (eq_refl true)).
  assert (Sh : forall w, re_match (token_re "comment") w = comment_shape w).
  { intros w. rewrite (same_language_sound cstate _ _ _ cstate_eqb_eq 100 _ CStart H w).
    apply comment_run. }
  split; [exact Sh|].
  intros b v Hv. rewrite Sh. simpl. apply closes_before_end, Hv.
Qed.
Lemma derive_rep_parts r ts :
  derive_rep r ts <-> exists parts, Forall (derive r) parts /\ ts = List.concat parts.
Proof.
  split.
  - revert r ts.
    apply (derive_rep_ind' (fun _ _ => True) (fun _ _ => True) (fun _ _ => True)
             (fun r ts => exists parts, Forall (derive r) parts /\ ts = List.concat parts));
      auto.
    + intros r. exists []. split; [constructor | reflexivity].
    + intros r ts us D _ _ (parts & F & ->). exists (ts :: parts). split; [constructor; auto | reflexivity].
  - intros (parts & F & ->). induction F as [|p parts D F IH]; simpl; constructor; auto.
Qed.

Lemma pairs_of_parts r s parts :
  Forall (derive (Seq [s; r])) parts ->
  exists more : list (list tree * list tree),
    Forall (fun p => derive s (fst p) /\ derive r (snd p)) more /\
    List.concat parts = flat_map (fun p => fst p ++ snd p) more.
Proof.
  induction 1 as [|p parts D F (more & Fm & E)].
  - exists []. split; [constructor | reflexivity].
  - inv_all.
    match goal with
    | A : derive s ?a, B : derive r ?b |- _ => exists ((a, b) :: more)
    end.
    split; [constructor; auto|]. simpl. rewrite E, app_nil_r. reflexivity.
Qed.

(** What [sep1(rule, separator)] yields: one [rule], then any number of
    times a [separator] and a [rule]. *)
Lemma sep1_shape r s ts :
  derive (sep1 r s) ts <->
  exists (first : list tree) (more : list (list tree * list tree)),
    derive r first /\
    Forall (fun p => derive s (fst p) /\ derive r (snd p)) more /\
    ts = first ++ flat_map (fun p => fst p ++ snd p) more.
Proof.
  unfold sep1. split.
  - intros D. inv_all.
    match goal with H : derive_rep _ _ |- _ => apply derive_rep_parts in H as (parts & F & ->) end.
    match goal with H : derive r ?x |- _ => exists x end.
    destruct (pairs_of_parts r s parts F) as (more & Fm & E).
    exists more. split; [assumption|]. split; [assumption|].
    rewrite app_nil_r, E. reflexivity.
  - intros (first & more & D & F & ->).
    apply d_seq.
    replace (first ++ flat_map (fun p => fst p ++ snd p) more)
      with (first ++ (flat_map (fun p : list tree * list tree => fst p ++ snd p) more ++ []))
      by (rewrite app_nil_r; reflexivity).
    apply ds_cons; [exact D|]. apply ds_cons; [|constructor].
    apply d_repeat. apply derive_rep_parts.
    exists (map (fun p : list tree * list tree => fst p ++ snd p) more). split.
    + clear D. induction F as [|p more [Ds Dr] F IH]; simpl; constructor; auto.
      apply d_seq.
      replace (fst p ++ snd p) with (fst p ++ (snd p ++ [])) by (rewrite app_nil_r; reflexivity).
      repeat (constructor; auto).
    + rewrite flat_map_concat_map. reflexivity.
Qed.
(* ================================================================== *)
(** * Separated lists                                                  *)
(* ================================================================== *)

Module SepFacts.

Lemma last_app_cons (a : list string) x b d : last (a ++ x :: b) d = last (x :: b) d.
Proof.
  induction a as [|y a IH]; [reflexivity|].
  change ((y :: a) ++ x :: b) with (y :: (a ++ x :: b)).
  destruct (a ++ x :: b) eqn:E; [destruct a; discriminate E|]. exact IH.
Qed.

Lemma no_double_app c a x b :
  no_double c a = true -> no_double c (x :: b) = true ->
  String.eqb (last a "") c && String.eqb x c = false ->
  no_double c (a ++ x :: b) = true.
Proof.
  intros Ha Hb Hj. induction a as [|y a IH]; [exact Hb|].
  destruct a as [|z a].
  - change (no_double c (y :: x :: b) = true).
    change (negb (String.eqb y c && String.eqb x c) && no_double c (x :: b) = true).
    simpl in Hj. rewrite Hj, Hb. reflexivity.
  - change (negb (String.eqb y c && String.eqb z c) && no_double c ((z :: a) ++ x :: b) = true).
    change (negb (String.eqb y c && String.eqb z c) && no_double c (z :: a) = true) in Ha.
    apply andb_true_iff in Ha as [H1 H2]. rewrite H1. apply IH; assumption.
Qed.

Lemma separated_join c a b :
  separated c a = true -> separated c b = true -> separated c (a ++ c :: b) = true.
Proof.
  destruct a as [|x a]; [discriminate|]. destruct b as [|y b]; [intros _; discriminate|].
  intros Ha Hb.
  change (negb (String.eqb x c) && negb (String.eqb (last (x :: a) "") c)
          && no_double c (x :: a) = true) in Ha.
  change (negb (String.eqb y c) && negb (String.eqb (last (y :: b) "") c)
          && no_double c (y :: b) = true) in Hb.
  apply andb_true_iff in Ha as [Ha Ha3]. apply andb_true_iff in Ha as [Ha1 Ha2].
  apply andb_true_iff in Hb as [Hb Hb3]. apply andb_true_iff in Hb as [Hb1 Hb2].
  change (negb (String.eqb x c)
          && negb (String.eqb (last ((x :: a) ++ c :: y :: b) "") c)
          && no_double c ((x :: a) ++ c :: y :: b) = true).
  rewrite Ha1, last_app_cons.
  change (last (c :: y :: b) "") with (last (y :: b) ""). rewrite Hb2.
  apply no_double_app.
  - exact Ha3.
  - change (negb (String.eqb c c && String.eqb y c) && no_double c (y :: b) = true).
    apply negb_true_iff in Hb1. rewrite Hb1, andb_false_r. exact Hb3.
  - apply negb_true_iff in Ha2. rewrite Ha2. reflexivity.
Qed.

Lemma separated_more c (more : list (list tree * list tree)) : forall a,
  separated c a = true ->
  Forall (fun p => leaf_texts (fst p) = [c] /\ separated c (leaf_texts (snd p)) = true) more ->
  separated c (a ++ leaf_texts (flat_map (fun p => fst p ++ snd p) more)) = true.
Proof.
  induction more as [|p more IH]; intros a Ha F.
  - simpl. rewrite app_nil_r. exact Ha.
  - inversion F as [|? ? [H1 H2] F']; subst.
    change (flat_map (fun p => fst p ++ snd p) (p :: more))
      with ((fst p ++ snd p) ++ flat_map (fun p => fst p ++ snd p) more).
    rewrite !leaf_texts_app, H1, app_assoc. apply IH; [|exact F'].
    apply (separated_join c a (leaf_texts (snd p))); assumption.
Qed.

(** An identifier token is not the dot. *)
Lemma simple_identifier_no_dot us :
  derive (Sym "simple_identifier") us -> separated "." (leaf_texts us) = true.
Proof.
  intros D. open_sym "simple_identifier". inv_all; try reflexivity.
  open_sym "lexical_identifier_". inv_all.
  - open_sym "_alpha_identifier". inv_all.
    unfold leaf_texts. simpl. destruct (String.eqb w ".") eqn:E; [|reflexivity].
    apply String.eqb_eq in E. subst w.
    match goal with H : re_match _ "." = true |- _ => vm_compute in H; discriminate H end.
  - open_sym "_backtick_identifier". inv_all.
    unfold leaf_texts. simpl. destruct (String.eqb w ".") eqn:E; [|reflexivity].
    apply String.eqb_eq in E. subst w.
    match goal with H : re_match _ "." = true |- _ => vm_compute in H; discriminate H end.
Qed.

End SepFacts.

(** [sep1(rule, separator)] puts the separator between the elements and
    nowhere else.  Where no element is empty, begins or ends with the
    separator token or holds it twice in a row, neither does the list:
    it is never empty, has no separator first or last and none doubled.
    A dotted name is such a list: it never begins or ends with a dot and
    holds no two dots in a row.  An element that can be empty breaks
    this: the list may then be a lone separator. *)
Theorem sep1_separates :
  (forall r c ts,
     (forall us, derive r us -> separated c (leaf_texts us) = true) ->
     derive (sep1 r (Str c)) ts -> separated c (leaf_texts ts) = true) /\
  (forall ts, derive (Sym "identifier") ts -> separated "." (leaf_texts ts) = true) /\
  (forall c, derive (sep1 Blank (Str c)) [tok c] /\ separated c (leaf_texts [tok c]) = false).
Proof.
  assert (G : forall r c ts,
            (forall us, derive r us -> separated c (leaf_texts us) = true) ->
            derive (sep1 r (Str c)) ts -> separated c (leaf_texts ts) = true).
  { intros r c ts Hr D. apply sep1_shape in D as (first & more & D & F & ->).
    rewrite leaf_texts_app. apply SepFacts.separated_more; [apply Hr, D|].
    clear D. induction F as [|p more [Ds Dp] F IH]; constructor; auto.
    split; [|apply Hr, Dp]. inversion Ds; subst. reflexivity. }
  split; [exact G|]. split.
  - intros ts D. open_sym "identifier".
    match goal with H : derive _ _ |- _ =>
      pose proof (G (Sym "simple_identifier") "." _ SepFacts.simple_identifier_no_dot H) as S1
    end.
    rewrite leaf_texts_node. exact S1.
  - intros c. split.
    + unfold sep1. apply d_seq.
      change [tok c] with ([] ++ [tok c] ++ []). apply ds_cons; [apply d_blank|].
      apply ds_cons; [|apply ds_nil]. apply d_repeat.
      change [tok c] with (([tok c] ++ [] ++ []) ++ []). apply dr_cons; [|apply dr_nil].
      apply d_seq. apply ds_cons; [apply d_str|]. apply ds_cons; [apply d_blank | apply ds_nil].
    + unfold leaf_texts. simpl. rewrite String.eqb_refl. reflexivity.
Qed.

Lemma sep1_separates_witness :
  derive (Sym "identifier") [Node "identifier" [ident "a"; tok "."; ident "b"]] /\
  separated "." ["a"; "."; "b"] = true.
Proof.
  assert (D : derive (Sym "identifier") [Node "identifier" [ident "a"; tok "."; ident "b"]])
    by (apply (derive_by_search 16 100); vm_compute; reflexivity).
  split; [exact D|]. exact (proj1 (proj2 sep1_separates) _ D).
Defined.

(* ================================================================== *)
(** * The rule table as a whole                                        *)
(* ================================================================== *)

Module TableFacts.

Lemma assoc_find_NoDup n r l :
  NoDup (map fst l) -> In (n, r) l -> assoc_find n l = Some r.
Proof.
  induction l as [|[k v] l IH]; simpl; intros ND Hin; [destruct Hin|].
  inversion ND as [|? ? Hk ND']; subst.
  destruct Hin as [[= -> ->] | Hin].
  - rewrite String.eqb_refl. reflexivity.
  - destruct (String.eqb n k) eqn:E; [|auto].
    apply String.eqb_eq in E. subst k. exfalso. apply Hk.
    apply (in_map fst) in Hin. exact Hin.
Qed.

Lemma rules_NoDup : NoDup (map fst rules).
Proof.
  assert (E : nodup string_dec (map fst rules) = map fst rules) by (vm_compute; reflexivity).
  rewrite <- E. apply NoDup_nodup.
Qed.

Lemma is_some_spec {X : Type} (o : option X) : is_some o = true -> exists x, o = Some x.
Proof. destruct o; [eauto | discriminate]. Qed.

Lemma rule_or_blank_of n r : rule_of n = Some r -> rule_or_blank n = r.
Proof. unfold rule_or_blank. intros ->. reflexivity. Qed.

(** Node kinds stay inside a set of names that is closed under the
    rules. *)
Section Closed.
Variable T : list string.
Hypothesis HT : reach_closed T = true.

Let inside (r : rule) : Prop := forallb (fun m => mem m T) (syms r) = true.
Let kinds (ts : list tree) : Prop := forall k, existsb (has_node k) ts = true -> mem k T = true.

Lemma closed_rule n r : mem n T = true -> rule_of n = Some r -> inside r.
Proof.
  intros Hn R. unfold reach_closed in HT. rewrite forallb_forall in HT.
  apply mem_In in Hn. specialize (HT _ Hn). rewrite (rule_or_blank_of _ _ R) in HT. exact HT.
Qed.

Lemma kinds_app ts us : kinds ts -> kinds us -> kinds (ts ++ us).
Proof.
  unfold kinds. intros A B k H. rewrite existsb_app in H.
  apply orb_true_iff in H as [H | H]; auto.
Qed.

Lemma kinds_closed_all :
  (forall r ts, derive r ts -> inside r -> kinds ts) /\
  (forall rs ts, derive_seq rs ts -> forallb (fun m => mem m T) (flat_map syms rs) = true -> kinds ts) /\
  (forall rs ts, derive_alt rs ts -> forallb (fun m => mem m T) (flat_map syms rs) = true -> kinds ts) /\
  (forall r ts, derive_rep r ts -> inside r -> kinds ts).
Proof.
  apply derive_mutind; unfold inside.
  - intros _ k H. discriminate.
  - intros s _ k H. discriminate.
  - intros p w _ _ k H. discriminate.
  - intros r w _ _ k H. discriminate.
  - intros n r ts R D IH Hn k H. simpl in Hn, H.
    rewrite andb_true_r in Hn. rewrite orb_false_r in H.
    apply orb_true_iff in H as [H | H].
    + apply String.eqb_eq in H. subst k. exact Hn.
    + exact (IH (closed_rule n r Hn R) k H).
  - intros n w _ _ k H. discriminate.
  - intros rs ts _ IH H. exact (IH H).
  - intros rs ts _ IH H. exact (IH H).
  - intros r ts _ IH H. exact (IH H).
  - intros r ts us _ IH1 _ IH2 H. apply kinds_app; auto.
  - intros p r ts _ IH H. exact (IH H).
  - intros p r ts _ IH H. exact (IH H).
  - intros p r ts _ IH H. exact (IH H).
  - intros p r ts _ IH H. exact (IH H).
  - intros f r ts _ IH H k Hk. simpl in Hk. rewrite orb_false_r in Hk. exact (IH H k Hk).
  - intros r n ts _ IH H k Hk. simpl in Hk. rewrite orb_false_r in Hk. exact (IH H k Hk).
  - intros _ k H. discriminate.
  - intros r rs ts us _ IH1 _ IH2 H. simpl in H. rewrite forallb_app in H.
    apply andb_true_iff in H as [H1 H2]. apply kinds_app; auto.
  - intros r rs ts _ IH H. simpl in H. rewrite forallb_app in H.
    apply andb_true_iff in H as [H1 H2]. auto.
  - intros r rs ts _ IH H. simpl in H. rewrite forallb_app in H.
    apply andb_true_iff in H as [H1 H2]. auto.
  - intros r _ k H. discriminate.
  - intros r ts us _ IH1 _ IH2 H. apply kinds_app; auto.
Qed.

Lemma kinds_closed n ts k :
  mem n T = true -> derive (Sym n) ts -> existsb (has_node k) ts = true -> mem k T = true.
Proof.
  intros Hn D. apply (proj1 kinds_closed_all (Sym n) ts D).
  unfold inside. simpl. rewrite Hn. reflexivity.
Qed.
End Closed.
End TableFacts.

Import TableFacts.

(** The rule table is closed: no key is written twice, so a lookup finds
    the rule written under a name; every symbol a rule mentions is a key
    or the external token; the conflicts, the extras and [word] name keys
    only. *)
Theorem grammar_is_closed :
  NoDup (map fst rules) /\
  (forall n r, In (n, r) rules -> rule_of n = Some r) /\
  (forall n r m, In (n, r) rules -> In m (syms r) ->
     (exists r', rule_of m = Some r') \/ is_external m = true) /\
  (forall c n, In c conflicts -> In n c -> exists r, rule_of n = Some r) /\
  (forall e m, In e (word :: extras) -> In m (syms e) -> exists r, rule_of m = Some r).
Proof.
  split; [exact rules_NoDup|]. split; [|split; [|split]].
  - intros n r H. apply assoc_find_NoDup; [exact rules_NoDup | exact H].
  - intros n r m Hr Hm.
    assert (A : forallb (fun nr => forallb defined (syms (snd nr))) rules = true)
      by (vm_cast_no_check (eq_refl true)).
    rewrite forallb_forall in A. specialize (A _ Hr). cbn [fst snd] in A.
    rewrite forallb_forall in A. specialize (A _ Hm). unfold defined in A.
    apply orb_true_iff in A as [A | A]; [left; apply is_some_spec, A | right; exact A].
  - intros c n Hc Hn.
    assert (A : forallb (forallb (fun n => is_some (rule_of n))) conflicts = true)
      by (vm_cast_no_check (eq_refl true)).
    rewrite forallb_forall in A. specialize (A _ Hc).
    rewrite forallb_forall in A. apply is_some_spec, A, Hn.
  - intros e m He Hm.
    assert (A : forallb (fun e => forallb (fun n => is_some (rule_of n)) (syms e))
                  (word :: extras) = true) by (vm_cast_no_check (eq_refl true)).
    rewrite forallb_forall in A. specialize (A _ He).
    rewrite forallb_forall in A. apply is_some_spec, A, Hm.
Qed.

Lemma unused_rules_eq :
  unused_rules
  = ["top_level_object"; "_annotated_delegation_specifier";
     "parameters_with_optional_type"; "parenthesized_user_type";
     "line_string_expression"; "_indexing_suffix"; "_this_at"; "_super_at"; "_not_in"].
Proof. vm_compute. reflexivity. Qed.

(** Nine rules are written and never used: no rule that a program or an
    extra reaches mentions them, and no tree of a program holds a node of
    their kind. *)
Theorem unused_rules_never_appear :
  unused_rules
  = ["top_level_object"; "_annotated_delegation_specifier";
     "parameters_with_optional_type"; "parenthesized_user_type";
     "line_string_expression"; "_indexing_suffix"; "_this_at"; "_super_at"; "_not_in"] /\
  (forall n r k, In (n, r) rules -> In k (syms r) -> In k unused_rules -> In n unused_rules) /\
  (forall ts k, derive (Sym "program") ts -> In k unused_rules ->
     existsb (has_node k) ts = false).
Proof.
  split; [exact unused_rules_eq|]. rewrite unused_rules_eq.
  set (U := ["top_level_object"; "_annotated_delegation_specifier";
     "parameters_with_optional_type"; "parenthesized_user_type";
     "line_string_expression"; "_indexing_suffix"; "_this_at"; "_super_at"; "_not_in"]).
  split.
  - intros n r k Hr Hk Hu.
    assert (A : forallb (fun nr => forallb (fun k => implb (mem k U) (mem (fst nr) U))
                                     (syms (snd nr))) rules = true)
      by (vm_cast_no_check (eq_refl true)).
    rewrite forallb_forall in A. specialize (A _ Hr).
    rewrite forallb_forall in A. specialize (A _ Hk).
    apply (proj2 (mem_In k U)) in Hu. rewrite Hu in A.
    exact (proj1 (mem_In n U) A).
  - intros ts k D Hu.
    destruct (existsb (has_node k) ts) eqn:E; [|reflexivity].
    assert (C : reach_closed program_symbols = true) by (vm_cast_no_check (eq_refl true)).
    assert (P : mem "program" program_symbols = true) by (vm_cast_no_check (eq_refl true)).
    pose proof (kinds_closed program_symbols C "program" ts k P D E) as M.
    assert (A : forallb (fun k => negb (mem k program_symbols)) U = true)
      by (vm_cast_no_check (eq_refl true)).
    rewrite forallb_forall in A. specialize (A _ Hu). rewrite M in A. discriminate A.
Qed.

(** The empty program. *)
Lemma empty_program_derives :
  derive (Sym "program")
    [Node "program" [FieldT "import_list" []; FieldT "statement_list" []]].
Proof.
  eapply d_sym; [reflexivity|]. apply d_seq.
  change [FieldT "import_list" []; FieldT "statement_list" []]
    with ([] ++ [] ++ [] ++ [FieldT "import_list" []] ++ [FieldT "statement_list" []]
          ++ ([] : list tree)).
  repeat apply ds_cons; try apply ds_nil.
  - apply d_choice, da_next, da_here, d_blank.
  - apply d_repeat, dr_nil.
  - apply d_choice, da_next, da_here, d_blank.
  - apply d_choice, da_next, da_here, d_field, d_blank.
  - apply d_choice, da_next, da_here, d_field, d_blank.
Qed.

(** The start rule alone can yield no token at all: a node of any other
    kind covers at least one token. *)
Theorem only_program_can_be_empty :
  (forall n ts, derive (Sym n) ts -> leaf_texts ts = [] -> n = "program") /\
  (exists ts, derive (Sym "program") ts /\ leaf_texts ts = []).
Proof.
  split.
  - intros n ts D E.
    assert (C : closed_for (fun T => can T []) empty_symbols = true)
      by (vm_cast_no_check (eq_refl true)).
    inversion D as [| | | | n' r ts' R D' | n' w X | | | | | | | | | |]; subst.
    + rewrite leaf_texts_node in E.
      pose proof (nullable_sound empty_symbols r ts' C D' E) as N.
      pose proof (closed_for_spec _ _ n r C R N) as M.
      assert (Es : empty_symbols = ["program"]) by (vm_compute; reflexivity).
      rewrite Es in M. apply mem_In in M. destruct M as [<- | []]. reflexivity.
    + discriminate E.
  - eexists. split; [exact empty_program_derives | reflexivity].
Qed.

Lemma only_program_can_be_empty_witness :
  derive (Sym "program")
    [Node "program" [FieldT "import_list" []; FieldT "statement_list" []]] /\
  "program" = "program".
Proof.
  split; [exact empty_program_derives|].
  exact (proj1 only_program_can_be_empty "program" _ empty_program_derives eq_refl).
Defined.

Lemma grammar_is_closed_witness :
  rule_of "statement" = Some (Seq [Sym "statement_"; Sym "_semi"]).
Proof.
  apply (proj1 (proj2 grammar_is_closed)). right. left. reflexivity.
Defined.

Lemma unused_rules_never_appear_witness :
  derive (Sym "program") [a_not_in_b] /\
  leaf_texts [a_not_in_b] = ["a"; "!in"; "b"; ";"] /\
  existsb (has_node "_not_in") [a_not_in_b] = false.
Proof.
  assert (D : derive (Sym "program") [a_not_in_b])
    by (apply (derive_by_search 16 100); vm_compute; reflexivity).
  split; [exact D|]. split; [reflexivity|].
  apply (proj2 (proj2 unused_rules_never_appear) _ "_not_in" D).
  rewrite unused_rules_eq. simpl. tauto.
Defined.
(* ================================================================== *)
(** * Brackets                                                         *)
(* ================================================================== *)

Module BracketFacts.

Section Brackets.
Variables opens closes : list string.
Hypothesis Hbal : balanced opens closes = true.

Let net (ts : list tree) : Z := net_brackets opens closes ts.

Lemma net_app ts us : net (ts ++ us) = (net ts + net us)%Z.
Proof.
  unfold net, net_brackets, forest_leaves. rewrite flat_map_app, map_app.
  induction (map (fun l => bracket_weight opens closes (fst l)) (flat_map leaves ts)) as [|z l IH];
    simpl; [reflexivity | rewrite IH; lia].
Qed.

Lemma net_wrap_node n ts : net [Node n ts] = net ts.
Proof. unfold net, net_brackets, forest_leaves. simpl. rewrite app_nil_r. reflexivity. Qed.

Lemma net_wrap_field n ts : net [FieldT n ts] = net ts.
Proof. unfold net, net_brackets, forest_leaves. simpl. rewrite app_nil_r. reflexivity. Qed.

Lemma net_wrap_alias n ts : net [AliasT n ts] = net ts.
Proof. unfold net, net_brackets, forest_leaves. simpl. rewrite app_nil_r. reflexivity. Qed.

Lemma rule_balanced n r : rule_of n = Some r -> bal opens closes r = Some 0%Z.
Proof.
  intros R. unfold balanced in Hbal. rewrite forallb_forall in Hbal.
  specialize (Hbal _ (assoc_find_In _ _ _ R)). cbn [snd] in Hbal.
  destruct (bal opens closes r) as [z|]; [|discriminate Hbal].
  simpl in Hbal. apply Z.eqb_eq in Hbal. congruence.
Qed.

Let bal_seq (rs : list rule) : option Z :=
  fold_right (fun x acc => match bal opens closes x, acc with
                           | Some a, Some b => Some (a + b)%Z
                           | _, _ => None
                           end) (Some 0%Z) rs.

Let bal_alt (rs : list rule) (z : Z) : Prop :=
  Forall (fun r => bal opens closes r = Some z) rs.

Lemma bal_choice rs z : bal opens closes (Choice rs) = Some z -> bal_alt rs z.
Proof.
  cbn [bal]. destruct rs as [|r rs]; [discriminate|]. cbn [map].
  destruct (forallb _ _) eqn:F; [|discriminate]. intros E.
  constructor; [exact E|]. rewrite forallb_forall in F.
  apply Forall_forall. intros x Hx.
  specialize (F _ (in_map (bal opens closes) _ _ Hx)). rewrite E in F.
  destruct (bal opens closes x); [|discriminate F]. simpl in F.
  apply Z.eqb_eq in F. congruence.
Qed.

Lemma bal_repeat x z :
  match bal opens closes x with Some 0%Z => Some 0%Z | _ => None end = Some z ->
  z = 0%Z /\ bal opens closes x = Some 0%Z.
Proof. destruct (bal opens closes x) as [[| |]|]; intros [= <-]; auto. Qed.

Lemma net_bal_all :
  (forall r ts, derive r ts -> forall z, bal opens closes r = Some z -> net ts = z) /\
  (forall rs ts, derive_seq rs ts -> forall z, bal_seq rs = Some z -> net ts = z) /\
  (forall rs ts, derive_alt rs ts -> forall z, bal_alt rs z -> net ts = z) /\
  (forall r ts, derive_rep r ts -> bal opens closes r = Some 0%Z -> net ts = 0%Z).
Proof.
  apply derive_mutind.
  - intros z [= <-]. reflexivity.
  - intros s z [= <-]. unfold net, net_brackets. simpl. lia.
  - intros p w _ z [= <-]. reflexivity.
  - intros r w _ z [= <-]. reflexivity.
  - intros n r ts R _ IH z [= <-]. rewrite net_wrap_node. apply IH. exact (rule_balanced n r R).
  - intros n w _ z [= <-]. reflexivity.
  - intros rs ts _ IH z H. exact (IH z H).
  - intros rs ts _ IH z H. exact (IH z (bal_choice rs z H)).
  - intros r ts _ IH z H. cbn [bal] in H. apply bal_repeat in H as [-> H]. exact (IH H).
  - intros r ts us _ IH1 _ IH2 z H. cbn [bal] in H. apply bal_repeat in H as [-> H].
    rewrite net_app, (IH1 _ H), (IH2 H). reflexivity.
  - intros p r ts _ IH z H. exact (IH z H).
  - intros p r ts _ IH z H. exact (IH z H).
  - intros p r ts _ IH z H. exact (IH z H).
  - intros p r ts _ IH z H. exact (IH z H).
  - intros f r ts _ IH z H. rewrite net_wrap_field. exact (IH z H).
  - intros r n ts _ IH z H. rewrite net_wrap_alias. exact (IH z H).
  - intros z [= <-]. reflexivity.
  - intros r rs ts us _ IH1 _ IH2 z H. unfold bal_seq in H. cbn [fold_right] in H.
    fold (bal_seq rs) in H.
    destruct (bal opens closes r) as [a|] eqn:A; [|discriminate H].
    destruct (bal_seq rs) as [b|] eqn:B; [|discriminate H].
    injection H as <-. rewrite net_app, (IH1 a eq_refl), (IH2 b eq_refl). reflexivity.
  - intros r rs ts _ IH z H. inversion H; subst. auto.
  - intros r rs ts _ IH z H. inversion H; subst. auto.
  - intros r _. reflexivity.
  - intros r ts us _ IH1 _ IH2 H. rewrite net_app, (IH1 _ H), (IH2 H). reflexivity.
Qed.

Hypothesis Hdisj : forallb (fun s => negb (mem s closes)) opens = true.

Lemma net_counts ts :
  net ts = (Z.of_nat (count_leaves opens ts) - Z.of_nat (count_leaves closes ts))%Z.
Proof.
  unfold net, net_brackets, count_leaves.
  induction (forest_leaves ts) as [|[t w] l IH]; [reflexivity|].
  cbn [map fold_right filter fst]. rewrite IH. clear IH.
  destruct t; cbn [bracket_weight]; try lia.
  destruct (mem value opens) eqn:O.
  - rewrite forallb_forall in Hdisj. apply mem_In in O. specialize (Hdisj _ O).
    apply negb_true_iff in Hdisj. rewrite Hdisj. cbn [List.length]. lia.
  - destruct (mem value closes); cbn [List.length]; lia.
Qed.

Lemma counts_equal n ts :
  derive (Sym n) ts -> count_leaves opens ts = count_leaves closes ts.
Proof.
  intros D. pose proof (proj1 net_bal_all (Sym n) ts D 0%Z eq_refl) as H.
  rewrite net_counts in H. lia.
Qed.
End Brackets.
End BracketFacts.

(** Brackets are balanced: in all that a symbol yields there are as many
    [(] as [)] tokens, as many [[] as []] tokens, and as many [{] and [${]
    tokens together as [}] tokens. *)
Theorem brackets_are_balanced n ts :
  derive (Sym n) ts ->
  count_leaves ["("] ts = count_leaves [")"] ts /\
  count_leaves ["["] ts = count_leaves ["]"] ts /\
  count_leaves ["{"; "${"] ts = count_leaves ["}"] ts.
Proof.
  intros D. split; [|split].
  - apply (BracketFacts.counts_equal ["("] [")"]) with (n := n); try exact D;
      vm_cast_no_check (eq_refl true).
  - apply (BracketFacts.counts_equal ["["] ["]"]) with (n := n); try exact D;
      vm_cast_no_check (eq_refl true).
  - apply (BracketFacts.counts_equal ["{"; "${"] ["}"]) with (n := n); try exact D;
      vm_cast_no_check (eq_refl true).
Qed.
(* ================================================================== *)
(** * Empty tokens                                                     *)
(* ================================================================== *)

Module EmptyFacts.

Lemma lit_self s : re_match (Lit s) s = true.
Proof.
  apply re_match_correct. induction s as [|c s IH]; simpl; [constructor|].
  change (String c s) with (String c "" ++ s)%string. constructor; [|exact IH].
  constructor. unfold in_class, in_range. simpl.
  rewrite Nat.leb_refl. reflexivity.
Qed.

Lemma only_known_app ts us : only_known ts -> only_known us -> only_known (ts ++ us).
Proof.
  unfold only_known, forest_leaves. intros A B term H. rewrite flat_map_app in H.
  apply in_app_or in H as [H | H]; auto.
Qed.

Lemma only_known_wrap (f : list tree -> tree) ts :
  leaves (f ts) = flat_map leaves ts -> only_known ts -> only_known [f ts].
Proof.
  unfold only_known, forest_leaves. intros E A term H. simpl in H.
  rewrite app_nil_r, E in H. auto.
Qed.

Lemma sound_terminals_app a b :
  sound_terminals (a ++ b) -> sound_terminals a /\ sound_terminals b.
Proof.
  unfold sound_terminals. intros H. split; intros t Ht; apply H; apply in_or_app; auto.
Qed.

Lemma rules_sound n r : rule_of n = Some r -> sound_terminals (terminals r).
Proof.
  intros R t Ht E.
  assert (A : forallb (fun nr => forallb (fun t => negb (matches_empty t) || rule_eqb t shebang_text)
                                   (terminals (snd nr))) rules = true)
    by (vm_cast_no_check (eq_refl true)).
  rewrite forallb_forall in A. specialize (A _ (assoc_find_In _ _ _ R)).
  rewrite forallb_forall in A. specialize (A _ Ht).
  rewrite E in A. apply rule_eqb_eq in A. exact A.
Qed.

Lemma external_name n : is_external n = true -> n = "_automatic_semicolon".
Proof.
  unfold is_external, externals. simpl. rewrite orb_false_r. apply String.eqb_eq.
Qed.

Lemma leaf_known t w :
  sound_terminals [t] -> re_match (term_re t) w = true -> only_known [Leaf t w].
Proof.
  intros S M term H. simpl in H. destruct H as [[= -> ->] | []].
  left. apply S; [left; reflexivity | exact M].
Qed.

Lemma empty_leaves_all :
  (forall r ts, derive r ts -> sound_terminals (terminals r) -> only_known ts) /\
  (forall rs ts, derive_seq rs ts -> sound_terminals (flat_map terminals rs) -> only_known ts) /\
  (forall rs ts, derive_alt rs ts -> sound_terminals (flat_map terminals rs) -> only_known ts) /\
  (forall r ts, derive_rep r ts -> sound_terminals (terminals r) -> only_known ts).
Proof.
  apply derive_mutind.
  - intros _ term H. destruct H.
  - intros s S. apply leaf_known; [exact S | apply lit_self].
  - intros p w M S. apply leaf_known; [exact S | exact M].
  - intros r w M S. apply leaf_known; [exact S | exact M].
  - intros n r ts R _ IH _. apply (only_known_wrap (Node n)); [reflexivity|].
    apply IH. exact (rules_sound n r R).
  - intros n w X _ term H. simpl in H. destruct H as [[= <- _] | []].
    right. rewrite (external_name n X). reflexivity.
  - intros rs ts _ IH S. exact (IH S).
  - intros rs ts _ IH S. exact (IH S).
  - intros r ts _ IH S. exact (IH S).
  - intros r ts us _ IH1 _ IH2 S. apply only_known_app; auto.
  - intros p r ts _ IH S. exact (IH S).
  - intros p r ts _ IH S. exact (IH S).
  - intros p r ts _ IH S. exact (IH S).
  - intros p r ts _ IH S. exact (IH S).
  - intros f r ts _ IH S. apply (only_known_wrap (FieldT f)); [reflexivity | exact (IH S)].
  - intros r n ts _ IH S. apply (only_known_wrap (AliasT n)); [reflexivity | exact (IH S)].
  - intros _ term H. destruct H.
  - intros r rs ts us _ IH1 _ IH2 S. simpl in S. apply sound_terminals_app in S as [S1 S2].
    apply only_known_app; auto.
  - intros r rs ts _ IH S. simpl in S. apply sound_terminals_app in S as [S1 S2]. auto.
  - intros r rs ts _ IH S. simpl in S. apply sound_terminals_app in S as [S1 S2]. auto.
  - intros r _ term H. destruct H.
  - intros r ts us _ IH1 _ IH2 S. apply only_known_app; auto.
Qed.

End EmptyFacts.

(** Tokens are not empty.  The text of a shebang line is the one terminal
    of the grammar that matches the empty text, and in all that a symbol
    yields a leaf with empty text is that terminal or the external
    automatic semicolon. *)
Theorem tokens_are_not_empty :
  empty_terminals = [("shebang_line", shebang_text)] /\
  (forall n ts term, derive (Sym n) ts -> In (term, "") (forest_leaves ts) ->
     term = shebang_text \/ term = Sym "_automatic_semicolon").
Proof.
  split; [vm_compute; reflexivity|]. intros n ts term D H.
  apply (proj1 EmptyFacts.empty_leaves_all (Sym n) ts D); [|exact H].
  intros t [].
Qed.

Lemma tokens_are_not_empty_witness :
  derive (Sym "shebang_line") [Node "shebang_line" [tok "#!"; Leaf shebang_text ""]] /\
  (shebang_text = shebang_text \/ shebang_text = Sym "_automatic_semicolon").
Proof.
  assert (D : derive (Sym "shebang_line") [Node "shebang_line" [tok "#!"; Leaf shebang_text ""]]).
  { eapply d_sym; [reflexivity|]. apply d_seq.
    change [tok "#!"; Leaf shebang_text ""] with ([tok "#!"] ++ [Leaf shebang_text ""] ++ []).
    apply ds_cons; [apply d_str|]. apply ds_cons; [|apply ds_nil].
    apply d_pat. reflexivity. }
  split; [exact D|].
  refine (proj2 tokens_are_not_empty "shebang_line" _ shebang_text D _).
  simpl. right. left. reflexivity.
Defined.
(* ================================================================== *)
(** * Prefix operators and the precedence table                        *)
(* ================================================================== *)

Lemma prefix_operand_rejected n p op x op2 y :
  In (n, p) binary_rules ->
  conforms (Node n [prefixed op (Node "expression_" x); op2; y]) = false.
Proof.
  intros H.
  assert (R : node_prec n = Some (AssocLeft, p) /\
              left_ok p [prefixed op (Node "expression_" x); op2; y] = false).
  { simpl in H.
    repeat (destruct H as [[= <- <-] | H]; [split; reflexivity|]).
    destruct H. }
  destruct R as [R1 R2]. cbn [conforms]. rewrite R1, R2. reflexivity.
Qed.

(** The levels [PREC.PREFIX] and [PREC.TYPE_RHS] are written in the table
    and applied by no rule.  A prefix expression is declared at level 0,
    below every binary form: a binary expression whose left operand is a
    prefix expression is never built, and [- a * b] groups as
    [- (a * b)]. *)
Theorem prefix_binds_loosest :
  (forall n r, In (n, r) rules ->
     ~ In PREC.PREFIX (precs r) /\ ~ In PREC.TYPE_RHS (precs r)) /\
  precs (rule_or_blank "prefix_expression") = [0%Z] /\
  (forall n p, In (n, p) binary_rules -> (0 < p)%Z) /\
  (forall n p op x op2 y, In (n, p) binary_rules ->
     conforms (Node n [prefixed op (Node "expression_" x); op2; y]) = false) /\
  (forall ts, derive (Sym "expression_") ts -> leaf_texts ts = minus_a_times_b ->
     forallb conforms ts = true ->
     ts = [prefixed "-" (multiplicative (primary (ident "a")) "*" (primary (ident "b")))]).
Proof.
  split; [|split; [|split; [|split]]].
  - intros n r H.
    assert (A : forallb (fun nr => negb (existsb (Z.eqb PREC.PREFIX) (precs (snd nr)))
                                   && negb (existsb (Z.eqb PREC.TYPE_RHS) (precs (snd nr))))
                  rules = true) by (vm_cast_no_check (eq_refl true)).
    rewrite forallb_forall in A. specialize (A _ H). cbn [snd] in A.
    apply andb_true_iff in A as [A1 A2]. apply negb_true_iff in A1, A2.
    split; intros I.
    + assert (E : existsb (Z.eqb PREC.PREFIX) (precs r) = true)
        by (apply existsb_exists; exists PREC.PREFIX; split; [exact I | apply Z.eqb_refl]).
      congruence.
    + assert (E : existsb (Z.eqb PREC.TYPE_RHS) (precs r) = true)
        by (apply existsb_exists; exists PREC.TYPE_RHS; split; [exact I | apply Z.eqb_refl]).
      congruence.
  - vm_compute. reflexivity.
  - intros n p H. simpl in H.
    repeat (destruct H as [[= <- <-] | H]; [reflexivity|]). destruct H.
  - intros. apply prefix_operand_rejected with (p := p). assumption.
  - intros ts D E C. apply forest_eqb_eq.
    assert (H : check_all 16 100 (Sym "expression_") minus_a_times_b
                  (fun ts => implb (forallb conforms ts)
                     (is_forest [prefixed "-" (multiplicative (primary (ident "a")) "*"
                                                (primary (ident "b")))] ts)) = true)
      by (vm_cast_no_check (eq_refl true)).
    pose proof (check_all_sound _ _ _ _ _ H ts D E) as R. cbv beta in R.
    rewrite C in R. exact R.
Qed.

(* ================================================================== *)
(** * Keywords are whole words                                         *)
(* ================================================================== *)

Module WordFacts.
Local Open Scope string_scope.

Lemma wstate_eqb_eq a b : wstate_eqb a b = true -> a = b.
Proof. destruct a, b; simpl; congruence. Qed.

Lemma word_scan w : re_match (token_re "_alpha_identifier") w = wacc (run wstep WStart w).
Proof.
  assert (H : same_language wstep wacc wstate_eqb 100 (token_re "_alpha_identifier") WStart = true)
    by (vm_cast_no_check (eq_refl true)).
  exact (same_language_sound wstate _ _ _ wstate_eqb_eq 100 _ WStart H w).
Qed.

Lemma run_app {St : Type} (step : St -> ascii -> St) u : forall s v,
  run step s (u ++ v) = run step (run step s u) v.
Proof. induction u as [|c u IH]; intros s v; simpl; auto. Qed.

Lemma run_dead w : run wstep WDead w = WDead.
Proof. induction w; simpl; auto. Qed.

Lemma wacc_word s : wacc s = true -> s = WWord.
Proof. destruct s; simpl; congruence. Qed.

(** A word goes on with a word character, and with nothing else. *)
Lemma word_extends k c u :
  re_match (token_re "_alpha_identifier") k = true ->
  re_match (token_re "_alpha_identifier") (k ++ String c u)
  = is_word_char c && wacc (run wstep WWord u).
Proof.
  intros K. rewrite word_scan in K. apply wacc_word in K.
  rewrite word_scan, run_app, K. simpl.
  destruct (is_word_char c); simpl; [reflexivity|]. rewrite run_dead. reflexivity.
Qed.

Lemma longest_from_keep r : forall s pos b,
  exists n, longest_from r s pos (Some b) = Some n.
Proof.
  intros s. revert r. induction s as [|c s IH]; intros r pos b; simpl.
  - destruct (nullable r); eauto.
  - destruct (nullable r); apply IH.
Qed.

Lemma longest_from_bounds r : forall s pos best n,
  longest_from r s pos best = Some n ->
  best = Some n \/ (pos <= n <= pos + String.length s).
Proof.
  intros s. revert r. induction s as [|c s IH]; intros r pos best n; simpl.
  - destruct (nullable r); intros H; [injection H as <-; right; lia | auto].
  - intros H. apply IH in H as [H | H]; [|right; lia].
    destruct (nullable r); [injection H as <-; right; lia | auto].
Qed.

Lemma longest_from_at_least r : forall s pos best k,
  k <= String.length s -> re_match r (take k s) = true ->
  exists n, longest_from r s pos best = Some n /\ pos + k <= n.
Proof.
  intros s. revert r. induction s as [|c s IH]; intros r pos best k Hk M.
  - simpl in Hk. assert (k = 0) by lia. subst k. simpl in M. simpl. rewrite M.
    exists pos. split; [reflexivity | lia].
  - destruct k as [|k].
    + simpl in M. cbn [longest_from]. rewrite M.
      destruct (longest_from_keep (simp (deriv c r)) s (S pos) pos) as [n E].
      exists n. split; [exact E|].
      apply longest_from_bounds in E as [[= <-] | E]; lia.
    + simpl in M, Hk. cbn [longest_from].
      destruct (IH (simp (deriv c r)) (S pos) (if nullable r then Some pos else best) k
                  ltac:(lia) M) as (n & E & Hn).
      exists n. split; [exact E | lia].
Qed.

Lemma take_past k : forall n c r,
  String.length k < n ->
  take n (k ++ String c r) = k ++ String c (take (n - String.length k - 1) r).
Proof.
  induction k as [|a k IH]; intros n c r H; simpl in *.
  - destruct n as [|n]; [lia|]. simpl. rewrite Nat.sub_0_r. reflexivity.
  - destruct n as [|n]; [lia|]. simpl. rewrite IH by lia. reflexivity.
Qed.

Lemma word_lex k :
  re_match (token_re "_alpha_identifier") k = true ->
  lex_re (Str k) = Some (token_re "_alpha_identifier").
Proof.
  unfold lex_re, word, token_re. destruct (rule_of "_alpha_identifier") as [wr|].
  - intros ->. reflexivity.
  - intros K. rewrite re_match_void in K. discriminate K.
Qed.

End WordFacts.
Import WordFacts.

(** A keyword is a whole word.  [word] names the identifier pattern, so a
    string token that looks like an identifier is lexed with that pattern:
    it is taken only where the word ends, at the end of the source or
    before a character that is no letter, digit or underscore.  In
    [classy] there is no keyword [class]. *)
Theorem keyword_is_whole_word k rest :
  re_match (token_re "_alpha_identifier") k = true ->
  munch_ok (Str k) k rest
  = match rest with
    | EmptyString => true
    | String c _ => negb (is_word_char c)
    end.
Proof.
  intros K. unfold munch_ok. rewrite (word_lex k K).
  set (W := token_re "_alpha_identifier") in *.
  assert (Kt : re_match W (take (String.length k) (k ++ rest)) = true)
    by (rewrite take_app; exact K).
  assert (Kl : String.length k <= String.length (k ++ rest)) by (rewrite length_append; lia).
  destruct (longest_from_at_least W (k ++ rest) 0 None (String.length k) Kl Kt) as (n & E & Hn).
  fold (longest W (k ++ rest)) in E.
  pose proof (longest_match W _ n E) as M.
  pose proof E as B. unfold longest in B.
  apply longest_from_bounds in B as [B | B]; [discriminate B|].
  rewrite length_append in B. simpl in Hn, B.
  destruct rest as [|c r].
  - simpl in B. assert (n = String.length k) by lia. subst n.
    rewrite E. simpl. apply Nat.eqb_refl.
  - destruct (is_word_char c) eqn:C; simpl.
    + assert (Kt' : re_match W (take (S (String.length k)) (k ++ String c r)) = true).
      { rewrite take_past by lia.
        replace (S (String.length k) - String.length k - 1) with 0 by lia.
        destruct r; simpl take; unfold W; rewrite (word_extends k c "" K), C; reflexivity. }
      assert (Kl' : S (String.length k) <= String.length (k ++ String c r))
        by (rewrite length_append; simpl; lia).
      destruct (longest_from_at_least W (k ++ String c r) 0 None _ Kl' Kt') as (m & E' & Hm).
      fold (longest W (k ++ String c r)) in E'. rewrite E' in E. injection E as ->.
      rewrite E'. simpl. apply Nat.eqb_neq. simpl in Hm. lia.
    + destruct (Nat.eq_dec n (String.length k)) as [-> | Hne].
      * rewrite E. simpl. apply Nat.eqb_refl.
      * exfalso. rewrite take_past in M by lia.
        unfold W in M. rewrite (word_extends k c _ K), C in M. discriminate M.
Qed.

Lemma keyword_is_whole_word_witness :
  re_match (token_re "_alpha_identifier") "class" = true /\
  munch_ok (Str "class") "class" "y = 1" = false /\
  munch_ok (Str "class") "class" " Foo" = true.
Proof.
  assert (K : re_match (token_re "_alpha_identifier") "class" = true) by reflexivity.
  split; [exact K|]. split.
  - exact (keyword_is_whole_word "class" "y = 1" K).
  - exact (keyword_is_whole_word "class" " Foo" K).
Defined.
(* ================================================================== *)
(** * Trailing commas                                                  *)
(* ================================================================== *)

Module CommaFacts.

Lemma derive_seq_snoc rs c : forall ts,
  derive_seq (rs ++ [Str c]) ts ->
  exists us, derive_seq rs us /\ ts = us ++ [Leaf (Str c) c].
Proof.
  induction rs as [|r rs IH]; intros ts D; simpl in D.
  - inv_all. exists []. split; [constructor | reflexivity].
  - inversion D as [|? ? hs tl Dr Ds]; subst. destruct (IH _ Ds) as (us & Du & ->).
    exists (hs ++ us). split; [constructor; assumption | apply app_assoc].
Qed.

Lemma split_closer_spec r : forall init c ts,
  split_closer r = Some (init, c) -> derive r ts ->
  exists us, derive (Seq init) us /\ ts = us ++ [Leaf (Str c) c].
Proof.
  induction r; intros init c ts S D; simpl in S; try discriminate S;
    try (inversion D; subst; eauto; fail).
  destruct (rev members) as [|[] init'] eqn:R; try discriminate S.
  injection S as <- <-.
  assert (E : members = rev init' ++ [Str value])
    by (rewrite <- (rev_involutive members), R; reflexivity).
  subst members. inversion D; subst.
  match goal with H : derive_seq _ _ |- _ => apply derive_seq_snoc in H as (us & Du & ->) end.
  exists us. split; [constructor; assumption | reflexivity].
Qed.

Lemma no_comma_before_closer n ts rest c :
  comma_before_closer n = Some false ->
  derive (Sym n) ts -> leaf_texts ts <> rest ++ [","; c].
Proof.
  intros C D E.
  assert (Hn : closed_for (fun T => can T []) empty_symbols = true)
    by (vm_cast_no_check (eq_refl true)).
  assert (Hl : closed_for (fun T => can_last empty_symbols T ",") (last_symbols ",") = true)
    by (vm_cast_no_check (eq_refl true)).
  inversion D as [| | | | n' r ts' R D' | n' w X | | | | | | | | | |]; subst.
  - unfold comma_before_closer in C. rewrite (TableFacts.rule_or_blank_of n r R) in C.
    destruct (split_closer r) as [[init c']|] eqn:S; [|discriminate C].
    destruct (split_closer_spec r init c' ts' S D') as (us & Du & ->).
    rewrite leaf_texts_node, leaf_texts_app in E.
    change (leaf_texts [Leaf (Str c') c']) with [c'] in E.
    change (rest ++ [","; c]) with (rest ++ [","] ++ [c]) in E.
    rewrite app_assoc in E. apply app_inj_tail in E as [E _].
    pose proof (can_last_sound empty_symbols (last_symbols ",") "," Hn Hl (Seq init) us rest Du E)
      as L.
    rewrite L in C. discriminate C.
  - change (leaf_texts [Leaf (Sym n) w]) with [w] in E.
    destruct rest as [|x [|y rest]]; discriminate E.
Qed.

End CommaFacts.

(** Trailing commas.  Call arguments, index lists, type argument and type
    parameter lists, collection literals, destructuring declarations and
    the parameters of a function type take no comma before their closing
    bracket; the parameter lists of a class and of a function take one. *)
Theorem trailing_commas :
  (forall n ts rest c,
     In n ["value_arguments"; "indexing_suffix"; "type_arguments"; "type_parameters";
           "collection_literal"; "multi_variable_declaration"; "function_type_parameters"] ->
     derive (Sym n) ts -> leaf_texts ts <> rest ++ [","; c]) /\
  (forall n, In n ["_class_parameters"; "function_value_parameters_"] ->
     exists ts, derive (Sym n) ts /\ leaf_texts ts = ["("; "a"; ":"; "T"; ","; ")"]).
Proof.
  split.
  - intros n ts rest c Hn. apply CommaFacts.no_comma_before_closer.
    simpl in Hn.
    repeat (destruct Hn as [<- | Hn]; [vm_compute; reflexivity|]). destruct Hn.
  - intros n Hn. simpl in Hn. destruct Hn as [<- | [<- | []]].
    + destruct (check_some_sound 16 100 (Sym "_class_parameters")
                  ["("; "a"; ":"; "T"; ","; ")"] (fun _ => true)) as (ts & D & E & _);
        [vm_cast_no_check (eq_refl true) | eauto].
    + destruct (check_some_sound 16 100 (Sym "function_value_parameters_")
                  ["("; "a"; ":"; "T"; ","; ")"] (fun _ => true)) as (ts & D & E & _);
        [vm_cast_no_check (eq_refl true) | eauto].
Qed.

(* ================================================================== *)
(** * Aliases                                                          *)
(* ================================================================== *)

(* ================================================================== *)
(** * Character literals                                               *)
(* ================================================================== *)

Module CharFacts.
Local Open Scope string_scope.

Lemma in_range_single c a : in_range c (a, a) = Ascii.eqb c a.
Proof.
  unfold in_range. simpl. destruct (Ascii.eqb_spec c a) as [-> | N].
  - rewrite Nat.leb_refl. reflexivity.
  - assert (nat_of_ascii c <> nat_of_ascii a).
    { intros E. apply N. rewrite <- (ascii_nat_embedding c), <- (ascii_nat_embedding a), E.
      reflexivity. }
    destruct (Nat.leb_spec (nat_of_ascii a) (nat_of_ascii c));
      destruct (Nat.leb_spec (nat_of_ascii c) (nat_of_ascii a)); simpl; try reflexivity; lia.
Qed.

Lemma in_singles c l :
  existsb (in_range c) (map (fun a => (a, a)) l) = existsb (Ascii.eqb c) l.
Proof. induction l as [|a l IH]; simpl; [reflexivity | rewrite in_range_single, IH; reflexivity]. Qed.

Lemma cls_match neg rs w :
  re_match (Cls neg rs) w
  = match w with String c EmptyString => in_class neg rs c | _ => false end.
Proof.
  destruct w as [|c [|d w]]; simpl; try reflexivity;
    destruct (in_class neg rs c); simpl; rewrite ?re_match_void; reflexivity.
Qed.

Lemma cls2_match n1 r1 n2 r2 w :
  re_match (Cat (Cls n1 r1) (Cls n2 r2)) w
  = match w with
    | String a (String b EmptyString) => in_class n1 r1 a && in_class n2 r2 b
    | _ => false
    end.
Proof.
  destruct w as [|a w]; [reflexivity|]. simpl.
  destruct (in_class n1 r1 a); simpl.
  - rewrite cls_match. destruct w as [|b [|c w]]; reflexivity.
  - rewrite re_match_void. destruct w as [|b [|c w]]; reflexivity.
Qed.

Lemma times_matches neg rs n : forall w,
  matches (Times n (Cls neg rs)) w <->
  String.length w = n /\ all_chars (in_class neg rs) w = true.
Proof.
  induction n as [|n IH]; intros w; simpl.
  - split.
    + intros H. inversion H; subst. auto.
    + intros [H _]. destruct w; [constructor | discriminate H].
  - split.
    + intros H. inversion H as [| | a b u v Hu Hv | | | |]; subst.
      inversion Hu; subst. apply IH in Hv as [L A]. simpl. rewrite L, A.
      match goal with X : in_class _ _ _ = true |- _ => rewrite X end. auto.
    + intros [L A]. destruct w as [|c w]; [discriminate L|]. simpl in L, A.
      apply andb_true_iff in A as [Ac Aw].
      change (String c w) with (String c "" ++ w).
      constructor; [constructor; exact Ac | apply IH; split; [lia | exact Aw]].
Qed.

Lemma hex4_match w :
  re_match (Times 4 (cls [("0", "9"); ("a", "f"); ("A", "F")]%char)) w = is_hex4 w.
Proof.
  apply eq_iff_eq_true. rewrite re_match_correct. unfold cls. rewrite times_matches.
  unfold is_hex4, is_hex_digit. rewrite andb_true_iff, Nat.eqb_eq. reflexivity.
Qed.

Lemma plain_match w :
  is_ascii_text w = true ->
  re_match (ncls [(LF, LF); (CR, CR); ("'", "'"); (BSL, BSL)]%char) w = is_plain_char w.
Proof.
  intros A. unfold ncls. rewrite cls_match. unfold is_plain_char, in_class.
  destruct w as [|c [|d w]]; try reflexivity.
  - rewrite <- in_singles. unfold is_ascii_text in A. simpl in A.
    rewrite andb_true_r in A. unfold utf8_length. cbv zeta. rewrite A.
    simpl. rewrite !andb_true_r. reflexivity.
  - unfold is_ascii_text in A. simpl in A. apply andb_true_iff in A as [A _].
    unfold utf8_length. cbv zeta. rewrite A. simpl. rewrite andb_false_r. reflexivity.
Qed.

Lemma escape_match w :
  re_match (Cat (Chr BSL)
              (cls [("t", "t"); ("b", "b"); ("r", "r"); ("n", "n"); ("'", "'");
                    (DQ, DQ); (BSL, BSL); ("$", "$")]%char)) w
  = is_escape w.
Proof.
  unfold Chr, cls. rewrite cls2_match. unfold is_escape, in_class.
  destruct w as [|a [|b [|c w]]]; try reflexivity.
  rewrite <- in_singles. simpl existsb at 1. rewrite in_range_single, orb_false_r. reflexivity.
Qed.

End CharFacts.

(** A character literal of ASCII text is a quote, one character or one
    escape, and a quote: the character is any but line feed, carriage
    return, quote and backslash; the escape is a backslash and one of the
    letters t, b, r, n, the quote, the double quote, the backslash and the
    dollar sign, or a backslash, the letter u and exactly four hexadecimal
    digits.  Nothing else is a character literal; two quotes with nothing
    between are none.  The patterns are read here over bytes, which are
    the characters of an ASCII text only: a character of several bytes is
    outside this statement. *)
Theorem character_literal_texts ws :
  forallb is_ascii_text ws = true ->
  ((exists ts, derive (Sym "character_literal") ts /\ leaf_texts ts = ws) <->
   character_texts ws = true).
Proof.
  intros A. split.
  - intros (ts & D & <-). open_sym "character_literal". inv_all.
    + open_sym "escape_seq_". inv_all.
      * open_sym "_uni_character_literal". inv_all.
        match goal with H : re_match _ _ = true |- _ => rewrite CharFacts.hex4_match in H end.
        unfold leaf_texts. simpl. assumption.
      * open_sym "_escaped_identifier". inv_all.
        match goal with H : re_match _ _ = true |- _ => rewrite CharFacts.escape_match in H end.
        unfold leaf_texts. simpl.
        match goal with H : is_escape _ = true |- _ => rewrite H end. apply orb_true_r.
    + rewrite forallb_forall in A.
      match goal with H : re_match _ ?x = true |- _ =>
        assert (Aw : is_ascii_text x = true) end.
      { apply A. unfold leaf_texts. simpl. tauto. }
      match goal with H : re_match _ _ = true |- _ =>
        rewrite CharFacts.plain_match in H by exact Aw; rename H into P end.
      unfold leaf_texts. cbn [forest_leaves flat_map leaves app map snd character_texts].
      rewrite P. reflexivity.
  - intros H. unfold character_texts in H.
    destruct ws as [|a [|c [|b [|d [|e ws]]]]]; try discriminate H.
    + apply andb_true_iff in H as [H Hc]. apply andb_true_iff in H as [Ha Hb].
      apply String.eqb_eq in Ha, Hb. subst a b.
      rewrite forallb_forall in A.
      assert (Ac : is_ascii_text c = true) by (apply A; simpl; tauto).
      apply orb_true_iff in Hc as [Hc | Hc].
      * rewrite <- CharFacts.plain_match in Hc by exact Ac.
        eexists. split.
        -- eapply d_sym; [reflexivity|]. apply d_seq.
           eapply (ds_cons _ _ [_] _); [apply d_str|].
           eapply (ds_cons _ _ [_] _); [|eapply (ds_cons _ _ [_] []); [apply d_str | apply ds_nil]].
           apply d_choice, da_next, da_here, d_pat. exact Hc.
        -- reflexivity.
      * rewrite <- CharFacts.escape_match in Hc.
        eexists. split.
        -- eapply d_sym; [reflexivity|]. apply d_seq.
           eapply (ds_cons _ _ [_] _); [apply d_str|].
           eapply (ds_cons _ _ [_] _); [|eapply (ds_cons _ _ [_] []); [apply d_str | apply ds_nil]].
           apply d_choice, da_here. eapply d_sym; [reflexivity|].
           apply d_choice, da_next, da_here. eapply d_sym; [reflexivity|].
           apply d_pat. exact Hc.
        -- reflexivity.
    + apply andb_true_iff in H as [H Hd]. apply andb_true_iff in H as [H Hc].
      apply andb_true_iff in H as [Ha Hb].
      apply String.eqb_eq in Ha, Hb, Hc. subst a d c.
      rewrite <- CharFacts.hex4_match in Hd.
      eexists. split.
      * eapply d_sym; [reflexivity|]. apply d_seq.
        eapply (ds_cons _ _ [_] _); [apply d_str|].
        eapply (ds_cons _ _ [_] _); [|eapply (ds_cons _ _ [_] []); [apply d_str | apply ds_nil]].
        apply d_choice, da_here. eapply d_sym; [reflexivity|].
        apply d_choice, da_here. eapply d_sym; [reflexivity|].
        apply d_seq.
        eapply (ds_cons _ _ [_] _); [apply d_str|].
        eapply (ds_cons _ _ [_] []); [|apply ds_nil].
        apply d_pat. exact Hd.
      * reflexivity.
Qed.

Lemma character_literal_texts_witness :
  forallb is_ascii_text ["'"; "a"; "'"] = true /\
  (exists ts, derive (Sym "character_literal") ts /\ leaf_texts ts = ["'"; "a"; "'"]) /\
  ~ (exists ts, derive (Sym "character_literal") ts /\ leaf_texts ts = ["'"; "'"]).
Proof.
  split; [reflexivity|]. split.
  - apply (proj2 (character_literal_texts ["'"; "a"; "'"] eq_refl)). reflexivity.
  - intros H. apply (proj1 (character_literal_texts ["'"; "'"] eq_refl)) in H. discriminate H.
Defined.
(* ================================================================== *)
(** * Binary forms of different levels                                 *)
(* ================================================================== *)

Lemma binary_rule_prec n p : In (n, p) binary_rules -> node_prec n = Some (AssocLeft, p).
Proof.
  intros H. simpl in H.
  repeat (destruct H as [[= <- <-] | H]; [reflexivity|]). destruct H.
Qed.

Lemma binary_operand_production n p cs :
  In (n, p) binary_rules -> production (binary_operand n cs) = Some (AssocLeft, p, cs).
Proof.
  intros H. unfold binary_operand. cbn [production].
  change (node_prec "expression_") with (@None (assoc * Z)).
  change (node_prec "_binary_expression") with (@None (assoc * Z)).
  cbn [production]. rewrite (binary_rule_prec n p H). reflexivity.
Qed.

Lemma looser_right_rejected n p m q l op l2 op2 rest :
  In (n, p) binary_rules -> In (m, q) binary_rules -> (q <= p)%Z ->
  conforms (Node n [l; op; binary_operand m (Node "expression_" l2 :: op2 :: rest)]) = false.
Proof.
  intros Hn Hm Hq. cbn [conforms]. rewrite (binary_rule_prec n p Hn).
  assert (R : right_ok AssocLeft p
                [l; op; binary_operand m (Node "expression_" l2 :: op2 :: rest)] = false).
  { unfold right_ok, last_operand. cbn [rev app first_operand].
    change (is_operand (binary_operand m (Node "expression_" l2 :: op2 :: rest))) with true.
    cbv iota. rewrite (binary_operand_production m q _ Hm).
    cbn [first_operand]. change (is_operand (Node "expression_" l2)) with true.
    cbn [is_some]. cbv iota.
    destruct (Z.ltb_spec p q); [lia|]. simpl. apply andb_false_r. }
  rewrite R, andb_false_r. reflexivity.
Qed.

Lemma looser_left_rejected n p m q l2 op2 r2 op r :
  In (n, p) binary_rules -> In (m, q) binary_rules -> (q < p)%Z ->
  conforms (Node n [binary_operand m [l2; op2; Node "expression_" r2]; op; r]) = false.
Proof.
  intros Hn Hm Hq. cbn [conforms]. rewrite (binary_rule_prec n p Hn).
  assert (L : left_ok p [binary_operand m [l2; op2; Node "expression_" r2]; op; r] = false).
  { unfold left_ok. cbn [first_operand].
    change (is_operand (binary_operand m [l2; op2; Node "expression_" r2])) with true.
    cbv iota. rewrite (binary_operand_production m q _ Hm).
    unfold last_operand. cbn [rev app first_operand].
    change (is_operand (Node "expression_" r2)) with true.
    cbn [is_some]. cbv iota.
    destruct (Z.ltb_spec p q); [lia|]. destruct (Z.eqb_spec p q); [lia|]. reflexivity. }
  rewrite L. reflexivity.
Qed.

(** Precedence between binary forms.  A binary form is never the direct
    right operand of a form of the same or a higher level, and a binary
    form that ends in an expression is never the direct left operand of a
    form of a higher level.  So [a + b * c] groups as [a + (b * c)] and
    [a * b + c] as [(a * b) + c].  A type test ends in a type and not in
    an expression: it can be the left operand of a tighter form, and
    [a is T * b] is read as [(a is T) * b]. *)
Theorem tighter_binary_binds_first :
  (forall n p m q l op l2 op2 rest,
     In (n, p) binary_rules -> In (m, q) binary_rules -> (q <= p)%Z ->
     conforms (Node n [l; op; binary_operand m (Node "expression_" l2 :: op2 :: rest)])
     = false) /\
  (forall n p m q l2 op2 r2 op r,
     In (n, p) binary_rules -> In (m, q) binary_rules -> (q < p)%Z ->
     conforms (Node n [binary_operand m [l2; op2; Node "expression_" r2]; op; r]) = false) /\
  (forall ts, derive (Sym "expression_") ts -> leaf_texts ts = a_plus_b_times_c ->
     forallb conforms ts = true ->
     ts = [additive (primary (ident "a")) "+"
             (multiplicative (primary (ident "b")) "*" (primary (ident "c")))]) /\
  (forall ts, derive (Sym "expression_") ts -> leaf_texts ts = a_times_b_plus_c ->
     forallb conforms ts = true ->
     ts = [additive (multiplicative (primary (ident "a")) "*" (primary (ident "b")))
             "+" (primary (ident "c"))]) /\
  (derive (Sym "expression_") [a_is_t_times_b] /\
   leaf_texts [a_is_t_times_b] = ["a"; "is"; "T"; "*"; "b"] /\
   conforms a_is_t_times_b = true /\
   (PREC.CHECK < PREC.MULTIPLICATIVE)%Z).
Proof.
  split; [|split; [|split; [|split]]].
  - intros. eapply looser_right_rejected; eauto.
  - intros. eapply looser_left_rejected; eauto.
  - intros ts D E C. apply forest_eqb_eq.
    assert (H : check_all 16 100 (Sym "expression_") a_plus_b_times_c
                  (fun ts => implb (forallb conforms ts)
                     (is_forest [additive (primary (ident "a")) "+"
                                   (multiplicative (primary (ident "b")) "*"
                                      (primary (ident "c")))] ts)) = true)
      by (vm_cast_no_check (eq_refl true)).
    pose proof (check_all_sound _ _ _ _ _ H ts D E) as R. cbv beta in R.
    rewrite C in R. exact R.
  - intros ts D E C. apply forest_eqb_eq.
    assert (H : check_all 16 100 (Sym "expression_") a_times_b_plus_c
                  (fun ts => implb (forallb conforms ts)
                     (is_forest [additive (multiplicative (primary (ident "a")) "*"
                                             (primary (ident "b")))
                                   "+" (primary (ident "c"))] ts)) = true)
      by (vm_cast_no_check (eq_refl true)).
    pose proof (check_all_sound _ _ _ _ _ H ts D E) as R. cbv beta in R.
    rewrite C in R. exact R.
  - split; [|split; [|split]]; try reflexivity.
    apply (derive_by_search 16 100). vm_cast_no_check (eq_refl true).
Qed.

(* ================================================================== *)
(** * The statements above at concrete inputs                          *)
(* ================================================================== *)

Lemma empty_arguments_derive :
  derive (Sym "value_arguments")
    [Node "value_arguments" [tok "("; FieldT "argument_list" []; tok ")"]].
Proof.
  eapply d_sym; [reflexivity|]. apply d_seq.
  apply (ds_cons _ _ [tok "("] [FieldT "argument_list" []; tok ")"]); [apply d_str|].
  apply (ds_cons _ _ [FieldT "argument_list" []] [tok ")"]);
    [apply d_choice, da_next, da_here, d_field, d_blank|].
  apply (ds_cons _ _ [tok ")"] []); [apply d_str | apply ds_nil].
Qed.

Lemma brackets_are_balanced_witness :
  derive (Sym "value_arguments")
    [Node "value_arguments" [tok "("; FieldT "argument_list" []; tok ")"]] /\
  count_leaves ["("] [Node "value_arguments" [tok "("; FieldT "argument_list" []; tok ")"]]
  = count_leaves [")"] [Node "value_arguments" [tok "("; FieldT "argument_list" []; tok ")"]].
Proof.
  split; [exact empty_arguments_derive|].
  exact (proj1 (brackets_are_balanced "value_arguments" _ empty_arguments_derive)).
Defined.

Lemma trailing_commas_witness :
  derive (Sym "value_arguments") [arguments_a_b] /\
  leaf_texts [arguments_a_b] = ["("; "a"; ","; "b"; ")"] /\
  leaf_texts [arguments_a_b] <> ["("; "a"; ","; "b"] ++ [","; ")"] /\
  ~ (exists ts, derive (Sym "value_arguments") ts /\
                leaf_texts ts = ["("; "a"; ","; "b"] ++ [","; ")"]).
Proof.
  assert (D : derive (Sym "value_arguments") [arguments_a_b])
    by (apply (derive_by_search 16 100); vm_compute; reflexivity).
  assert (V : In "value_arguments"
                ["value_arguments"; "indexing_suffix"; "type_arguments"; "type_parameters";
                 "collection_literal"; "multi_variable_declaration";
                 "function_type_parameters"]) by (simpl; tauto).
  split; [exact D|]. split; [reflexivity|]. split.
  - exact (proj1 trailing_commas "value_arguments" _ ["("; "a"; ","; "b"] ")" V D).
  - intros (ts & Dt & E).
    exact (proj1 trailing_commas "value_arguments" ts ["("; "a"; ","; "b"] ")" V Dt E).
Defined.

Lemma prefix_binds_loosest_witness :
  conforms (Node "multiplicative_expression"
              [prefixed "-" (primary (ident "a"));
               Node "_multiplicative_operator" [tok "*"]; primary (ident "b")]) = false.
Proof.
  apply (proj1 (proj2 (proj2 (proj2 prefix_binds_loosest)))
           "multiplicative_expression" PREC.MULTIPLICATIVE).
  simpl. tauto.
Defined.

Lemma tighter_binary_binds_first_witness :
  conforms (Node "multiplicative_expression"
              [primary (ident "a"); Node "_multiplicative_operator" [tok "*"];
               binary_operand "additive_expression"
                 [primary (ident "b"); Node "_additive_operator" [tok "+"];
                  primary (ident "c")]]) = false.
Proof.
  apply (proj1 tighter_binary_binds_first
           "multiplicative_expression" PREC.MULTIPLICATIVE
           "additive_expression" PREC.ADDITIVE);
    [simpl; tauto | simpl; tauto | discriminate].
Defined.

(* ================================================================== *)
(** * The head of a program                                            *)
(* ================================================================== *)

Module HeadFacts.






End HeadFacts.



(* ================================================================== *)
(** * Fields and keywords of the constructs                            *)
(* ================================================================== *)

Module ConstructFacts.

Definition holds_one (l : list string) (ts : list tree) : Prop :=
  exists s, In s l /\ In (Str s, s) (forest_leaves ts).

Lemma holds_one_left l ts us : holds_one l ts -> holds_one l (ts ++ us).
Proof.
  intros (s & Hs & H). exists s. split; [exact Hs|].
  unfold forest_leaves. rewrite flat_map_app. apply in_or_app. left. exact H.
Qed.

Lemma holds_one_right l ts us : holds_one l us -> holds_one l (ts ++ us).
Proof.
  intros (s & Hs & H). exists s. split; [exact Hs|].
  unfold forest_leaves. rewrite flat_map_app. apply in_or_app. right. exact H.
Qed.

Lemma holds_one_wrap l (f : list tree -> tree) ts :
  leaves (f ts) = flat_map leaves ts -> holds_one l ts -> holds_one l [f ts].
Proof.
  intros E (s & Hs & H). exists s. split; [exact Hs|].
  unfold forest_leaves. simpl. rewrite app_nil_r, E. exact H.
Qed.

Section Always.
Variable self : rule -> bool.
Variable l : list string.
Hypothesis Hself : forall r ts, self r = true -> derive r ts -> holds_one l ts.

Lemma always_in_sound_all :
  (forall r ts, derive r ts -> always_in self l r = true -> holds_one l ts) /\
  (forall rs ts, derive_seq rs ts -> existsb (always_in self l) rs = true -> holds_one l ts) /\
  (forall rs ts, derive_alt rs ts -> forallb (always_in self l) rs = true -> holds_one l ts) /\
  (forall r ts, derive_rep r ts -> True).
Proof.
  apply derive_mutind; try (intros; exact I).
  - intros H. discriminate H.
  - intros s H. simpl in H. exists s. split; [apply mem_In, H | left; reflexivity].
  - intros p w _ H. discriminate H.
  - intros r w _ H. discriminate H.
  - intros n r ts R D _ H. simpl in H. rewrite R in H.
    apply andb_true_iff in H as [_ H].
    apply (holds_one_wrap l (Node n)); [reflexivity | exact (Hself r ts H D)].
  - intros n w X H. simpl in H. rewrite X in H. discriminate H.
  - intros rs ts _ IH H. exact (IH H).
  - intros rs ts _ IH H. simpl in H. apply andb_true_iff in H as [_ H]. exact (IH H).
  - intros r ts _ _ H. discriminate H.
  - intros r ts us _ IH _ _ H. apply holds_one_left. exact (IH H).
  - intros p r ts _ IH H. exact (IH H).
  - intros p r ts _ IH H. exact (IH H).
  - intros p r ts _ IH H. exact (IH H).
  - intros p r ts _ IH H. exact (IH H).
  - intros f r ts _ IH H. apply (holds_one_wrap l (FieldT f)); [reflexivity | exact (IH H)].
  - intros r n ts _ IH H. apply (holds_one_wrap l (AliasT n)); [reflexivity | exact (IH H)].
  - intros H. discriminate H.
  - intros r rs ts us _ IH1 _ IH2 H. simpl in H. apply orb_true_iff in H as [H | H].
    + apply holds_one_left. exact (IH1 H).
    + apply holds_one_right. exact (IH2 H).
  - intros r rs ts _ IH H. simpl in H. apply andb_true_iff in H as [H _]. exact (IH H).
  - intros r rs ts _ IH H. simpl in H. apply andb_true_iff in H as [_ H]. exact (IH H).
Qed.
End Always.

Lemma always_str_sound fuel l : forall r ts,
  always_str fuel l r = true -> derive r ts -> holds_one l ts.
Proof.
  induction fuel as [|k IH]; intros r ts H D; [discriminate H|].
  exact (proj1 (always_in_sound_all (always_str k l) l IH) r ts D H).
Qed.

End ConstructFacts.

(** Each construct carries its keyword: whatever a class declaration, a
    function, a property, an [if], a [when], a loop, a jump and the other
    constructs of [construct_keywords] yield holds a token that is one of
    the keywords listed for it. *)
Theorem constructs_carry_their_keyword n ks ts :
  In (n, ks) construct_keywords -> derive (Sym n) ts ->
  exists k, In k ks /\ In (Str k, k) (forest_leaves ts).
Proof.
  intros H D.
  assert (A : forallb (fun e => always_str 4 (snd e) (Sym (fst e))) construct_keywords = true)
    by (vm_cast_no_check (eq_refl true)).
  rewrite forallb_forall in A. specialize (A _ H). cbn [fst snd] in A.
  exact (ConstructFacts.always_str_sound 4 ks (Sym n) ts A D).
Qed.

(** Every field the grammar writes is present on every node of its rule,
    whether it is a placeholder or not, with one exception: the field
    [identifier] of a value argument, which stands under [optional]. *)
Theorem fields_are_present :
  (forall n r f cs, In (n, r) rules -> In f (fields r) ->
     (n, f) <> ("value_argument", "identifier") ->
     derive (Sym n) [Node n cs] -> exists fs, In (FieldT f fs) cs) /\
  derive (Sym "value_argument") [Node "value_argument" [primary (ident "a")]] /\
  has_field "identifier" [primary (ident "a")] = false.
Proof.
  split; [|split].
  - intros n r f cs Hr Hf Hne D.
    assert (A : forallb (fun nr => forallb (fun f =>
                   (String.eqb (fst nr) "value_argument" && String.eqb f "identifier")
                   || always_field f (snd nr)) (fields (snd nr))) rules = true)
      by (vm_cast_no_check (eq_refl true)).
    rewrite forallb_forall in A. specialize (A _ Hr). cbn [fst snd] in A.
    rewrite forallb_forall in A. specialize (A _ Hf).
    apply orb_true_iff in A as [A | A].
    + apply andb_true_iff in A as [A1 A2]. apply String.eqb_eq in A1, A2. congruence.
    + pose proof (assoc_find_NoDup n r rules rules_NoDup Hr) as R. fold (rule_of n) in R.
      inversion D as [| | | | n' r' ts' R' D' | n' w X | | | | | | | | | |]; subst.
      rewrite R in R'. injection R' as <-.
      exact (always_field_sound f r A cs D').
  - apply (derive_by_search 16 100). vm_cast_no_check (eq_refl true).
  - reflexivity.
Qed.

Lemma constructs_carry_their_keyword_witness :
  exists k, In k ["package"] /\
    In (Str k, k)
       (forest_leaves [Node "package_header"
                         [tok "package"; Node "identifier" [ident "a"];
                          Node "_semi" [tok ";"]]]).
Proof.
  apply (constructs_carry_their_keyword "package_header").
  - simpl. tauto.
  - apply (derive_by_search 16 100). vm_compute. reflexivity.
Defined.

Lemma fields_are_present_witness :
  exists fs, In (FieldT "argument_list" fs) [tok "("; FieldT "argument_list" []; tok ")"].
Proof.
  apply (proj1 fields_are_present "value_arguments" (rule_or_blank "value_arguments")
           "argument_list").
  - apply assoc_find_In. reflexivity.
  - simpl. left. reflexivity.
  - discriminate.
  - exact empty_arguments_derive.
Defined.
